(** * copy_aprinter_srcs: the header closure resolver and the selective mirror

    A shallow embedding of [tools/copy_aprinter_srcs.py] and the properties of
    its three phases: seeding ([collect_files]), resolution
    ([process_pending_files], [process_file]) and mirroring
    ([copy_aprinter_files], [mkdir_p]).

    Python byte strings are [string] (a Rocq [ascii] is one byte), the two
    [set()] objects of the state dictionary are [gset string], and the file
    system is a finite map from canonical locations to nodes. *)

From Stdlib Require Import Ascii String.
From stdpp Require Import gmap strings list fin_maps.

(** ** Python string operations used by the script *)

Module PyStr.

(** [s.startswith(p)] *)
Definition startswith (s p : string) : bool := String.prefix p s.

(** [s.endswith(p)] *)
Fixpoint endswith (s p : string) : bool :=
  String.eqb s p
  || match s with
     | EmptyString => false
     | String _ s' => endswith s' p
     end.

(** [s[n:]] *)
Fixpoint drop (n : nat) (s : string) : string :=
  match n, s with
  | O, _ => s
  | S n', String _ s' => drop n' s'
  | S _, EmptyString => EmptyString
  end.

(** [s[:n]] *)
Fixpoint take (n : nat) (s : string) : string :=
  match n, s with
  | S n', String c s' => String c (take n' s')
  | _, _ => EmptyString
  end.

(** [c * n] for a one character string [c] *)
Fixpoint replicate (n : nat) (c : ascii) : string :=
  match n with
  | O => EmptyString
  | S n' => String c (replicate n' c)
  end.

(** [c in s] for a one character string [c] *)
Fixpoint contains (c : ascii) (s : string) : bool :=
  match s with
  | EmptyString => false
  | String d s' => Ascii.eqb c d || contains c s'
  end.

(** [s.split(sep)] for a one character string [sep] *)
Fixpoint split (sep : ascii) (s : string) : list string :=
  match s with
  | EmptyString => [EmptyString]
  | String c s' =>
      if Ascii.eqb c sep then EmptyString :: split sep s'
      else
        match split sep s' with
        | h :: t => String c h :: t
        | [] => [String c EmptyString]
        end
  end.

End PyStr.

(** ** The subset of Python's [re] that [include_regex] is written in

    The pattern [^ *# *include *<(aprinter/.+)> *$] is a sequence of single
    characters, greedy repetitions of a single character or of [.], the two
    line anchors (the pattern is compiled with [re.MULTILINE]) and one
    capturing group.  The matcher below is the backtracking matcher of [re]
    restricted to such sequences: a greedy repetition first consumes as much
    as it can and then gives characters back one at a time until the rest of
    the pattern matches. *)

Module Re.

Definition newline : ascii := "010"%char.

Definition is_newline (c : ascii) : bool := Ascii.eqb c newline.

Inductive atom : Type :=
| Chr (c : ascii)        (* a literal character *)
| Dot.                   (* [.]: any character except a newline *)

Definition atom_matches (a : atom) (c : ascii) : bool :=
  match a with
  | Chr d => Ascii.eqb c d
  | Dot => negb (is_newline c)
  end.

Inductive item : Type :=
| One (a : atom)         (* [a] *)
| Star (a : atom)        (* [a*], greedy *)
| Plus (a : atom)        (* [a+], greedy *)
| Bol                    (* [^] under MULTILINE *)
| Eol                    (* [$] under MULTILINE *)
| GroupOpen              (* [(] of group 1 *)
| GroupClose.            (* [)] of group 1 *)

Definition regex : Type := list item.

(** A literal word is the sequence of its characters. *)
Fixpoint lit (s : string) : regex :=
  match s with
  | EmptyString => []
  | String c s' => One (Chr c) :: lit s'
  end.

(** The result of a successful match attempt: the offset at which the match
    ends and the span of group 1, all relative to the start of the attempt. *)
Record found : Type := Found { m_end : nat; g_start : nat; g_end : nat }.

(** A matcher runs at a position of the subject: [bol] says whether the
    position is at the start of a line, [s] is the rest of the subject,
    [pos] the offset from the start of the attempt, [gs] and [ge] the span
    of group 1 recorded so far. *)
Definition matcher : Type := bool -> string -> nat -> nat -> nat -> option found.

Definition accept : matcher := fun _ _ pos gs ge => Some (Found pos gs ge).

(** Greedy repetition: take one more character when it matches and the rest
    succeeds from there, otherwise go on with [k] from here. *)
Fixpoint star (a : atom) (k : matcher) (bol : bool) (s : string)
    (pos gs ge : nat) {struct s} : option found :=
  match s with
  | String c s' =>
      if atom_matches a c then
        match star a k (is_newline c) s' (S pos) gs ge with
        | Some r => Some r
        | None => k bol s pos gs ge
        end
      else k bol s pos gs ge
  | EmptyString => k bol s pos gs ge
  end.

Definition one (a : atom) (k : matcher) : matcher :=
  fun _ s pos gs ge =>
    match s with
    | String c s' =>
        if atom_matches a c then k (is_newline c) s' (S pos) gs ge else None
    | EmptyString => None
    end.

Definition at_eol (s : string) : bool :=
  match s with
  | EmptyString => true
  | String c _ => is_newline c
  end.

Fixpoint compile (r : regex) : matcher :=
  match r with
  | [] => accept
  | One a :: r' => one a (compile r')
  | Star a :: r' => star a (compile r')
  | Plus a :: r' => one a (star a (compile r'))
  | Bol :: r' => fun bol s pos gs ge =>
      if bol then compile r' bol s pos gs ge else None
  | Eol :: r' => fun bol s pos gs ge =>
      if at_eol s then compile r' bol s pos gs ge else None
  | GroupOpen :: r' => fun bol s pos _ ge => compile r' bol s pos pos ge
  | GroupClose :: r' => fun bol s pos gs _ => compile r' bol s pos gs pos
  end.

(** One match attempt at a position: [pattern.match] anchored there. *)
Definition match_here (r : regex) (bol : bool) (s : string) : option found :=
  compile r bol s 0 0 0.

Definition group1 (s : string) (m : found) : string :=
  PyStr.take (g_end m - g_start m) (PyStr.drop (g_start m) s).

(** [pattern.finditer(s)], keeping [match.group(1)] of every match: attempts
    are made from left to right; after a match the scan resumes where the
    match ended (one character further after an empty match).  [skip] counts
    the characters still covered by the last match. *)
Fixpoint scan (r : regex) (bol : bool) (skip : nat) (s : string) : list string :=
  match skip with
  | S k =>
      match s with
      | EmptyString => []
      | String c s' => scan r (is_newline c) k s'
      end
  | O =>
      match match_here r bol s with
      | Some m =>
          group1 s m ::
          match s with
          | EmptyString => []
          | String c s' => scan r (is_newline c) (pred (m_end m)) s'
          end
      | None =>
          match s with
          | EmptyString => []
          | String c s' => scan r (is_newline c) 0 s'
          end
      end
  end.

Definition finditer_group1 (r : regex) (s : string) : list string :=
  scan r true 0 s.

End Re.

(** ** The script's constants and pure helpers *)

(** [os.sep] of the POSIX platform the script is written for (its first line
    is [#!/usr/bin/env python2.7], and the include pattern itself spells the
    separator as a slash). *)
Definition os_sep : string := "/".

(** [re.compile(r'^ *# *include *<(aprinter/.+)> *$', re.MULTILINE)] *)
Definition include_regex : Re.regex :=
  [Re.Bol; Re.Star (Re.Chr " ")] ++ Re.lit "#" ++
  [Re.Star (Re.Chr " ")] ++ Re.lit "include" ++
  [Re.Star (Re.Chr " ")] ++ Re.lit "<" ++
  [Re.GroupOpen] ++ Re.lit "aprinter/" ++ [Re.Plus Re.Dot; Re.GroupClose] ++
  Re.lit ">" ++ [Re.Star (Re.Chr " "); Re.Eol].

(** [file_is_from_aprinter] *)
Definition file_is_from_aprinter (file_path : string) : bool :=
  PyStr.startswith file_path ("aprinter" +:+ os_sep).


(** ** [posixpath]: the path functions the script and the library calls use *)

Module PosixPath.

Definition slash : ascii := "/"%char.

(** [a.rstrip('/')] *)
Fixpoint rstrip_slash (s : string) : string :=
  match s with
  | EmptyString => EmptyString
  | String c s' =>
      match rstrip_slash s' with
      | EmptyString => if Ascii.eqb c slash then EmptyString else String c EmptyString
      | r => String c r
      end
  end.

(** [(p[:i], p[i:])] for [i = p.rfind('/') + 1], when [p] has a slash *)
Fixpoint cut_last_slash (p : string) : option (string * string) :=
  match p with
  | EmptyString => None
  | String c p' =>
      match cut_last_slash p' with
      | Some (h, t) => Some (String c h, t)
      | None => if Ascii.eqb c slash then Some (String c EmptyString, p') else None
      end
  end.

(** [posixpath.split]: a head that is not made of slashes only loses its
    trailing slashes. *)
Definition split (p : string) : string * string :=
  let '(head, tail) :=
    match cut_last_slash p with
    | Some ht => ht
    | None => (EmptyString, p)
    end in
  match rstrip_slash head with
  | EmptyString => (head, tail)
  | h => (h, tail)
  end.

Definition dirname (p : string) : string := fst (split p).

Definition basename (p : string) : string :=
  match cut_last_slash p with
  | Some (_, t) => t
  | None => p
  end.

(** [posixpath.join(a, b)] *)
Definition join (a b : string) : string :=
  if PyStr.startswith b "/" then b
  else if String.eqb a "" || PyStr.endswith a "/" then a +:+ b
  else a +:+ "/" +:+ b.

(** The components of a path: the pieces between its slashes. *)
Definition components (p : string) : list string := PyStr.split slash p.

End PosixPath.

(** ** The file system

    A file system is a finite map from locations to nodes.  A location is the
    list of names leading from the root to an entry; the root is a directory
    and always exists.  There are no symbolic links and no permissions: the
    errors of the model are those of missing entries, of entries of the wrong
    kind and of entries that are already there.  A path is resolved one
    component at a time, from the root (the working directory is the root),
    with [.] and the empty component standing for the directory reached so
    far and [..] for its parent. *)

Module Fs.

Inductive node : Type :=
| Reg (content : string)   (* a regular file *)
| Dir                      (* a directory *)
| Sock.                    (* a socket: neither regular nor a directory *)

Inductive errno : Type := ENOENT | ENOTDIR | EISDIR | EEXIST | ENXIO.

Global Instance errno_eq_dec : EqDecision errno.
Proof. solve_decision. Defined.

Global Instance node_eq_dec : EqDecision node.
Proof. solve_decision. Defined.

Definition loc : Type := list string.

Definition node_at (fs : gmap (list string) node) (l : loc) : option node :=
  match l with
  | [] => Some Dir
  | _ => fs !! l
  end.

Definition parent (l : loc) : loc := removelast l.

Definition is_dot (c : string) : bool := String.eqb c "" || String.eqb c ".".

Fixpoint walk (fs : gmap (list string) node) (cur : loc) (comps : list string)
    : errno + loc :=
  match comps with
  | [] => inr cur
  | c :: cs =>
      match node_at fs cur with
      | Some Dir =>
          if is_dot c then walk fs cur cs
          else if String.eqb c ".." then walk fs (parent cur) cs
          else walk fs (cur ++ [c]) cs
      | Some _ => inl ENOTDIR
      | None => inl ENOENT
      end
  end.

(** The location a path names; the empty path names nothing. *)
Definition resolve (fs : gmap (list string) node) (path : string) : errno + loc :=
  if String.eqb path "" then inl ENOENT
  else walk fs [] (PosixPath.components path).

(** The entry at a path, which has to exist. *)
Definition entry (fs : gmap (list string) node) (path : string) : errno + (loc * node) :=
  match resolve fs path with
  | inl e => inl e
  | inr l =>
      match node_at fs l with
      | Some n => inr (l, n)
      | None => inl ENOENT
      end
  end.

Fixpoint strip_prefix (l k : loc) : option loc :=
  match l, k with
  | [], _ => Some k
  | a :: l', b :: k' => if String.eqb a b then strip_prefix l' k' else None
  | _ :: _, [] => None
  end.

Definition child_name (l k : loc) : option string :=
  match strip_prefix l k with
  | Some [n] => Some n
  | _ => None
  end.

(** The names of the entries of the directory at [l]. *)
Definition children (fs : gmap (list string) node) (l : loc) : list string :=
  omap (child_name l) (elements (dom fs)).

Fixpoint drop_trailing_empty (comps : list string) : list string :=
  match comps with
  | [] => []
  | c :: cs =>
      match drop_trailing_empty cs with
      | [] => if String.eqb c "" then [] else [c]
      | r => c :: r
      end
  end.

(** [mkdir(2)] *)
Definition mkdir (fs : gmap (list string) node) (path : string)
    : errno + gmap (list string) node :=
  if String.eqb path "" then inl ENOENT
  else
    match walk fs [] (drop_trailing_empty (PosixPath.components path)) with
    | inl e => inl e
    | inr l =>
        match node_at fs l with
        | Some _ => inl EEXIST
        | None => inr (<[l := Dir]> fs)
        end
    end.

(** Reading the whole of a file: [open(path, 'rb')] and [read()]. *)
Definition read_file (fs : gmap (list string) node) (path : string) : errno + string :=
  match entry fs path with
  | inl e => inl e
  | inr (_, Reg c) => inr c
  | inr (_, Dir) => inl EISDIR
  | inr (_, Sock) => inl ENXIO
  end.

(** Creating or truncating a file and writing it: [open(path, 'wb')],
    [write(content)]. *)
Definition write_file (fs : gmap (list string) node) (path content : string)
    : errno + gmap (list string) node :=
  match resolve fs path with
  | inl e => inl e
  | inr l =>
      match node_at fs l with
      | Some Dir => inl EISDIR
      | Some Sock => inl ENXIO
      | Some (Reg _) | None => inr (<[l := Reg content]> fs)
      end
  end.

(** The file system is a tree of well-named entries: every entry lies in a
    directory, and no name is empty, [.], [..] or has a slash. *)
Definition valid_name (n : string) : bool :=
  negb (is_dot n) && negb (String.eqb n "..") && negb (PyStr.contains PosixPath.slash n).

Definition wf_entry (fs : gmap (list string) node) (l : loc) : bool :=
  match l with
  | [] => false
  | _ =>
      forallb valid_name l
      && match node_at fs (parent l) with
         | Some Dir => true
         | _ => false
         end
  end.

Definition wf (fs : gmap (list string) node) : Prop :=
  ∀ l, l ∈ dom fs → wf_entry fs l = true.

End Fs.

(** ** Exceptions, the world and the monad of the script *)

Inductive exn : Type :=
| OSError (e : Fs.errno) (filename : string)    (* raised by [os] functions *)
| IOError (e : Fs.errno) (filename : string)    (* raised by [open] *)
| ShutilError (src dst : string).               (* [shutil.Error]: same file *)

(** The calls the script makes to the library.  Every call is recorded with
    the exception it raised, if any. *)
Inductive call : Type :=
| CallListdir (path : string)
| CallStat (path : string)
| CallOpenRead (path : string)
| CallMakedirs (path : string)
| CallIsdir (path : string) (answer : bool)
| CallCopy (src dst : string)
| CallPrint (line : string).

Record event : Type := Event { ev_call : call; ev_raised : option exn }.

Record world : Type := World {
  files : gmap (list string) Fs.node;
  events : list event;
}.

(** What a computation comes to: a value, an uncaught exception, or no answer
    within the recursion depth it was given. *)
Inductive res (A : Type) : Type :=
| Ok (a : A)
| Raise (e : exn)
| NoFuel.
Arguments Ok {A} a.
Arguments Raise {A} e.
Arguments NoFuel {A}.

Definition M (A : Type) : Type := world → res A * world.

Definition ret {A} (a : A) : M A := fun w => (Ok a, w).

Definition raise {A} (e : exn) : M A := fun w => (Raise e, w).

Definition bind {A B} (m : M A) (k : A → M B) : M B :=
  fun w =>
    match m w with
    | (Ok a, w') => k a w'
    | (Raise e, w') => (Raise e, w')
    | (NoFuel, w') => (NoFuel, w')
    end.

(** [try: m except exn as ex: h ex] *)
Definition try_except {A} (m : M A) (h : exn → M A) : M A :=
  fun w =>
    match m w with
    | (Raise e, w') => h e w'
    | rw => rw
    end.

Global Instance M_ret : MRet M := @ret.
Global Instance M_bind : MBind M := fun A B k m => bind m k.

(** [for x in xs: st = body st x], with the state passed along *)
Fixpoint for_each {A S} (xs : list A) (st : S) (body : S → A → M S) : M S :=
  match xs with
  | [] => ret st
  | x :: xs' => st' ← body st x; for_each xs' st' body
  end.

Definition raised {A} (r : res A) : option exn :=
  match r with
  | Raise e => Some e
  | _ => None
  end.

(** A library call: it answers from the files, may change them, and is
    recorded. *)
Definition lib_call {A} (c : call)
    (f : gmap (list string) Fs.node → res A * gmap (list string) Fs.node) : M A :=
  fun w =>
    let '(r, fs') := f (files w) in
    (r, World fs' (events w ++ [Event c (raised r)])).

(** A call that only reads. *)
Definition lib_read {A} (c : call) (f : gmap (list string) Fs.node → res A) : M A :=
  lib_call c (fun fs => (f fs, fs)).

(** ** The library functions the script calls *)

Module Lib.

Import Fs.

Definition os_error {A} (path : string) (r : errno + A) : res A :=
  match r with
  | inl e => Raise (OSError e path)
  | inr a => Ok a
  end.

Definition io_error {A} (path : string) (r : errno + A) : res A :=
  match r with
  | inl e => Raise (IOError e path)
  | inr a => Ok a
  end.

(** [os.listdir(path)]: the names in a directory, in the order the file
    system lists them. *)
Definition listdir (fs : gmap (list string) node) (path : string) : errno + list string :=
  match entry fs path with
  | inl e => inl e
  | inr (l, Dir) => inr (children fs l)
  | inr (_, _) => inl ENOTDIR
  end.

(** [os.stat(path)[stat.ST_MODE]]: all the script looks at is the kind of the
    entry, so the mode is the node with its content forgotten. *)
Inductive mode : Type := S_IFREG | S_IFDIR | S_IFSOCK.

Definition mode_of (n : node) : mode :=
  match n with
  | Reg _ => S_IFREG
  | Dir => S_IFDIR
  | Sock => S_IFSOCK
  end.

Definition S_ISDIR (m : mode) : bool := match m with S_IFDIR => true | _ => false end.
Definition S_ISREG (m : mode) : bool := match m with S_IFREG => true | _ => false end.

Definition stat (fs : gmap (list string) node) (path : string) : errno + mode :=
  match entry fs path with
  | inl e => inl e
  | inr (_, n) => inr (mode_of n)
  end.

(** [os.path.exists] and [os.path.isdir]: [os.stat] with its error caught. *)
Definition path_exists (fs : gmap (list string) node) (path : string) : bool :=
  match stat fs path with
  | inl _ => false
  | inr _ => true
  end.

Definition path_isdir (fs : gmap (list string) node) (path : string) : bool :=
  match stat fs path with
  | inl _ => false
  | inr m => S_ISDIR m
  end.

(** [os.path.samefile], with its error caught as [shutil._samefile] does. *)
Definition samefile (fs : gmap (list string) node) (a b : string) : bool :=
  match entry fs a, entry fs b with
  | inr (la, _), inr (lb, _) => bool_decide (la = lb)
  | _, _ => false
  end.

Definition os_mkdir (fs : gmap (list string) node) (path : string)
    : res unit * gmap (list string) node :=
  match mkdir fs path with
  | inl e => (Raise (OSError e path), fs)
  | inr fs' => (Ok tt, fs')
  end.

(** [os.makedirs(name)] of Python 2.7:
<<
    head, tail = path.split(name)
    if not tail:
        head, tail = path.split(head)
    if head and tail and not path.exists(head):
        try:
            makedirs(head, mode)
        except OSError, e:
            if e.errno != errno.EEXIST:
                raise
        if tail == curdir:
            return
    mkdir(name, mode)
>>
    The recursion is on a proper prefix of [name]; [fuel] bounds its depth. *)
Fixpoint makedirs (fuel : nat) (fs : gmap (list string) node) (name : string)
    : res unit * gmap (list string) node :=
  match fuel with
  | O => (NoFuel, fs)
  | S fuel' =>
      let '(head, tail) := PosixPath.split name in
      let '(head, tail) :=
        if String.eqb tail "" then PosixPath.split head else (head, tail) in
      if negb (String.eqb head "") && negb (String.eqb tail "")
         && negb (path_exists fs head)
      then
        let after fs' :=
          if String.eqb tail "." then (Ok tt, fs') else os_mkdir fs' name in
        match makedirs fuel' fs head with
        | (Ok _, fs') => after fs'
        | (Raise (OSError EEXIST _), fs') => after fs'
        | (Raise e, fs') => (Raise e, fs')
        | (NoFuel, fs') => (NoFuel, fs')
        end
      else os_mkdir fs name
  end.

(** [shutil.copy(src, dst)] of Python 2.7: a destination that is a directory
    stands for the file of the source's name in it; copying a file onto
    itself is refused; the source is opened before the destination.  (The
    check for named pipes has nothing to find here, and modes are not part
    of the model.) *)
Definition copy (fs : gmap (list string) node) (src dst : string)
    : res unit * gmap (list string) node :=
  let dst :=
    if path_isdir fs dst then PosixPath.join dst (PosixPath.basename src) else dst in
  if samefile fs src dst then (Raise (ShutilError src dst), fs)
  else
    match read_file fs src with
    | inl e => (Raise (IOError e src), fs)
    | inr content =>
        match write_file fs dst content with
        | inl e => (Raise (IOError e dst), fs)
        | inr fs' => (Ok tt, fs')
        end
    end.

End Lib.

(** The calls as the script makes them. *)

Definition os_listdir (path : string) : M (list string) :=
  lib_read (CallListdir path) (fun fs => Lib.os_error path (Lib.listdir fs path)).

Definition os_stat (path : string) : M Lib.mode :=
  lib_read (CallStat path) (fun fs => Lib.os_error path (Lib.stat fs path)).

Definition open_read (path : string) : M string :=
  lib_read (CallOpenRead path) (fun fs => Lib.io_error path (Fs.read_file fs path)).

Definition os_makedirs (path : string) : M unit :=
  lib_call (CallMakedirs path) (fun fs => Lib.makedirs (S (String.length path)) fs path).

Definition os_path_isdir (path : string) : M bool :=
  fun w =>
    let answer := Lib.path_isdir (files w) path in
    (Ok answer, World (files w) (events w ++ [Event (CallIsdir path answer) None])).

Definition shutil_copy (src dst : string) : M unit :=
  lib_call (CallCopy src dst) (fun fs => Lib.copy fs src dst).

Definition print (line : string) : M unit :=
  lib_read (CallPrint line) (fun _ => Ok tt).

(** ** The script *)

(** The [state] dictionary of [main]. *)
Record state : Type := State {
  src_dir : string;
  aprinter_dir : string;
  pending_files : gset string;
  processed_files : gset string;
  state_include_regex : Re.regex;
}.

Definition set_pending (st : state) (s : gset string) : state :=
  State (src_dir st) (aprinter_dir st) s (processed_files st) (state_include_regex st).

Definition set_processed (st : state) (s : gset string) : state :=
  State (src_dir st) (aprinter_dir st) (pending_files st) s (state_include_regex st).

(** [state['pending_files'].add(path)] *)
Definition pending_add (path : string) (st : state) : state :=
  set_pending st ({[path]} ∪ pending_files st).

(** [state['processed_files'].add(path)] *)
Definition processed_add (path : string) (st : state) : state :=
  set_processed st ({[path]} ∪ processed_files st).

(** [collect_files]; [fuel] bounds the depth of the recursion into
    subdirectories. *)
Fixpoint collect_files (fuel : nat) (st : state) (dir_path : string) : M state :=
  match fuel with
  | O => fun w => (NoFuel, w)
  | S fuel' =>
      if String.eqb dir_path "aprinter" then mret st
      else
        let full_dir_path := PosixPath.join (src_dir st) dir_path in
        names ← os_listdir full_dir_path;
        for_each names st (fun st name =>
          let path := PosixPath.join dir_path name in
          let full_path := PosixPath.join (src_dir st) path in
          mode ← os_stat full_path;
          if Lib.S_ISDIR mode then collect_files fuel' st path
          else if Lib.S_ISREG mode then
            if PyStr.endswith path ".h" then mret (pending_add path st)
            else mret st
          else mret st)
  end.

(** The body of the [for match in ...finditer(file_content)] loop. *)
Definition note_include (st : state) (inc_path : string) : state :=
  if bool_decide (inc_path ∉ pending_files st)
     && bool_decide (inc_path ∉ processed_files st)
  then pending_add inc_path st
  else st.

(** [process_file] *)
Definition process_file (st : state) (file_path : string) : M state :=
  let base_dir :=
    if file_is_from_aprinter file_path then aprinter_dir st else src_dir st in
  let full_path := PosixPath.join base_dir file_path in
  file_content ← open_read full_path;
  mret (foldl note_include st
          (Re.finditer_group1 (state_include_regex st) file_content)).

(** One turn of the [while] loop of [process_pending_files], for the element
    [file_path] that [pending_files.pop()] removed and returned. *)
Definition popped (file_path : string) (st : state) : state :=
  set_pending st (pending_files st ∖ {[file_path]}).

Definition loop_body (file_path : string) (st : state) : M state :=
  process_file (processed_add file_path (popped file_path st)) file_path.

(** [process_pending_files]: [set.pop()] removes an arbitrary element, so a
    turn of the loop may take any element of the pending set. *)
Inductive process_pending_files : state → world → res state → world → Prop :=
| ppf_done st w :
    pending_files st = ∅ →
    process_pending_files st w (Ok st) w
| ppf_turn st w file_path st' w' r w'' :
    file_path ∈ pending_files st →
    loop_body file_path st w = (Ok st', w') →
    process_pending_files st' w' r w'' →
    process_pending_files st w r w''
| ppf_raise st w file_path e w' :
    file_path ∈ pending_files st →
    loop_body file_path st w = (Raise e, w') →
    process_pending_files st w (Raise e) w'.

(** The same loop run with a given choice of the popped element, for at most
    [fuel] turns. *)
Fixpoint process_pending_files_with (pop : gset string → option string)
    (fuel : nat) (st : state) : M state :=
  match pop (pending_files st) with
  | None => mret st
  | Some file_path =>
      match fuel with
      | O => fun w => (NoFuel, w)
      | S fuel' =>
          st' ← loop_body file_path st;
          process_pending_files_with pop fuel' st'
      end
  end.

(** [mkdir_p] *)
Definition mkdir_p (path : string) : M unit :=
  try_except (os_makedirs path) (fun ex =>
    match ex with
    | OSError e _ =>
        if negb (bool_decide (e = Fs.EEXIST)) then raise ex
        else
          isdir ← os_path_isdir path;
          if negb isdir then raise ex else mret tt
    | _ => raise ex
    end).

(** The body of the [for file_path in aprinter_files] loop. *)
Definition copy_one (st : state) (file_path : string) : M unit :=
  let src := PosixPath.join (aprinter_dir st) file_path in
  let dst := PosixPath.join (src_dir st) file_path in
  print ("copying " +:+ file_path);;
  mkdir_p (PosixPath.dirname dst);;
  shutil_copy src dst.

(** The loop of [copy_aprinter_files] over the list [aprinter_files]. *)
Definition copy_files (st : state) (aprinter_files : list string) : M unit :=
  for_each aprinter_files tt (fun _ file_path => copy_one st file_path).

(** [copy_aprinter_files]: [filter] walks the processed set in the order in
    which a Python set is iterated, which is some order of its elements. *)
Definition copy_aprinter_files (st : state) (w : world) (r : res unit) (w' : world) : Prop :=
  ∃ order : list string,
    order ≡ₚ elements (processed_files st) ∧
    copy_files st (List.filter file_is_from_aprinter order) w = (r, w').

(** The state [main] starts from. *)
Definition initial_state (aipstack_dir aprinter_dir_arg : string) : state :=
  {| src_dir := PosixPath.join aipstack_dir "src";
     aprinter_dir := aprinter_dir_arg;
     pending_files := ∅;
     processed_files := ∅;
     state_include_regex := include_regex |}.

(** [main], for the directory [aipstack_dir] the script finds itself in and
    the [--aprinter-dir] argument. *)
Definition main (fuel : nat) (aipstack_dir aprinter_dir_arg : string)
    (w : world) (r : res unit) (w' : world) : Prop :=
  match collect_files fuel (initial_state aipstack_dir aprinter_dir_arg) "" w with
  | (Ok st1, w1) =>
      ∃ r2 w2,
        process_pending_files st1 w1 r2 w2 ∧
        match r2 with
        | Ok st2 => copy_aprinter_files st2 w2 r w'
        | Raise e => r = Raise e ∧ w' = w2
        | NoFuel => r = NoFuel ∧ w' = w2
        end
  | (Raise e, w1) => r = Raise e ∧ w' = w1
  | (NoFuel, w1) => r = NoFuel ∧ w' = w1
  end.

(** A run of the whole script with the choices fixed: the pending set gives
    its least element, the processed set is iterated in increasing order. *)
Definition pop_first (s : gset string) : option string := head (elements s).

Definition main_first (fuel : nat) (aipstack_dir aprinter_dir_arg : string) : M unit :=
  st1 ← collect_files fuel (initial_state aipstack_dir aprinter_dir_arg) "";
  st2 ← process_pending_files_with pop_first fuel st1;
  copy_files st2 (List.filter file_is_from_aprinter (elements (processed_files st2))).

(** ** The notions of the specification the properties are stated with *)

(** The origin of a file path identifier. *)
Inductive origin : Type := ProjectOrigin | LibraryOrigin.

Definition origin_of (file_path : string) : origin :=
  if file_is_from_aprinter file_path then LibraryOrigin else ProjectOrigin.

(** The first segment of a path. *)
Definition first_segment (p : string) : string :=
  hd EmptyString (PosixPath.components p).

(** The lines of a file's content. *)
Definition lines (content : string) : list string := PyStr.split Re.newline content.

Definition spaces (n : nat) : string := PyStr.replicate n " "%char.

(** A line is an include directive for the path [p] as the pattern reads it:
    spaces, [#], spaces, [include], spaces, [<], the path, which is
    [aprinter/] and at least one more character, [>], spaces. *)
Definition directive (line p : string) : Prop :=
  ∃ n1 n2 n3 n4 rest,
    line = spaces n1 +:+ "#" +:+ spaces n2 +:+ "include" +:+ spaces n3 +:+
           "<" +:+ p +:+ ">" +:+ spaces n4
    ∧ p = "aprinter/" +:+ rest
    ∧ rest ≠ "".

(** Whether the pattern finds an include directive in a text. *)
Definition recognized (text : string) : bool :=
  match Re.finditer_group1 include_regex text with
  | [] => false
  | _ :: _ => true
  end.

(** The white space of the specification's wording of the pattern: blanks and
    tabs, carriage returns, vertical tabs and form feeds (a line has no
    newline in it). *)
Definition is_whitespace (c : ascii) : bool :=
  Ascii.eqb c " " || Ascii.eqb c "009" || Ascii.eqb c "011"
  || Ascii.eqb c "012" || Ascii.eqb c "013".

Fixpoint all_whitespace (s : string) : bool :=
  match s with
  | EmptyString => true
  | String c s' => is_whitespace c && all_whitespace s'
  end.

(** The form of a directive in the specification's words: optional white
    space, [#], optional white space, [include], white space, [<], a path
    that begins with [aprinter/], [>], optional white space. *)
Definition directive_as_worded (line : string) : Prop :=
  ∃ ws1 ws2 ws3 ws4 rest,
    line = ws1 +:+ "#" +:+ ws2 +:+ "include" +:+ ws3 +:+
           "<" +:+ "aprinter/" +:+ rest +:+ ">" +:+ ws4
    ∧ all_whitespace ws1 = true ∧ all_whitespace ws2 = true
    ∧ all_whitespace ws3 = true ∧ ws3 ≠ ""
    ∧ all_whitespace ws4 = true.

Fixpoint bol_after (b : bool) (w : string) : bool :=
  match w with
  | EmptyString => b
  | String c w' => bol_after (Re.is_newline c) w'
  end.

Definition no_newline (s : string) : Prop := PyStr.contains Re.newline s = false.

Definition directive_line (n1 n2 n3 n4 : nat) (p : string) : string :=
  spaces n1 +:+ "#" +:+ spaces n2 +:+ "include" +:+ spaces n3 +:+
  "<" +:+ p +:+ ">" +:+ spaces n4.

Definition directive_head (n1 n2 n3 : nat) : string :=
  spaces n1 +:+ "#" +:+ spaces n2 +:+ "include" +:+ spaces n3 +:+ "<".

(** The path a line includes, if the line is an include directive. *)
Definition include_of_line (line : string) : option string :=
  match Re.match_here include_regex true line with
  | Some m => Some (Re.group1 line m)
  | None => None
  end.

(** The pattern from the closing of the group on. *)
Definition r_close : Re.regex :=
  Re.GroupClose :: Re.lit ">" ++ [Re.Star (Re.Chr " "); Re.Eol].

(** [.+] and the rest of the pattern. *)
Definition r_rest : Re.regex := Re.Plus Re.Dot :: r_close.

(** What a match attempt finds on a directive line. *)
Definition directive_match (n1 n2 n3 n4 : nat) (p : string) : Re.found :=
  {| Re.m_end := String.length (directive_line n1 n2 n3 n4 p);
     Re.g_start := String.length (directive_head n1 n2 n3);
     Re.g_end := String.length (directive_head n1 n2 n3) + String.length p |}.


(** The path [process_file] opens for an identifier. *)
Definition full_path (src apr file_path : string) : string :=
  PosixPath.join (if file_is_from_aprinter file_path then apr else src) file_path.

(** The file graph: the content an identifier stands for, and the include
    relation between identifiers. *)
Definition content_of (fs : gmap (list string) Fs.node) (src apr x : string)
    : option string :=
  match Fs.read_file fs (full_path src apr x) with
  | inr c => Some c
  | inl _ => None
  end.

Definition includes (fs : gmap (list string) Fs.node) (src apr : string)
    (x y : string) : Prop :=
  ∃ c, content_of fs src apr x = Some c ∧ y ∈ Re.finditer_group1 include_regex c.

Definition reachable (fs : gmap (list string) Fs.node) (src apr : string)
    (seeds : gset string) (y : string) : Prop :=
  ∃ x, x ∈ seeds ∧ rtc (includes fs src apr) x y.

(** Every identifier the resolver can come across: the seeds and the paths
    of the directives of the files of the file system. *)
Definition node_includes (n : Fs.node) : gset string :=
  match n with
  | Fs.Reg c => list_to_set (Re.finditer_group1 include_regex c)
  | _ => ∅
  end.

Definition universe (fs : gmap (list string) Fs.node) (seeds : gset string)
    : gset string :=
  seeds ∪ ⋃ (node_includes <$> (map_to_list fs).*2).

(** The state the loop starts in after seeding. *)
Definition seeded (src apr : string) (seeds : gset string) : state :=
  State src apr seeds ∅ include_regex.

(** A sequence of turns of the loop, with the identifiers popped. *)
Inductive turns : state → world → list string → state → world → Prop :=
| turns_nil st w : turns st w [] st w
| turns_cons st w x st1 w1 tr st' w' :
    x ∈ pending_files st →
    loop_body x st w = (Ok st1, w1) →
    turns st1 w1 tr st' w' →
    turns st w (x :: tr) st' w'.

(** One turn, as a relation between configurations. *)
Definition turn (c c' : state * world) : Prop :=
  ∃ x, x ∈ pending_files c.1 ∧ loop_body x c.1 c.2 = (Ok c'.1, c'.2).

(** The states a turn goes through: after the pop, after the insertion into
    the processed set, and after each directive found in the file. *)
Definition turn_states (fs : gmap (list string) Fs.node) (x : string) (st : state)
    : list state :=
  let st1 := popped x st in
  let st2 := processed_add x st1 in
  st1 :: st2 ::
  match content_of fs (src_dir st) (aprinter_dir st) x with
  | Some c =>
      (fun k => foldl note_include st2
                  (take k (Re.finditer_group1 (state_include_regex st) c)))
      <$> seq 1 (length (Re.finditer_group1 (state_include_regex st) c))
  | None => []
  end.

Definition disjoint_sets (st : state) : Prop :=
  pending_files st ∩ processed_files st = ∅.

(** The number of identifiers the loop has yet to process. *)
Definition measure (fs : gmap (list string) Fs.node) (seeds : gset string)
    (st : state) : nat :=
  size (universe fs seeds ∖ processed_files st).

(** The invariant of the loop. *)
Record inv (fs : gmap (list string) Fs.node) (src apr : string)
    (seeds : gset string) (st : state) : Prop := Inv {
  inv_src : src_dir st = src;
  inv_apr : aprinter_dir st = apr;
  inv_regex : state_include_regex st = include_regex;
  inv_disjoint : pending_files st ∩ processed_files st = ∅;
  inv_sound : ∀ y, y ∈ pending_files st ∪ processed_files st →
                   reachable fs src apr seeds y;
  inv_seeds : seeds ⊆ pending_files st ∪ processed_files st;
  inv_closed : ∀ x y, x ∈ processed_files st → includes fs src apr x y →
                      y ∈ pending_files st ∪ processed_files st;
}.


(** ** A small file system to run the script on

    A project [/p] whose one header includes a library header, and a library
    [/lib] whose two headers include each other. *)
Definition nl : string := String Re.newline EmptyString.

Definition sample_files : gmap (list string) Fs.node :=
  list_to_map [
    (["p"], Fs.Dir);
    (["p"; "src"], Fs.Dir);
    (["p"; "src"; "foo.h"], Fs.Reg ("#include <aprinter/bar.h>" +:+ nl));
    (["lib"], Fs.Dir);
    (["lib"; "aprinter"], Fs.Dir);
    (["lib"; "aprinter"; "bar.h"],
       Fs.Reg ("#include <aprinter/baz.h>" +:+ nl +:+ "#include <vector>" +:+ nl));
    (["lib"; "aprinter"; "baz.h"], Fs.Reg "#include <aprinter/bar.h>")
  ].

Definition sample_world : world := World sample_files [].

(** The state and the world after the first turn on the sample. *)
Definition sample_turn_state : state :=
  State "/p/src" "/lib" {["aprinter/bar.h"]} {["foo.h"]} include_regex.

Definition sample_turn_world : world :=
  World sample_files [Event (CallOpenRead "/p/src/foo.h") None].


(** ** The log of a run and the exceptions in it *)

(** A log in which every exception raised was dropped by [mkdir_p]: it is the
    [EEXIST] of [os.makedirs] for a path that [os.path.isdir] then found to
    be a directory. *)
Inductive clean : list event → Prop :=
| clean_nil : clean []
| clean_quiet c evs : clean evs → clean (Event c None :: evs)
| clean_dropped p q evs :
    clean evs →
    clean (Event (CallMakedirs p) (Some (OSError Fs.EEXIST q))
           :: Event (CallIsdir p true) None :: evs).

(** The log of a run with its outcome: the log is clean up to the exception
    the run ends with, which is the one the last failing call raised. *)
Inductive log_ok : list event → option exn → Prop :=
| log_clean evs : clean evs → log_ok evs None
| log_raised evs c e : clean evs → log_ok (evs ++ [Event c (Some e)]) (Some e)
| log_raised_not_dir evs p q :
    clean evs →
    log_ok (evs ++ [Event (CallMakedirs p) (Some (OSError Fs.EEXIST q));
                    Event (CallIsdir p false) None])
      (Some (OSError Fs.EEXIST q)).

(** A computation whose runs keep such a log. *)
Definition logs {A} (m : M A) : Prop :=
  ∀ w r w', m w = (r, w') →
    ∃ evs, events w' = events w ++ evs ∧ log_ok evs (raised r).

(** ** Paths of the project tree *)

(** The path [collect_files] builds for the entry reached through the names
    [names] from the source directory: [os.path.join] of the names, from the
    empty path. *)
Definition rel_path (names : list string) : string :=
  foldl PosixPath.join "" names.

(** The length of the longest location of a file system. *)
Definition fs_depth (fs : gmap (list string) Fs.node) : nat :=
  max_list (length <$> elements (dom fs)).

(** The well-formedness of a file system, as a check. *)
Definition wf_check (fs : gmap (list string) Fs.node) : bool :=
  forallb (Fs.wf_entry fs) (elements (dom fs)).

(** The seeds of a project tree whose source directory is at [lS]: the
    relative paths of the regular files below it whose name ends in [.h],
    those below the top directory [aprinter] left out. *)
Definition below_namespace (names : list string) : Prop :=
  ∃ rest, names = "aprinter" :: rest ∧ rest ≠ [].

Definition is_seed (fs : gmap (list string) Fs.node) (lS : list string)
    (y : string) : Prop :=
  ∃ names name c,
    y = rel_path names
    ∧ last names = Some name
    ∧ fs !! (lS ++ names) = Some (Fs.Reg c)
    ∧ PyStr.endswith name ".h" = true
    ∧ ¬ below_namespace names.

(** What the walk finds below the directory reached through [names]. *)
Definition seeds_below (fs : gmap (list string) Fs.node) (lS : list string)
    (names : list string) (y : string) : Prop :=
  ∃ more c,
    more ≠ []
    ∧ y = rel_path (names ++ more)
    ∧ fs !! (lS ++ names ++ more) = Some (Fs.Reg c)
    ∧ PyStr.endswith y ".h" = true
    ∧ (names = [] → ¬ below_namespace more).

(** A loop all of whose turns end normally and only add to the pending
    set. *)
Definition adds (fs : gmap (list string) Fs.node) (st : state) (w : world)
    (Q : string → Prop) (r : res state * world) : Prop :=
  ∃ st' w', r = (Ok st', w') ∧ files w' = fs
    ∧ src_dir st' = src_dir st ∧ aprinter_dir st' = aprinter_dir st
    ∧ processed_files st' = processed_files st
    ∧ state_include_regex st' = state_include_regex st
    ∧ ∀ y, y ∈ pending_files st' ↔ y ∈ pending_files st ∨ Q y.


(** ** The locations the Mirror writes at *)

(** The location a sequence of components leads to when every directory on
    the way exists: [.] and the empty component stay, [..] goes up. *)
Fixpoint lexical (cur : list string) (comps : list string) : list string :=
  match comps with
  | [] => cur
  | c :: cs =>
      if Fs.is_dot c then lexical cur cs
      else if String.eqb c ".." then lexical (Fs.parent cur) cs
      else lexical (cur ++ [c]) cs
  end.

Definition location_of (path : string) : list string :=
  lexical [] (PosixPath.components path).

(** The source and the destination of the copy of an identifier. *)
Definition src_path (st : state) (file_path : string) : string :=
  PosixPath.join (aprinter_dir st) file_path.

Definition dst_path (st : state) (file_path : string) : string :=
  PosixPath.join (src_dir st) file_path.

(** The file [shutil.copy] writes for a destination. *)
Definition written_path (fs : gmap (list string) Fs.node) (src dst : string) : string :=
  if Lib.path_isdir fs dst then PosixPath.join dst (PosixPath.basename src) else dst.

(** A file system with more directories, and the same files otherwise. *)
Definition grows (fs fs' : gmap (list string) Fs.node) : Prop :=
  ∀ l, fs' !! l = fs !! l ∨ (fs !! l = None ∧ fs' !! l = Some Fs.Dir).

(** An identifier without a [..] segment. *)
Definition no_dotdot (file_path : string) : Prop :=
  ".." ∉ PosixPath.components file_path.

(** The namespace directory of the project tree. *)
Definition namespace_dir (st : state) : list string :=
  location_of (src_dir st) ++ ["aprinter"].

(** The calls the Mirror makes for an identifier. *)
Definition mirror_call (st : state) (file_path : string) (c : call) : Prop :=
  c = CallPrint ("copying " +:+ file_path)
  ∨ c = CallMakedirs (PosixPath.dirname (dst_path st file_path))
  ∨ (∃ answer, c = CallIsdir (PosixPath.dirname (dst_path st file_path)) answer)
  ∨ c = CallCopy (src_path st file_path) (dst_path st file_path).

(** A computation all of whose calls satisfy [P]. *)
Definition calls {A} (P : call → Prop) (m : M A) : Prop :=
  ∀ w r w', m w = (r, w') →
    ∃ evs, events w' = events w ++ evs ∧ Forall (fun ev => P (ev_call ev)) evs.

(** Two file systems with the same files outside the directory [d]. *)
Definition same_outside (d : list string) (fs fs' : gmap (list string) Fs.node) : Prop :=
  ∀ l c, ¬ d `prefix_of` l → fs' !! l = Some (Fs.Reg c) ↔ fs !! l = Some (Fs.Reg c).

(** The state after the resolution on the sample. *)
Definition sample_resolved_state : state :=
  State "/p/src" "/lib" ∅ {["foo.h"; "aprinter/bar.h"; "aprinter/baz.h"]} include_regex.

(** A project whose header names a library file through [..]. *)
Definition dotdot_files : gmap (list string) Fs.node :=
  list_to_map [
    (["p"], Fs.Dir);
    (["p"; "src"], Fs.Dir);
    (["p"; "src"; "up.h"], Fs.Reg ("#include <aprinter/../up.h>" +:+ nl));
    (["lib"], Fs.Dir);
    (["lib"; "aprinter"], Fs.Dir);
    (["lib"; "up.h"], Fs.Reg "library")
  ].

Definition dotdot_world : world := World dotdot_files [].

(** ** Running the Mirror again *)

(** The file [shutil.copy] writes for an identifier. *)
Definition written (st : state) (fs : gmap (list string) Fs.node) (file_path : string)
    : string :=
  written_path fs (src_path st file_path) (dst_path st file_path).

(** [fs'] has every entry of [fs], of the same kind. *)
Definition ext (fs fs' : gmap (list string) Fs.node) : Prop :=
  ∀ l n, fs !! l = Some n → ∃ n', fs' !! l = Some n' ∧ Lib.mode_of n' = Lib.mode_of n.

(** The copy of an identifier is in place: the directory of the destination
    is there, and the source and the file written for it are two regular
    files with the same content. *)
Definition settled (st : state) (fs : gmap (list string) Fs.node)
    (file_path content : string) : Prop :=
  Lib.path_isdir fs (PosixPath.dirname (dst_path st file_path)) = true
  ∧ Fs.entry fs (src_path st file_path)
    = inr (location_of (src_path st file_path), Fs.Reg content)
  ∧ Fs.entry fs (written st fs file_path)
    = inr (location_of (written st fs file_path), Fs.Reg content)
  ∧ location_of (src_path st file_path) ≠ location_of (written st fs file_path).

(** The calls of [copy_one] for an identifier whose copy is in place:
    [os.makedirs] raises [EEXIST], which [mkdir_p] drops. *)
Definition rerun_log (st : state) (file_path : string) : list event :=
  let d := PosixPath.dirname (dst_path st file_path) in
  [Event (CallPrint ("copying " +:+ file_path)) None;
   Event (CallMakedirs d) (Some (OSError Fs.EEXIST d));
   Event (CallIsdir d true) None;
   Event (CallCopy (src_path st file_path) (dst_path st file_path)) None].

(** The source and destination arguments of the [shutil.copy] calls of a log. *)
Definition copies (evs : list event) : list (string * string) :=
  omap (fun ev => match ev_call ev with
                  | CallCopy s d => Some (s, d)
                  | _ => None
                  end) evs.

Definition targets (st : state) (file_path : string) : string * string :=
  (src_path st file_path, dst_path st file_path).

(** The identifiers the Mirror copies. *)
Definition mirrored (st : state) (file_path : string) : Prop :=
  file_path ∈ processed_files st ∧ file_is_from_aprinter file_path = true.

(** A project whose header names one destination through two identifiers. *)
Definition alias_files : gmap (list string) Fs.node :=
  list_to_map [
    (["q"], Fs.Dir);
    (["q"; "a"], Fs.Dir);
    (["q"; "a"; "aprinter"], Fs.Dir);
    (["q"; "a"; "y.h"], Fs.Reg "one");
    (["q"; "src"], Fs.Dir);
    (["q"; "src"; "y.h"], Fs.Reg "two");
    (["r"], Fs.Dir);
    (["r"; "src"], Fs.Dir);
    (["r"; "src"; "m.h"],
       Fs.Reg ("#include <aprinter/../y.h>" +:+ nl
               +:+ "#include <aprinter/../../src/y.h>" +:+ nl))
  ].

Definition alias_world : world := World alias_files [].

Definition alias_state : state :=
  State "/r/src" "/q/a" ∅
    {["m.h"; "aprinter/../y.h"; "aprinter/../../src/y.h"]} include_regex.

(** ** What the seeding leaves as it is *)

(** The outcome [rw] of a computation that started in the state [st] and the
    world [w], wrote no file, and at most added paths ending in [.h] to the
    pending set. *)
Definition seeding_step (st : state) (w : world) (rw : res state * world) : Prop :=
  files rw.2 = files w
  ∧ match rw.1 with
    | Ok st' =>
        src_dir st' = src_dir st ∧ aprinter_dir st' = aprinter_dir st
        ∧ state_include_regex st' = state_include_regex st
        ∧ processed_files st' = processed_files st
        ∧ pending_files st ⊆ pending_files st'
        ∧ ∀ y, y ∈ pending_files st' →
               y ∈ pending_files st ∨ PyStr.endswith y ".h" = true
    | _ => True
    end.

(** ** The directories the Mirror makes *)

(** The file system with the directories of the names [new] made one below
    the other, from the directory at [base] down. *)
Fixpoint add_dirs (fs : gmap (list string) Fs.node) (base new : list string)
    : gmap (list string) Fs.node :=
  match new with
  | [] => fs
  | n :: more => add_dirs (<[base ++ [n] := Fs.Dir]> fs) (base ++ [n]) more
  end.

(** The way to the destination of the components [comps] below the
    directory at [lS] is clear: of the proper prefixes of [comps], each is
    either missing or reached through directories only, and the destination
    itself is missing or a regular file. *)
Definition way_clear (fs : gmap (list string) Fs.node) (lS comps : list string) : Prop :=
  (∀ pre, pre `prefix_of` comps → pre ≠ comps →
     (pre ≠ [] ∧ fs !! (lS ++ pre) = None)
     ∨ (∀ pre', pre' `prefix_of` pre → Fs.node_at fs (lS ++ pre') = Some Fs.Dir))
  ∧ (fs !! (lS ++ comps) = None ∨ ∃ c, fs !! (lS ++ comps) = Some (Fs.Reg c)).

(** * Properties *)

Set Warnings "-clear-no-such-hyp".
#[local] Arguments String.append !_ _ / : simpl nomatch.
#[local] Arguments Ascii.eqb : simpl never.
#[local] Arguments String.eqb : simpl never.

Module StrFacts.

Lemma app_nil_r s : s +:+ "" = s.
Proof. induction s as [|c s IH]; cbn; congruence. Qed.

Lemma app_cons c s t : String c s +:+ t = String c (s +:+ t).
Proof. reflexivity. Qed.

Lemma app_assoc a b c : (a +:+ b) +:+ c = a +:+ (b +:+ c).
Proof. induction a as [|x a IH]; cbn; congruence. Qed.

Lemma length_app a b : String.length (a +:+ b) = String.length a + String.length b.
Proof. induction a as [|x a IH]; cbn; congruence. Qed.

Lemma length_replicate n c : String.length (PyStr.replicate n c) = n.
Proof. induction n as [|n IH]; cbn; congruence. Qed.

Lemma drop_app_length a b : PyStr.drop (String.length a) (a +:+ b) = b.
Proof. induction a as [|x a IH]; cbn; auto. Qed.

Lemma take_app_length a b : PyStr.take (String.length a) (a +:+ b) = a.
Proof. induction a as [|x a IH]; cbn; [by destruct b | by rewrite IH]. Qed.

Lemma drop_add n m s : PyStr.drop (n + m) s = PyStr.drop m (PyStr.drop n s).
Proof.
  revert s. induction n as [|n IH]; intros [|c s]; cbn; auto.
  by destruct m.
Qed.

Lemma prefix_spec p s : String.prefix p s = true ↔ ∃ r, s = p +:+ r.
Proof.
  revert s. induction p as [|c p IH]; intros [|d s]; simpl.
  - split; [by exists "" | done].
  - split; [by exists (String d s) | done].
  - split; [done | intros [r Hr]; discriminate].
  - destruct (ascii_dec c d) as [->|Hne].
    + rewrite IH. split; intros [r Hr]; exists r; congruence.
    + split; [done | intros [r Hr]; congruence].
Qed.

Lemma contains_app c a b :
  PyStr.contains c (a +:+ b) = PyStr.contains c a || PyStr.contains c b.
Proof. induction a as [|x a IH]; cbn; [done | by rewrite IH, orb_assoc]. Qed.

Lemma contains_replicate c d n : c ≠ d → PyStr.contains c (PyStr.replicate n d) = false.
Proof.
  intros Hne. induction n as [|n IH]; simpl; [done|].
  rewrite IH, orb_false_r. by apply Ascii.eqb_neq.
Qed.

End StrFacts.

Module ReFacts.
Import StrFacts.

Abbreviation sp := (Re.Chr " "%char).

Lemma plus_Sn a b : a + S b = S (a + b).
Proof. lia. Qed.

(** A literal word matches itself and nothing else. *)
Lemma compile_lit w r b s pos gs ge :
  Re.compile (Re.lit w ++ r) b (w +:+ s) pos gs ge
  = Re.compile r (bol_after b w) s (pos + String.length w) gs ge.
Proof.
  revert b pos. induction w as [|c w IH]; intros b pos; cbn.
  - by rewrite Nat.add_0_r.
  - unfold Re.one. cbn. rewrite Ascii.eqb_refl.
    rewrite IH. f_equal. lia.
Qed.

Lemma compile_lit_inv w r b s pos gs ge m :
  Re.compile (Re.lit w ++ r) b s pos gs ge = Some m → ∃ s', s = w +:+ s'.
Proof.
  revert b s pos. induction w as [|c w IH]; intros b s pos; cbn.
  - intros _. by exists s.
  - unfold Re.one. destruct s as [|d s]; [done|]. cbn.
    destruct (Ascii.eqb_spec d c) as [->|]; [|done].
    intros [s' ->]%IH. by exists s'.
Qed.

(** Blanks in front of a character that is not a blank: the repetition takes
    them all, and no shorter run lets the rest match. *)
Lemma star_spaces_chr c k b n s pos gs ge :
  c ≠ " "%char →
  Re.star sp (Re.one (Re.Chr c) k) b (spaces n +:+ String c s) pos gs ge
  = k (Re.is_newline c) s (S (pos + n)) gs ge.
Proof.
  intros Hc. revert b pos. induction n as [|n IH]; intros b pos; cbn.
  - destruct (Ascii.eqb_spec c " ") as [->|_]; [done|].
    unfold Re.one. by rewrite Ascii.eqb_refl, Nat.add_0_r.
  - rewrite IH, plus_Sn.
    destruct (k _ _ _ _ _) as [r|]; [done|].
    unfold Re.one. cbn.
    by destruct (Ascii.eqb_spec " " c) as [<-|_].
Qed.

Lemma star_spaces_chr_inv c k b s pos gs ge m :
  Re.star sp (Re.one (Re.Chr c) k) b s pos gs ge = Some m →
  ∃ n s', s = spaces n +:+ String c s'.
Proof.
  revert b pos. induction s as [|d s IH]; intros b pos; cbn; [done|].
  assert (Hone : Re.one (Re.Chr c) k b (String d s) pos gs ge = Some m →
                 ∃ n s', String d s = spaces n +:+ String c s').
  { unfold Re.one. cbn. destruct (Ascii.eqb_spec d c) as [->|]; [|done].
    intros _. by exists 0, s. }
  destruct (Ascii.eqb_spec d " ") as [->|_]; [|done].
  destruct (Re.star _ _ _ s _ _ _) as [r|] eqn:Hrec; [|done].
  intros [= ->]. destruct (IH _ _ Hrec) as (n & s' & ->). by exists (S n), s'.
Qed.

Lemma star_spaces_lit c w r b n s pos gs ge :
  c ≠ " "%char →
  Re.compile (Re.Star sp :: Re.lit (String c w) ++ r) b
    (spaces n +:+ String c w +:+ s) pos gs ge
  = Re.compile r (bol_after (Re.is_newline c) w) s
      (pos + n + S (String.length w)) gs ge.
Proof.
  intros Hc. cbn [Re.compile Re.lit app].
  change (String c w +:+ s) with (String c (w +:+ s)).
  rewrite star_spaces_chr by done. rewrite compile_lit. f_equal. lia.
Qed.

Lemma star_spaces_lit_inv c w r b s pos gs ge m :
  c ≠ " "%char →
  Re.compile (Re.Star sp :: Re.lit (String c w) ++ r) b s pos gs ge = Some m →
  ∃ n s', s = spaces n +:+ String c w +:+ s'.
Proof.
  intros Hc Hm. pose proof Hm as Hm'. cbn [Re.compile Re.lit app] in Hm'.
  apply star_spaces_chr_inv in Hm' as (n & s1 & ->).
  cbn [Re.compile Re.lit app] in Hm. rewrite star_spaces_chr in Hm by done.
  apply compile_lit_inv in Hm as [s' ->]. by exists n, s'.
Qed.

(** The end of the pattern: blanks up to the end of the line. *)
Lemma star_spaces_eol b n tail pos gs ge :
  Re.at_eol tail = true →
  Re.compile [Re.Star sp; Re.Eol] b (spaces n +:+ tail) pos gs ge
  = Some (Re.Found (pos + n) gs ge).
Proof.
  intros Htail. revert b pos. induction n as [|n IH]; intros b pos; cbn.
  - rewrite Nat.add_0_r. destruct tail as [|c tail]; cbn; [done|].
    cbn in Htail. unfold Re.is_newline in Htail.
    apply Ascii.eqb_eq in Htail as ->. cbn.
    change (Ascii.eqb Re.newline " ") with false.
    by change (Re.is_newline Re.newline) with true.
  - cbn in IH. rewrite IH. f_equal. f_equal. lia.
Qed.

Lemma star_spaces_eol_inv b s pos gs ge m :
  Re.compile [Re.Star sp; Re.Eol] b s pos gs ge = Some m →
  ∃ n tail, s = spaces n +:+ tail ∧ Re.at_eol tail = true
            ∧ m = Re.Found (pos + n) gs ge.
Proof.
  revert b pos. induction s as [|d s IH]; intros b pos; cbn.
  - intros [= <-]. exists 0, "". by rewrite Nat.add_0_r.
  - assert (Hk : (if Re.is_newline d then Some (Re.Found pos gs ge) else None) = Some m →
                 ∃ n tail, String d s = spaces n +:+ tail ∧ Re.at_eol tail = true
                           ∧ m = Re.Found (pos + n) gs ge).
    { destruct (Re.is_newline d) eqn:Hd; [|done]. intros [= <-].
      exists 0, (String d s). by rewrite Nat.add_0_r. }
    destruct (Ascii.eqb_spec d " ") as [->|_]; [|done].
    cbn in IH. destruct (Re.star _ _ _ s _ _ _) as [r|] eqn:Hrec; [|done].
    intros [= ->]. destruct (IH _ _ Hrec) as (n & tail & -> & Htail & ->).
    exists (S n), tail. split_and!; [done..|]. f_equal. lia.
Qed.

Lemma close_form b n tail pos gs ge :
  Re.at_eol tail = true →
  Re.compile r_close b (">" +:+ spaces n +:+ tail) pos gs ge
  = Some (Re.Found (pos + 1 + n) gs pos).
Proof.
  intros Htail. unfold r_close. cbn [Re.compile].
  rewrite compile_lit. by rewrite star_spaces_eol.
Qed.

Lemma close_inv b s pos gs ge m :
  Re.compile r_close b s pos gs ge = Some m →
  ∃ n tail, s = ">" +:+ spaces n +:+ tail ∧ Re.at_eol tail = true
            ∧ m = Re.Found (pos + 1 + n) gs pos.
Proof.
  unfold r_close. cbn [Re.compile]. intros Hm.
  destruct (compile_lit_inv _ _ _ _ _ _ _ _ Hm) as [s' ->].
  rewrite compile_lit in Hm.
  apply star_spaces_eol_inv in Hm as (n & tail & -> & Htail & ->).
  by exists n, tail.
Qed.

Lemma close_starts_with b c s pos gs ge :
  c ≠ ">"%char → Re.compile r_close b (String c s) pos gs ge = None.
Proof.
  intros Hc. destruct (Re.compile _ _ _ _ _ _) as [m|] eqn:Hm; [|done].
  apply close_inv in Hm as (n & tail & [= -> _] & _). done.
Qed.

Lemma close_empty b pos gs ge : Re.compile r_close b "" pos gs ge = None.
Proof.
  destruct (Re.compile _ _ _ _ _ _) as [m|] eqn:Hm; [|done].
  apply close_inv in Hm as (n & tail & [=] & _).
Qed.

Lemma include_regex_eq :
  include_regex
  = Re.Bol :: Re.Star sp :: Re.lit "#" ++ Re.Star sp :: Re.lit "include" ++
    Re.Star sp :: Re.lit "<" ++ Re.GroupOpen :: Re.lit "aprinter/" ++ r_rest.
Proof. reflexivity. Qed.

#[local] Opaque r_close.

(** After the last [>] of a line the repetition of [.] finds nothing to stop
    at. *)
Lemma star_dot_none b n tail pos gs ge :
  Re.at_eol tail = true →
  Re.star Re.Dot (Re.compile r_close) b (spaces n +:+ tail) pos gs ge = None.
Proof.
  intros Htail. revert b pos. induction n as [|n IH]; intros b pos; cbn.
  - destruct tail as [|c tail]; cbn; [apply close_empty|].
    cbn in Htail. rewrite Htail. cbn. apply close_starts_with.
    unfold Re.is_newline in Htail. by apply Ascii.eqb_eq in Htail as ->.
  - change (Re.is_newline " ") with false. cbn.
    rewrite IH. by apply close_starts_with.
Qed.

Lemma star_dot_form b u n tail pos gs ge :
  no_newline u → Re.at_eol tail = true →
  Re.star Re.Dot (Re.compile r_close) b (u +:+ ">" +:+ spaces n +:+ tail) pos gs ge
  = Some (Re.Found (pos + String.length u + 1 + n) gs (pos + String.length u)).
Proof.
  intros Hu Htail. revert b pos.
  induction u as [|c u IH]; intros b pos.
  - cbn [String.append String.length]. rewrite !Nat.add_0_r.
    change (">" +:+ spaces n +:+ tail) with (String ">" (spaces n +:+ tail)).
    cbn [Re.star Re.atom_matches].
    change (Re.is_newline ">") with false. cbn [negb].
    rewrite star_dot_none by done.
    by apply (close_form b n tail pos gs ge).
  - unfold no_newline in Hu. cbn in Hu. apply orb_false_iff in Hu as [Hc Hu].
    rewrite app_cons. cbn [String.length Re.star Re.atom_matches].
    unfold Re.is_newline at 1. rewrite Ascii.eqb_sym, Hc. cbn [negb].
    rewrite (IH Hu). do 2 f_equal; lia.
Qed.

Lemma star_dot_inv b s pos gs ge m :
  Re.star Re.Dot (Re.compile r_close) b s pos gs ge = Some m →
  ∃ u n tail, s = u +:+ ">" +:+ spaces n +:+ tail ∧ no_newline u
              ∧ Re.at_eol tail = true.
Proof.
  revert b pos. induction s as [|c s IH]; intros b pos.
  - cbn. by rewrite close_empty.
  - cbn [Re.star Re.atom_matches].
    assert (Hk : Re.compile r_close b (String c s) pos gs ge = Some m →
                 ∃ u n tail, String c s = u +:+ ">" +:+ spaces n +:+ tail
                             ∧ no_newline u ∧ Re.at_eol tail = true).
    { intros (n & tail & -> & Htail & _)%close_inv. by exists "", n, tail. }
    destruct (Re.is_newline c) eqn:Hc; cbn [negb]; [done|].
    destruct (Re.star _ _ _ s _ _ _) as [r|] eqn:Hrec; [|done].
    intros [= ->]. destruct (IH _ _ Hrec) as (u & n & tail & -> & Hu & Htail).
    exists (String c u), n, tail. split_and!; [done| |done].
    unfold no_newline. cbn. unfold Re.is_newline in Hc.
    by rewrite Ascii.eqb_sym, Hc, Hu.
Qed.

(** [.+] and the rest of the pattern. *)

Lemma rest_form b rest n tail pos gs ge :
  rest ≠ "" → no_newline rest → Re.at_eol tail = true →
  Re.compile r_rest b (rest +:+ ">" +:+ spaces n +:+ tail) pos gs ge
  = Some (Re.Found (pos + String.length rest + 1 + n) gs (pos + String.length rest)).
Proof.
  intros Hne Hrest Htail. destruct rest as [|c u]; [done|].
  unfold no_newline in Hrest. cbn in Hrest.
  apply orb_false_iff in Hrest as [Hc Hu].
  unfold r_rest. cbn [Re.compile]. unfold Re.one.
  rewrite app_cons. cbn [String.length Re.atom_matches].
  unfold Re.is_newline at 1. rewrite Ascii.eqb_sym, Hc. cbn [negb].
  rewrite star_dot_form by done. do 2 f_equal; lia.
Qed.

Lemma rest_inv b s pos gs ge m :
  Re.compile r_rest b s pos gs ge = Some m →
  ∃ rest n tail, s = rest +:+ ">" +:+ spaces n +:+ tail ∧ rest ≠ ""
                 ∧ no_newline rest ∧ Re.at_eol tail = true.
Proof.
  unfold r_rest. cbn [Re.compile]. unfold Re.one.
  destruct s as [|c s]; [done|]. cbn [Re.atom_matches].
  destruct (Re.is_newline c) eqn:Hc; cbn [negb]; [done|].
  intros (u & n & tail & -> & Hu & Htail)%star_dot_inv.
  exists (String c u), n, tail. split_and!; [done..| |done].
  unfold no_newline. cbn. unfold Re.is_newline in Hc.
  by rewrite Ascii.eqb_sym, Hc, Hu.
Qed.

#[local] Opaque r_rest.

Lemma compile_bol r b s pos gs ge :
  Re.compile (Re.Bol :: r) b s pos gs ge
  = if b then Re.compile r b s pos gs ge else None.
Proof. reflexivity. Qed.

Lemma compile_group_open r b s pos gs ge :
  Re.compile (Re.GroupOpen :: r) b s pos gs ge = Re.compile r b s pos pos ge.
Proof. reflexivity. Qed.

Lemma length_spaces n : String.length (spaces n) = n.
Proof. apply length_replicate. Qed.

Lemma length_directive_head n1 n2 n3 :
  String.length (directive_head n1 n2 n3) = n1 + 1 + n2 + 7 + n3 + 1.
Proof.
  unfold directive_head. rewrite !length_app, !length_spaces. cbn. lia.
Qed.

Lemma directive_line_head n1 n2 n3 n4 p :
  directive_line n1 n2 n3 n4 p = directive_head n1 n2 n3 +:+ p +:+ ">" +:+ spaces n4.
Proof. unfold directive_line, directive_head. by rewrite !app_assoc. Qed.

Lemma match_form n1 n2 n3 n4 rest tail :
  rest ≠ "" → no_newline rest → Re.at_eol tail = true →
  Re.match_here include_regex true
    (directive_line n1 n2 n3 n4 ("aprinter/" +:+ rest) +:+ tail)
  = Some (directive_match n1 n2 n3 n4 ("aprinter/" +:+ rest)).
Proof.
  intros Hne Hrest Htail. unfold Re.match_here, directive_match.
  rewrite directive_line_head, length_directive_head.
  unfold directive_head. rewrite !app_assoc, !length_app, !length_spaces.
  rewrite include_regex_eq, compile_bol.
  rewrite !star_spaces_lit by done.
  rewrite compile_group_open, compile_lit.
  rewrite rest_form by done.
  cbn [String.length]. f_equal. f_equal; lia.
Qed.

Lemma match_inv b s m :
  Re.match_here include_regex b s = Some m →
  b = true ∧
  ∃ n1 n2 n3 n4 rest tail,
    s = directive_line n1 n2 n3 n4 ("aprinter/" +:+ rest) +:+ tail
    ∧ rest ≠ "" ∧ no_newline rest ∧ Re.at_eol tail = true.
Proof.
  unfold Re.match_here. rewrite include_regex_eq, compile_bol.
  destruct b; [|done]. intros Hm. split; [done|].
  destruct (star_spaces_lit_inv "#" "" _ _ _ _ _ _ _ ltac:(done) Hm) as (n1 & s1 & ->).
  rewrite star_spaces_lit in Hm by done.
  destruct (star_spaces_lit_inv "i" "nclude" _ _ _ _ _ _ _ ltac:(done) Hm) as (n2 & s2 & ->).
  rewrite star_spaces_lit in Hm by done.
  destruct (star_spaces_lit_inv "<" "" _ _ _ _ _ _ _ ltac:(done) Hm) as (n3 & s3 & ->).
  rewrite star_spaces_lit in Hm by done.
  rewrite compile_group_open in Hm.
  destruct (compile_lit_inv _ _ _ _ _ _ _ _ Hm) as [s4 ->].
  rewrite compile_lit in Hm.
  apply rest_inv in Hm as (rest & n4 & tail & -> & Hne & Hrest & Htail).
  exists n1, n2, n3, n4, rest, tail. split; [|done].
  unfold directive_line. by rewrite !app_assoc.
Qed.

Lemma group1_form n1 n2 n3 n4 p tail :
  Re.group1 (directive_line n1 n2 n3 n4 p +:+ tail) (directive_match n1 n2 n3 n4 p) = p.
Proof.
  unfold Re.group1, directive_match. cbn [Re.g_start Re.g_end].
  rewrite directive_line_head, !app_assoc, drop_app_length.
  replace (_ + _ - _) with (String.length p) by lia.
  apply take_app_length.
Qed.

Lemma group1_line n1 n2 n3 n4 p :
  Re.group1 (directive_line n1 n2 n3 n4 p) (directive_match n1 n2 n3 n4 p) = p.
Proof.
  rewrite <-(app_nil_r (directive_line _ _ _ _ _)) at 1. apply group1_form.
Qed.

(** A text starts with its first line, which ends at the first newline or
    at the end of the text. *)
Lemma no_newline_cons c s :
  no_newline (String c s) ↔ Re.is_newline c = false ∧ no_newline s.
Proof.
  unfold no_newline, Re.is_newline. cbn.
  rewrite orb_false_iff, (Ascii.eqb_sym c). done.
Qed.

Lemma first_line_unique a a' t t' :
  no_newline a → no_newline a' → Re.at_eol t = true → Re.at_eol t' = true →
  a +:+ t = a' +:+ t' → a = a' ∧ t = t'.
Proof.
  revert a'. induction a as [|c a IH]; intros [|c' a'] Ha Ha' Ht Ht'; cbn.
  - done.
  - intros ->. apply no_newline_cons in Ha' as [Hc' _].
    cbn in Ht. congruence.
  - intros <-. apply no_newline_cons in Ha as [Hc _].
    cbn in Ht'. congruence.
  - intros [= -> Heq]. apply no_newline_cons in Ha as [_ Ha].
    apply no_newline_cons in Ha' as [_ Ha'].
    destruct (IH a' Ha Ha' Ht Ht' Heq) as [-> ->]. done.
Qed.

Lemma no_newline_app a b : no_newline (a +:+ b) ↔ no_newline a ∧ no_newline b.
Proof. unfold no_newline. by rewrite contains_app, orb_false_iff. Qed.

Lemma no_newline_spaces n : no_newline (spaces n).
Proof. by apply contains_replicate. Qed.

Lemma no_newline_directive_line n1 n2 n3 n4 p :
  no_newline (directive_line n1 n2 n3 n4 p) ↔ no_newline p.
Proof.
  unfold directive_line. rewrite !no_newline_app.
  pose proof (no_newline_spaces n1). pose proof (no_newline_spaces n2).
  pose proof (no_newline_spaces n3). pose proof (no_newline_spaces n4).
  assert (no_newline "#") by done. assert (no_newline "include") by done.
  assert (no_newline "<") by done. assert (no_newline ">") by done.
  tauto.
Qed.

Lemma match_line_spec line tail m :
  no_newline line → Re.at_eol tail = true →
  Re.match_here include_regex true (line +:+ tail) = Some m ↔
  ∃ n1 n2 n3 n4 rest,
    line = directive_line n1 n2 n3 n4 ("aprinter/" +:+ rest)
    ∧ rest ≠ ""
    ∧ m = directive_match n1 n2 n3 n4 ("aprinter/" +:+ rest).
Proof.
  intros Hline Htail. split.
  - intros Hm. pose proof Hm as Hm'.
    apply match_inv in Hm' as (_ & n1 & n2 & n3 & n4 & rest & tail' & Heq & Hne & Hrest & Htail').
    assert (Hl : no_newline (directive_line n1 n2 n3 n4 ("aprinter/" +:+ rest))).
    { apply no_newline_directive_line, no_newline_app. done. }
    destruct (first_line_unique _ _ _ _ Hline Hl Htail Htail' Heq) as [-> ->].
    rewrite match_form in Hm by done. injection Hm as <-. by exists n1, n2, n3, n4, rest.
  - intros (n1 & n2 & n3 & n4 & rest & -> & Hne & ->).
    apply match_form; [done| |done].
    apply no_newline_directive_line, no_newline_app in Hline. tauto.
Qed.

Lemma match_line_tail line tail :
  no_newline line → Re.at_eol tail = true →
  Re.match_here include_regex true (line +:+ tail)
  = Re.match_here include_regex true line.
Proof.
  intros Hline Htail.
  destruct (Re.match_here include_regex true (line +:+ tail)) as [m|] eqn:Hm.
  - apply match_line_spec in Hm; [|done..]. symmetry.
    rewrite <-(app_nil_r line) at 1. by apply match_line_spec.
  - destruct (Re.match_here include_regex true line) as [m|] eqn:Hm'; [|done].
    rewrite <-(app_nil_r line) in Hm'. apply match_line_spec in Hm'; [|done..].
    apply (match_line_spec line tail) in Hm'; [|done..]. congruence.
Qed.

Lemma include_of_line_spec line p :
  no_newline line → include_of_line line = Some p ↔ directive line p.
Proof.
  intros Hline. unfold include_of_line, directive. split.
  - destruct (Re.match_here _ _ _) as [m|] eqn:Hm; [|done]. intros [= <-].
    rewrite <-(app_nil_r line) in Hm. apply match_line_spec in Hm; [|done..].
    destruct Hm as (n1 & n2 & n3 & n4 & rest & -> & Hne & ->).
    exists n1, n2, n3, n4, rest. by rewrite group1_line.
  - intros (n1 & n2 & n3 & n4 & rest & -> & -> & Hne).
    fold (directive_line n1 n2 n3 n4 ("aprinter/" +:+ rest)) in *.
    rewrite <-(app_nil_r (directive_line _ _ _ _ _)) at 1.
    rewrite match_form; [|done| |done].
    + by rewrite group1_line.
    + apply no_newline_directive_line, no_newline_app in Hline. tauto.
Qed.

(** Splitting a text into lines. *)
Lemma split_cons sep c s :
  PyStr.split sep (String c s)
  = if Ascii.eqb c sep then "" :: PyStr.split sep s
    else String c (hd "" (PyStr.split sep s)) :: tail (PyStr.split sep s).
Proof. cbn. by destruct (Ascii.eqb c sep), (PyStr.split sep s). Qed.

Lemma split_nonempty sep s : PyStr.split sep s ≠ [].
Proof. destruct s as [|c s]; [done|]. rewrite split_cons. by destruct (Ascii.eqb c sep). Qed.

Lemma lines_cons c s :
  lines (String c s)
  = if Re.is_newline c then "" :: lines s
    else String c (hd "" (lines s)) :: tail (lines s).
Proof. apply split_cons. Qed.

Lemma lines_first s :
  ∃ tail, s = hd "" (lines s) +:+ tail ∧ no_newline (hd "" (lines s))
          ∧ Re.at_eol tail = true.
Proof.
  induction s as [|c s (tail & Heq & Hline & Htail)].
  - by exists "".
  - rewrite lines_cons. destruct (Re.is_newline c) eqn:Hc; cbn [hd].
    + by exists (String c s).
    + exists tail. rewrite app_cons, <-Heq. split_and!; [done| |done].
      by apply no_newline_cons.
Qed.

Lemma lines_no_newline s : Forall no_newline (lines s).
Proof.
  induction s as [|c s IH]; [by repeat constructor|].
  rewrite lines_cons. destruct (Re.is_newline c) eqn:Hc.
  - by constructor.
  - pose proof (split_nonempty Re.newline s) as Hne. fold (lines s) in Hne.
    destruct (lines s) as [|h t]; [done|]. cbn. inversion_clear IH.
    constructor; [|done]. by apply no_newline_cons.
Qed.

Lemma match_not_bol s : Re.match_here include_regex false s = None.
Proof.
  destruct (Re.match_here _ _ _) as [m|] eqn:Hm; [|done].
  by apply match_inv in Hm as [? _].
Qed.

Lemma include_of_empty_line : include_of_line "" = None.
Proof. reflexivity. Qed.

(** The scan of a text: the matches are those of its lines, in order. *)
Lemma scan_spec s :
  Re.scan include_regex true 0 s = omap include_of_line (lines s)
  ∧ ∀ k, k ≤ String.length (hd "" (lines s)) →
         Re.scan include_regex false k s = omap include_of_line (tail (lines s)).
Proof.
  induction s as [|c s [IHa IHb]].
  - split; [done|]. intros [|k] _; cbn [Re.scan]; [|done].
    by rewrite match_not_bol.
  - destruct (lines_first (String c s)) as (tl & Heq & Hline & Htl).
    rewrite lines_cons in *. split.
    + cbn [Re.scan].
      destruct (Re.is_newline c) eqn:Hc; cbn [hd tail] in *.
      * assert (Hn : Re.match_here include_regex true (String c s) = None).
        { rewrite Heq, match_line_tail by done. reflexivity. }
        rewrite Hn. change (omap include_of_line ("" :: lines s))
          with (omap include_of_line (lines s)). done.
      * assert (Hlen : String.length (hd "" (lines s))
                       ≤ String.length (hd "" (lines s))) by done.
        revert Hlen. generalize (String.length (hd "" (lines s))) at 1.
        set (L := String c (hd "" (lines s))) in *. intros len Hlen.
        assert (Hm0 : Re.match_here include_regex true (String c s)
                      = Re.match_here include_regex true L).
        { rewrite Heq. by apply match_line_tail. }
        rewrite Hm0.
        change (omap include_of_line (?x :: ?l))
          with (match include_of_line x with
                | Some y => y :: omap include_of_line l
                | None => omap include_of_line l
                end).
        unfold include_of_line at 1. clear Hm0.
        destruct (Re.match_here include_regex true L) as [m|] eqn:Hm.
        -- rewrite <-(app_nil_r L) in Hm.
           apply match_line_spec in Hm as (n1 & n2 & n3 & n4 & rest & Hl & Hne & ->); [|done..].
           rewrite Heq, Hl, group1_form, group1_line. f_equal.
           cbn [Re.m_end directive_match]. rewrite <-Hl. cbn [L String.length Nat.pred].
           by apply IHb.
        -- apply IHb. lia.
    + intros k Hk. cbn [Re.scan]. rewrite match_not_bol.
      destruct (Re.is_newline c) eqn:Hc; cbn [hd tail String.length] in *.
      * destruct k as [|k]; [done | lia].
      * destruct k as [|k]; apply IHb; lia.
Qed.

Theorem finditer_lines content :
  Re.finditer_group1 include_regex content = omap include_of_line (lines content).
Proof. apply scan_spec. Qed.

Lemma elem_of_finditer content p :
  p ∈ Re.finditer_group1 include_regex content ↔
  ∃ line, line ∈ lines content ∧ directive line p.
Proof.
  rewrite finditer_lines, list_elem_of_omap. split.
  - intros (line & Hin & Hp). exists line. split; [done|].
    apply include_of_line_spec; [|done].
    pose proof (lines_no_newline content) as Hall.
    rewrite Forall_forall in Hall. by apply Hall.
  - intros (line & Hin & Hp). exists line. split; [done|].
    apply include_of_line_spec; [|done].
    pose proof (lines_no_newline content) as Hall.
    rewrite Forall_forall in Hall. by apply Hall.
Qed.

End ReFacts.

Module SplitFacts.
Import StrFacts.

Lemma split_no_sep sep a : PyStr.contains sep a = false → PyStr.split sep a = [a].
Proof.
  induction a as [|c a IH]; [done|]. cbn. intros [Hc Ha]%orb_false_iff.
  rewrite Ascii.eqb_sym, Hc, IH by done. done.
Qed.

Lemma split_app sep a r :
  PyStr.contains sep a = false →
  PyStr.split sep (a +:+ String sep r) = a :: PyStr.split sep r.
Proof.
  induction a as [|c a IH]; cbn.
  - intros _. by rewrite Ascii.eqb_refl.
  - intros [Hc Ha]%orb_false_iff. rewrite Ascii.eqb_sym, Hc, IH by done. done.
Qed.

Lemma split_hd sep s :
  PyStr.contains sep (hd "" (PyStr.split sep s)) = false
  ∧ (s = hd "" (PyStr.split sep s) ∧ tail (PyStr.split sep s) = []
     ∨ ∃ r, s = hd "" (PyStr.split sep s) +:+ String sep r
            ∧ tail (PyStr.split sep s) = PyStr.split sep r).
Proof.
  induction s as [|c s [Hh IH]]; [by split; [|left]|].
  rewrite ReFacts.split_cons. destruct (Ascii.eqb_spec c sep) as [->|Hc]; cbn [hd tail].
  - split; [done|]. right. by exists s.
  - split.
    + cbn. rewrite Hh, orb_false_r. apply Ascii.eqb_neq. congruence.
    + destruct IH as [[Heq Ht]|(r & Heq & Ht)].
      * left. by rewrite <-Heq.
      * right. exists r. by rewrite app_cons, <-Heq.
Qed.

End SplitFacts.

(** ** Origin *)

Lemma file_is_from_aprinter_spec p :
  file_is_from_aprinter p = true ↔ ∃ rest, p = "aprinter/" +:+ rest.
Proof. apply StrFacts.prefix_spec. Qed.

Lemma first_segment_aprinter p :
  first_segment p = "aprinter" ↔ p = "aprinter" ∨ ∃ rest, p = "aprinter/" +:+ rest.
Proof.
  unfold first_segment, PosixPath.components. split.
  - intros Hh. destruct (SplitFacts.split_hd PosixPath.slash p) as [_ [[Hp _]|(r & Hp & _)]];
      rewrite Hh in Hp; [by left | right; by exists r].
  - intros [->|[rest ->]]; [done|].
    change ("aprinter/" +:+ rest) with ("aprinter" +:+ String PosixPath.slash rest).
    by rewrite SplitFacts.split_app.
Qed.

(** C4, as worded, fails on the bare namespace name: its first segment is the
    namespace name, yet it is a project path. *)
Lemma origin_of_bare_namespace :
  first_segment "aprinter" = "aprinter" ∧ origin_of "aprinter" = ProjectOrigin.
Proof. split; reflexivity. Qed.

(** C4 (amended): a path is of library origin exactly when its first segment
    is the namespace name and it is not the bare namespace name, that is
    when it begins with [aprinter/]; every other path is of project origin;
    the origin depends on the path string alone. *)
Theorem origin_of_correct p :
  (origin_of p = LibraryOrigin ↔ first_segment p = "aprinter" ∧ p ≠ "aprinter")
  ∧ (origin_of p = LibraryOrigin ↔ ∃ rest, p = "aprinter/" +:+ rest)
  ∧ (origin_of p = ProjectOrigin ↔ origin_of p ≠ LibraryOrigin).
Proof.
  assert (Hlib : origin_of p = LibraryOrigin ↔ ∃ rest, p = "aprinter/" +:+ rest).
  { rewrite <-file_is_from_aprinter_spec. unfold origin_of.
    by destruct (file_is_from_aprinter p). }
  split_and!; [|done|].
  - rewrite Hlib, first_segment_aprinter. split.
    + intros [rest ->]. split; [right; by exists rest | done].
    + intros [[->|?] ?]; done.
  - destruct (origin_of p); split; done.
Qed.

(** ** The include pattern *)

Ltac not_whitespace_head :=
  match goal with
  | H : all_whitespace (String ?c _) = true |- _ =>
      cbn in H; apply andb_true_iff in H as [H _]; discriminate H
  end.

(** C5, as worded, fails in both directions: the pattern takes a directive
    with nothing between [include] and [<], and it does not take a directive
    indented with a tab. *)
Lemma include_pattern_not_as_worded :
  (recognized "#include<aprinter/a.h>" = true
   ∧ ¬ directive_as_worded "#include<aprinter/a.h>")
  ∧ (directive_as_worded (String "009" "#include <aprinter/a.h>")
     ∧ recognized (String "009" "#include <aprinter/a.h>") = false).
Proof.
  split; split.
  - reflexivity.
  - intros (ws1 & ws2 & ws3 & ws4 & rest & Heq & H1 & H2 & H3 & Hne & H4).
    destruct ws1 as [|c1 ws1]; [|injection Heq as <- _; not_whitespace_head].
    injection Heq as Heq.
    destruct ws2 as [|c2 ws2]; [|injection Heq as <- _; not_whitespace_head].
    injection Heq as Heq.
    destruct ws3 as [|c3 ws3]; [done|injection Heq as <- _; not_whitespace_head].
  - exists (String "009" ""), "", " ", "", "a.h". done.
  - reflexivity.
Qed.

(** C5 (amended): the paths the pattern finds in a text are those of its
    lines that read: blanks, [#], blanks, [include], blanks, [<], a path made
    of [aprinter/] and at least one more character, [>], blanks, where every
    run of blanks may be empty and a blank is the space character. *)
Theorem include_pattern_recognizes content p :
  p ∈ Re.finditer_group1 include_regex content ↔
  ∃ line, line ∈ lines content ∧ directive line p.
Proof. apply ReFacts.elem_of_finditer. Qed.

Module PathFacts.
Import StrFacts.

Lemma split_app_sep sep a b :
  PyStr.split sep (a +:+ String sep b) = PyStr.split sep a ++ PyStr.split sep b.
Proof.
  induction a as [|c a IH].
  - cbn. by rewrite Ascii.eqb_refl.
  - rewrite app_cons, !ReFacts.split_cons, IH.
    destruct (Ascii.eqb c sep); [done|].
    pose proof (ReFacts.split_nonempty sep a).
    by destruct (PyStr.split sep a).
Qed.

Lemma endswith_spec s p : PyStr.endswith s p = true ↔ ∃ pre, s = pre +:+ p.
Proof.
  induction s as [|c s IH]; cbn.
  - rewrite orb_false_r, String.eqb_eq. split.
    + intros <-. by exists "".
    + intros [[|d pre] Hp]; [done|discriminate].
  - rewrite orb_true_iff, String.eqb_eq, IH. split.
    + intros [<-|[pre ->]]; [by exists ""|by exists (String c pre)].
    + intros [[|d pre] Hp]; [by left|]. injection Hp as -> ->. right. by exists pre.
Qed.

Lemma startswith_spec s p : PyStr.startswith s p = true ↔ ∃ r, s = p +:+ r.
Proof. apply prefix_spec. Qed.

Lemma startswith_slash_cons c s :
  PyStr.startswith (String c s) "/" = Ascii.eqb c PosixPath.slash.
Proof.
  destruct (Ascii.eqb_spec c PosixPath.slash) as [->|Hne].
  - apply startswith_spec. by exists s.
  - destruct (PyStr.startswith _ _) eqn:Hs; [|done].
    apply startswith_spec in Hs as [r [= Hc _]]. done.
Qed.

Lemma contains_false_app c a b :
  PyStr.contains c (a +:+ b) = false ↔
  PyStr.contains c a = false ∧ PyStr.contains c b = false.
Proof. by rewrite contains_app, orb_false_iff. Qed.

(** A name: no slash in it, not empty, not a dot name. *)
Lemma valid_name_spec n :
  Fs.valid_name n = true ↔
  n ≠ "" ∧ n ≠ "." ∧ n ≠ ".." ∧ PyStr.contains PosixPath.slash n = false.
Proof.
  unfold Fs.valid_name, Fs.is_dot.
  rewrite !andb_true_iff, !negb_true_iff, orb_false_iff, !eqb_neq. tauto.
Qed.

Lemma valid_name_components n :
  Fs.valid_name n = true → PosixPath.components n = [n].
Proof. intros (_ & _ & _ & Hn)%valid_name_spec. by apply SplitFacts.split_no_sep. Qed.

Lemma valid_name_no_leading_slash n :
  Fs.valid_name n = true → PyStr.startswith n "/" = false.
Proof.
  intros (Hne & _ & _ & Hn)%valid_name_spec. destruct n as [|c n]; [done|].
  rewrite startswith_slash_cons. cbn in Hn. apply orb_false_iff in Hn as [Hc _].
  by rewrite Ascii.eqb_sym.
Qed.

Lemma contains_last c s d :
  PyStr.contains c (s +:+ String d "") = false → c ≠ d.
Proof.
  rewrite contains_false_app. cbn. rewrite orb_false_r.
  intros [_ Hd]. by apply Ascii.eqb_neq.
Qed.

Lemma endswith_slash_no_slash s :
  s ≠ "" → PyStr.contains PosixPath.slash s = false → PyStr.endswith s "/" = false.
Proof.
  intros Hne Hs. destruct (PyStr.endswith s "/") eqn:He; [|done].
  apply endswith_spec in He as [pre ->].
  apply contains_false_app in Hs as [_ Hs]. done.
Qed.

Lemma startswith_slash_app a b :
  a ≠ "" → PyStr.startswith (a +:+ b) "/" = PyStr.startswith a "/".
Proof. destruct a as [|c a]; [done|]. intros _. by rewrite app_cons, !startswith_slash_cons. Qed.

Lemma components_snoc_sep a :
  PosixPath.components (a +:+ "/") = PosixPath.components a ++ [""].
Proof. apply (split_app_sep PosixPath.slash a ""). Qed.

Lemma components_app_sep a b :
  PosixPath.components (a +:+ "/" +:+ b)
  = PosixPath.components a ++ PosixPath.components b.
Proof. apply (split_app_sep PosixPath.slash a b). Qed.

Lemma endswith_slash_components s :
  PyStr.endswith s "/" = true → last (PosixPath.components s) = Some "".
Proof.
  intros [pre ->]%endswith_spec. by rewrite components_snoc_sep, last_snoc.
Qed.

(** [os.path.join] on the paths the walk builds. *)
Lemma join_empty b : PyStr.startswith b "/" = false → PosixPath.join "" b = b.
Proof. unfold PosixPath.join. by intros ->. Qed.

Lemma join_rel a b :
  PyStr.startswith b "/" = false → a ≠ "" → PyStr.endswith a "/" = false →
  PosixPath.join a b = a +:+ "/" +:+ b.
Proof.
  unfold PosixPath.join. intros -> Ha ->. apply eqb_neq in Ha. by rewrite Ha.
Qed.

Lemma join_slash a b :
  PyStr.startswith b "/" = false → PyStr.endswith a "/" = true →
  PosixPath.join a b = a +:+ b.
Proof. unfold PosixPath.join. intros -> ->. by rewrite orb_true_r. Qed.

Lemma rel_path_snoc names n :
  rel_path (names ++ [n]) = PosixPath.join (rel_path names) n.
Proof. unfold rel_path. by rewrite foldl_app. Qed.

Lemma rel_path_spec names :
  Forall (fun n => Fs.valid_name n = true) names → names ≠ [] →
  rel_path names ≠ ""
  ∧ PyStr.endswith (rel_path names) "/" = false
  ∧ PyStr.startswith (rel_path names) "/" = false
  ∧ PosixPath.components (rel_path names) = names.
Proof.
  induction names as [|n names IH] using rev_ind; [done|].
  intros [Hnames Hn]%Forall_app _. rewrite Forall_singleton in Hn.
  pose proof Hn as (Hne & _ & _ & Hslash)%valid_name_spec.
  pose proof (valid_name_no_leading_slash _ Hn) as Hlead.
  rewrite rel_path_snoc. destruct names as [|m names].
  - cbn. rewrite join_empty by done. split_and!; [done| |done|].
    + by apply endswith_slash_no_slash.
    + by apply valid_name_components.
  - destruct IH as (Hne' & Hend & Hstart & Hcomps); [done..|].
    rewrite (join_rel _ n Hlead Hne' Hend). split_and!.
    + destruct (rel_path _); done.
    + destruct (PyStr.endswith (_ +:+ _) _) eqn:He; [|done].
      apply endswith_slash_components in He.
      rewrite components_app_sep, (valid_name_components n Hn), last_snoc in He.
      congruence.
    + by rewrite startswith_slash_app.
    + by rewrite components_app_sep, Hcomps, (valid_name_components n Hn).
Qed.

Lemma rel_path_nil : rel_path [] = "".
Proof. reflexivity. Qed.

End PathFacts.

Module FsFacts.
Import PathFacts.

Lemma wf_check_wf fs : wf_check fs = true → Fs.wf fs.
Proof.
  unfold wf_check, Fs.wf. rewrite forallb_forall. intros Hall l Hl.
  apply Hall, list_elem_of_In, elem_of_elements, Hl.
Qed.

Lemma node_at_cons fs n l : Fs.node_at fs (n :: l) = fs !! (n :: l).
Proof. reflexivity. Qed.

Lemma node_at_snoc fs l n : Fs.node_at fs (l ++ [n]) = fs !! (l ++ [n]).
Proof. by destruct l. Qed.

Lemma node_at_lookup fs l n : fs !! l = Some n → l ≠ [] → Fs.node_at fs l = Some n.
Proof. by destruct l. Qed.

Lemma parent_snoc l n : Fs.parent (l ++ [n]) = l.
Proof. apply removelast_last. Qed.

Lemma walk_app fs cur a b :
  Fs.walk fs cur (a ++ b)
  = match Fs.walk fs cur a with
    | inr l => Fs.walk fs l b
    | inl e => inl e
    end.
Proof.
  revert cur. induction a as [|c a IH]; intros cur; cbn; [done|].
  destruct (Fs.node_at fs cur) as [[]|]; try done.
  destruct (Fs.is_dot c); [apply IH|].
  destruct (String.eqb c ".."); apply IH.
Qed.

Lemma walk_empty_component fs cur :
  Fs.walk fs cur [""]
  = match Fs.node_at fs cur with
    | Some Fs.Dir => inr cur
    | Some _ => inl Fs.ENOTDIR
    | None => inl Fs.ENOENT
    end.
Proof. reflexivity. Qed.

Lemma walk_first_dir fs cur c cs l :
  Fs.walk fs cur (c :: cs) = inr l → Fs.node_at fs cur = Some Fs.Dir.
Proof. cbn. by destruct (Fs.node_at fs cur) as [[]|]. Qed.

(** The path of an entry below a directory that resolves. *)
Lemma resolve_join fs src p lS :
  Fs.resolve fs src = inr lS → PyStr.startswith p "/" = false →
  Fs.resolve fs (PosixPath.join src p) = Fs.walk fs lS (PosixPath.components p).
Proof.
  unfold Fs.resolve. destruct (String.eqb_spec src "") as [->|Hne]; [done|].
  intros Hsrc Hp.
  assert (Hc : PosixPath.components p ≠ []) by apply ReFacts.split_nonempty.
  destruct (PyStr.endswith src "/") eqn:Hend.
  - rewrite join_slash by done. pose proof Hend as [pre ->]%endswith_spec.
    rewrite components_snoc_sep, walk_app in Hsrc.
    destruct (String.eqb_spec ((pre +:+ "/") +:+ p) "") as [He|_].
    { by destruct pre. }
    rewrite StrFacts.app_assoc, components_app_sep, walk_app.
    destruct (Fs.walk fs [] (PosixPath.components pre)) as [e|l0]; [done|].
    rewrite walk_empty_component in Hsrc.
    destruct (Fs.node_at fs l0) as [[]|]; try done. by injection Hsrc as ->.
  - rewrite join_rel by done.
    destruct (String.eqb_spec (src +:+ "/" +:+ p) "") as [He|_].
    { by destruct src. }
    by rewrite components_app_sep, walk_app, Hsrc.
Qed.

(** In a well-formed file system the ancestors of an entry are
    directories, and names are names. *)
Lemma wf_parent fs l n :
  Fs.wf fs → is_Some (fs !! (l ++ [n])) →
  Fs.node_at fs l = Some Fs.Dir ∧ Fs.valid_name n = true.
Proof.
  intros Hwf Hl%elem_of_dom. specialize (Hwf _ Hl). unfold Fs.wf_entry in Hwf.
  destruct (l ++ [n]) as [|x k] eqn:Hk; [done|]. rewrite <-Hk in Hwf.
  apply andb_true_iff in Hwf as [Hvalid Hparent].
  rewrite parent_snoc in Hparent. split.
  - by destruct (Fs.node_at fs l) as [[]|].
  - rewrite forallb_app in Hvalid. apply andb_true_iff in Hvalid as [_ Hn].
    cbn in Hn. by rewrite andb_true_r in Hn.
Qed.

Lemma wf_ancestor fs l m :
  Fs.wf fs → is_Some (Fs.node_at fs (l ++ m)) → m ≠ [] →
  Fs.node_at fs l = Some Fs.Dir.
Proof.
  intros Hwf. induction m as [|n m IH] using rev_ind; [done|].
  intros Hsome _. rewrite app_assoc, node_at_snoc in Hsome.
  apply (wf_parent _ _ _ Hwf) in Hsome as [Hdir _].
  destruct m as [|x m]; [by rewrite app_nil_r in Hdir|].
  apply IH; [by rewrite Hdir|done].
Qed.

Lemma walk_names fs cur names :
  Fs.wf fs → Forall (fun n => Fs.valid_name n = true) names →
  is_Some (Fs.node_at fs (cur ++ names)) →
  Fs.walk fs cur names = inr (cur ++ names).
Proof.
  intros Hwf Hnames. revert cur.
  induction Hnames as [|n names Hn _ IH]; intros cur Hsome; cbn.
  - by rewrite app_nil_r.
  - rewrite (wf_ancestor fs cur (n :: names)) by done.
    apply valid_name_spec in Hn as (Hn1 & Hn2 & Hn3 & _).
    unfold Fs.is_dot. apply eqb_neq in Hn1, Hn2, Hn3. rewrite Hn1, Hn2, Hn3. cbn.
    rewrite (IH (cur ++ [n])); by rewrite <-app_assoc.
Qed.

(** The entry the walk of [collect_files] looks at for the names [names]
    below the source directory. *)
Lemma entry_rel_path fs src lS names node :
  Fs.wf fs → Fs.resolve fs src = inr lS →
  Forall (fun n => Fs.valid_name n = true) names →
  Fs.node_at fs (lS ++ names) = Some node →
  (names = [] → node = Fs.Dir) →
  Fs.entry fs (PosixPath.join src (rel_path names)) = inr (lS ++ names, node).
Proof.
  intros Hwf Hsrc Hnames Hnode Hroot. unfold Fs.entry.
  destruct names as [|n names].
  - rewrite app_nil_r in *. rewrite (Hroot eq_refl) in Hnode.
    rewrite (resolve_join _ _ _ _ Hsrc) by done.
    change (PosixPath.components (rel_path [])) with [""].
    rewrite walk_empty_component. by rewrite !Hnode, (Hroot eq_refl).
  - destruct (rel_path_spec (n :: names)) as (_ & _ & Hstart & Hcomps); [done..|].
    rewrite (resolve_join _ _ _ _ Hsrc), Hcomps by done.
    rewrite (walk_names fs lS (n :: names) Hwf Hnames); [|by rewrite Hnode].
    by rewrite Hnode.
Qed.

(** The names [os.listdir] lists. *)
Lemma strip_prefix_spec l k r : Fs.strip_prefix l k = Some r ↔ k = l ++ r.
Proof.
  revert k. induction l as [|a l IH]; intros k; cbn.
  - split; congruence.
  - destruct k as [|b k]; [done|].
    destruct (String.eqb_spec a b) as [->|Hne].
    + rewrite IH. split; congruence.
    + split; congruence.
Qed.

Lemma child_name_spec l k n : Fs.child_name l k = Some n ↔ k = l ++ [n].
Proof.
  unfold Fs.child_name. destruct (Fs.strip_prefix l k) as [r|] eqn:Hr.
  - apply strip_prefix_spec in Hr as ->. destruct r as [|x [|y r]].
    + rewrite app_nil_r. split; [done|]. intros H. apply (f_equal length) in H.
      rewrite length_app in H. cbn in H. lia.
    + split; [by intros [= ->]|]. by intros [= ->]%app_inv_head.
    + split; [done|]. intros H%app_inv_head. done.
  - split; [done|]. intros ->. by rewrite (proj2 (strip_prefix_spec l (l ++ [n]) [n])) in Hr.
Qed.

Lemma elem_of_children fs l n :
  n ∈ Fs.children fs l ↔ is_Some (fs !! (l ++ [n])).
Proof.
  unfold Fs.children. rewrite list_elem_of_omap. split.
  - intros (k & Hk & ->%child_name_spec). by apply elem_of_dom, elem_of_elements.
  - intros Hn. exists (l ++ [n]). split; [|by apply child_name_spec].
    by apply elem_of_elements, elem_of_dom.
Qed.

Lemma depth_bound fs l : is_Some (fs !! l) → length l ≤ fs_depth fs.
Proof.
  intros Hl%elem_of_dom%elem_of_elements. unfold fs_depth.
  apply max_list_elem_of_le, list_elem_of_fmap. by exists l.
Qed.

End FsFacts.

Module Resolver.

Lemma process_file_eq st x w :
  process_file st x w
  = (match Fs.read_file (files w) (full_path (src_dir st) (aprinter_dir st) x) with
     | inr c => Ok (foldl note_include st
                      (Re.finditer_group1 (state_include_regex st) c))
     | inl e => Raise (IOError e (full_path (src_dir st) (aprinter_dir st) x))
     end,
     World (files w)
       (events w ++
        [Event (CallOpenRead (full_path (src_dir st) (aprinter_dir st) x))
           (match Fs.read_file (files w) (full_path (src_dir st) (aprinter_dir st) x) with
            | inr _ => None
            | inl e => Some (IOError e (full_path (src_dir st) (aprinter_dir st) x))
            end)])).
Proof.
  unfold process_file, full_path, mbind, M_bind, bind, open_read, lib_read, lib_call.
  destruct (Fs.read_file _ _) as [e|c]; reflexivity.
Qed.

Lemma note_include_fields st y :
  src_dir (note_include st y) = src_dir st
  ∧ aprinter_dir (note_include st y) = aprinter_dir st
  ∧ processed_files (note_include st y) = processed_files st
  ∧ state_include_regex (note_include st y) = state_include_regex st
  ∧ pending_files (note_include st y)
    = pending_files st ∪ ({[y]} ∖ processed_files st).
Proof.
  unfold note_include.
  destruct (bool_decide (y ∉ pending_files st)) eqn:Hp;
    destruct (bool_decide (y ∉ processed_files st)) eqn:Hq; cbn;
    split_and!; try done.
  - apply bool_decide_eq_true in Hq. set_solver.
  - apply bool_decide_eq_false in Hq. set_solver.
  - apply bool_decide_eq_false in Hp. apply dec_stable in Hp. set_solver.
  - apply bool_decide_eq_false in Hp. apply dec_stable in Hp. set_solver.
Qed.

Lemma scan_fields st l :
  src_dir (foldl note_include st l) = src_dir st
  ∧ aprinter_dir (foldl note_include st l) = aprinter_dir st
  ∧ processed_files (foldl note_include st l) = processed_files st
  ∧ state_include_regex (foldl note_include st l) = state_include_regex st
  ∧ pending_files (foldl note_include st l)
    = pending_files st ∪ (list_to_set l ∖ processed_files st).
Proof.
  revert st. induction l as [|y l IH]; intros st; cbn.
  - split_and!; try done. set_solver.
  - destruct (IH (note_include st y)) as (-> & -> & -> & -> & ->).
    destruct (note_include_fields st y) as (-> & -> & -> & -> & ->).
    split_and!; try done. set_solver.
Qed.

Lemma loop_body_eq x st w :
  loop_body x st w
  = (match content_of (files w) (src_dir st) (aprinter_dir st) x with
     | Some c => Ok (foldl note_include (processed_add x (popped x st))
                       (Re.finditer_group1 (state_include_regex st) c))
     | None =>
         Raise (IOError
                  match Fs.read_file (files w)
                          (full_path (src_dir st) (aprinter_dir st) x) with
                  | inl e => e
                  | inr _ => Fs.ENOENT
                  end
                  (full_path (src_dir st) (aprinter_dir st) x))
     end,
     World (files w) (events (process_file (processed_add x (popped x st)) x w).2)).
Proof.
  unfold loop_body, content_of. rewrite process_file_eq. cbn.
  by destruct (Fs.read_file _ _).
Qed.

Lemma loop_body_ok x st w st' w' :
  loop_body x st w = (Ok st', w') →
  ∃ c, content_of (files w) (src_dir st) (aprinter_dir st) x = Some c
       ∧ st' = foldl note_include (processed_add x (popped x st))
                 (Re.finditer_group1 (state_include_regex st) c)
       ∧ files w' = files w.
Proof.
  rewrite loop_body_eq. destruct (content_of _ _ _ _) as [c|]; [|done].
  intros [= <- <-]. by exists c.
Qed.

Lemma loop_body_raise x st w e w' :
  loop_body x st w = (Raise e, w') →
  content_of (files w) (src_dir st) (aprinter_dir st) x = None
  ∧ files w' = files w.
Proof.
  rewrite loop_body_eq. destruct (content_of _ _ _ _) as [c|]; [done|].
  by intros [= <- <-].
Qed.

Lemma loop_body_answers x st w : (loop_body x st w).1 ≠ NoFuel.
Proof. rewrite loop_body_eq. by destruct (content_of _ _ _ _). Qed.

(** What a turn does to the two sets. *)
Lemma loop_body_sets x st w st' w' :
  loop_body x st w = (Ok st', w') →
  ∃ c, content_of (files w) (src_dir st) (aprinter_dir st) x = Some c
       ∧ src_dir st' = src_dir st ∧ aprinter_dir st' = aprinter_dir st
       ∧ state_include_regex st' = state_include_regex st
       ∧ processed_files st' = {[x]} ∪ processed_files st
       ∧ pending_files st'
         = (pending_files st ∖ {[x]})
           ∪ (list_to_set (Re.finditer_group1 (state_include_regex st) c)
              ∖ ({[x]} ∪ processed_files st))
       ∧ files w' = files w.
Proof.
  intros (c & Hc & -> & Hw)%loop_body_ok. exists c.
  destruct (scan_fields (processed_add x (popped x st))
              (Re.finditer_group1 (state_include_regex st) c))
    as (-> & -> & -> & -> & ->). done.
Qed.

(** The universe holds every path a file of the file system includes. *)
Lemma read_file_node fs path c :
  Fs.read_file fs path = inr c → ∃ l, fs !! l = Some (Fs.Reg c).
Proof.
  unfold Fs.read_file, Fs.entry. destruct (Fs.resolve fs path) as [e|l]; [done|].
  destruct (Fs.node_at fs l) as [n|] eqn:Hn; [|done].
  destruct n; [|done..]. intros [= ->]. exists l.
  destruct l; [done|]. done.
Qed.

Lemma includes_universe fs src apr seeds x y :
  includes fs src apr x y → y ∈ universe fs seeds.
Proof.
  intros (c & Hc & Hy). unfold content_of in Hc.
  destruct (Fs.read_file _ _) as [|c'] eqn:Hr; [done|]. injection Hc as ->.
  apply read_file_node in Hr as [l Hl].
  unfold universe. apply elem_of_union_r, elem_of_union_list.
  exists (node_includes (Fs.Reg c)). split; [|by apply elem_of_list_to_set].
  apply list_elem_of_fmap. exists (Fs.Reg c). split; [done|].
  apply list_elem_of_fmap. exists (l, Fs.Reg c). split; [done|].
  by apply elem_of_map_to_list.
Qed.

Lemma reachable_universe fs src apr seeds y :
  reachable fs src apr seeds y → y ∈ universe fs seeds.
Proof.
  intros (x & Hx & Hrtc). destruct (rtc_inv_r _ _ Hrtc) as [->|(z & _ & Hz)].
  - unfold universe. by apply elem_of_union_l.
  - by eapply includes_universe.
Qed.

Lemma reachable_seed fs src apr seeds x : x ∈ seeds → reachable fs src apr seeds x.
Proof. intros Hx. by exists x. Qed.

Lemma reachable_step fs src apr seeds x y :
  reachable fs src apr seeds x → includes fs src apr x y →
  reachable fs src apr seeds y.
Proof. intros (s & Hs & Hrtc) Hxy. exists s. split; [done|]. by eapply rtc_r. Qed.

Lemma inv_seeded fs src apr seeds : inv fs src apr seeds (seeded src apr seeds).
Proof.
  split; cbn; try done; try set_solver.
Qed.

Lemma inv_turn fs src apr seeds x st w st' w' :
  files w = fs →
  inv fs src apr seeds st → x ∈ pending_files st →
  loop_body x st w = (Ok st', w') →
  inv fs src apr seeds st' ∧ files w' = fs
  ∧ (x ∉ processed_files st)
  ∧ processed_files st' = {[x]} ∪ processed_files st.
Proof.
  intros Hfs [Hsrc Hapr Hre Hdis Hsound Hseeds Hclosed] Hx
    (c & Hc & Hsrc' & Hapr' & Hre' & Hproc & Hpend & Hw)%loop_body_sets.
  rewrite Hfs, Hsrc, Hapr in Hc. rewrite Hre in Hpend.
  assert (Hinc : ∀ y, y ∈ Re.finditer_group1 include_regex c ↔ includes fs src apr x y).
  { intros y. split; [intros Hy; by exists c|].
    intros (c' & Hc' & Hy). congruence. }
  split_and!; [split| congruence | set_solver | done]; try congruence.
  - rewrite Hproc, Hpend. set_solver.
  - intros y. rewrite Hproc, Hpend. intros Hy.
    apply elem_of_union in Hy as [[Hy|Hy]%elem_of_union|Hy].
    + apply Hsound. set_solver.
    + apply elem_of_difference in Hy as [Hy _]. apply elem_of_list_to_set in Hy.
      eapply reachable_step; [|by apply Hinc]. apply Hsound. set_solver.
    + apply Hsound. set_solver.
  - rewrite Hproc, Hpend. intros y Hy. specialize (Hseeds y Hy).
    destruct (decide (y = x)); set_solver.
  - intros z y. rewrite Hproc, Hpend. intros [->%elem_of_singleton|Hz]%elem_of_union Hzy.
    + apply Hinc, (elem_of_list_to_set (C:=gset string)) in Hzy.
      destruct (decide (y ∈ ({[x]} ∪ processed_files st))); set_solver.
    + specialize (Hclosed z y Hz Hzy). destruct (decide (y = x)); set_solver.
Qed.

Lemma turns_inv fs src apr seeds st w tr st' w' :
  files w = fs → inv fs src apr seeds st →
  turns st w tr st' w' →
  inv fs src apr seeds st' ∧ files w' = fs
  ∧ NoDup tr
  ∧ processed_files st' = list_to_set tr ∪ processed_files st
  ∧ (∀ x, x ∈ tr → x ∉ processed_files st).
Proof.
  intros Hfs Hinv Hturns. revert Hfs Hinv.
  induction Hturns as [st w|st w x st1 w1 tr st' w' Hx Hbody _ IH]; intros Hfs Hinv.
  - split_and!; [done..|constructor|set_solver|set_solver].
  - destruct (inv_turn _ _ _ _ _ _ _ _ _ Hfs Hinv Hx Hbody) as (Hinv1 & Hfs1 & Hnew & Hproc).
    destruct (IH Hfs1 Hinv1) as (Hinv' & Hfs' & Hnd & Hproc' & Hfresh).
    split_and!; [done..| | |].
    + constructor; [|done]. intros Hin. apply Hfresh in Hin. set_solver.
    + rewrite Hproc', Hproc. set_solver.
    + intros y [->|Hy]%elem_of_cons; [done|]. apply Hfresh in Hy. set_solver.
Qed.

Lemma turns_app st w tr1 st1 w1 tr2 st2 w2 :
  turns st w tr1 st1 w1 → turns st1 w1 tr2 st2 w2 →
  turns st w (tr1 ++ tr2) st2 w2.
Proof.
  induction 1 as [|st w x sta wa tr stb wb Hx Hbody _ IH]; [done|].
  intros H2. cbn. econstructor; eauto.
Qed.

(** The loop and its sequences of turns. *)
Lemma process_pending_files_ok st w st' w' :
  process_pending_files st w (Ok st') w' ↔
  ∃ tr, turns st w tr st' w' ∧ pending_files st' = ∅.
Proof.
  split.
  - intros Hrun. remember (Ok st') as r eqn:Hr.
    induction Hrun as [st w Hempty|st w x st1 w1 r w2 Hx Hbody _ IH|]; [| |done].
    + injection Hr as ->. exists []. split; [constructor|done].
    + destruct (IH Hr) as (tr & Htr & Hempty). exists (x :: tr).
      split; [econstructor; eauto|done].
  - intros (tr & Htr & Hempty).
    induction Htr as [st w|st w x st1 w1 tr st' w' Hx Hbody _ IH].
    + by constructor.
    + econstructor; eauto.
Qed.

Lemma process_pending_files_raise st w e w' :
  process_pending_files st w (Raise e) w' ↔
  ∃ tr st1 w1 x, turns st w tr st1 w1 ∧ x ∈ pending_files st1
                 ∧ loop_body x st1 w1 = (Raise e, w').
Proof.
  split.
  - intros Hrun. remember (Raise e) as r eqn:Hr.
    induction Hrun as [|st w x st1 w1 r w2 Hx Hbody _ IH|st w x e' w' Hx Hbody]; [done| |].
    + destruct (IH Hr) as (tr & st2 & w3 & y & Htr & Hy & Hraise).
      exists (x :: tr), st2, w3, y. split; [econstructor; eauto|done].
    + injection Hr as ->. exists [], st, w, x. split; [constructor|done].
  - intros (tr & st1 & w1 & x & Htr & Hx & Hraise).
    induction Htr as [st w|st w y st2 w2 tr st' w'' Hy Hbody _ IH].
    + by econstructor 3.
    + econstructor 2; eauto.
Qed.

Lemma process_pending_files_answers st w w' :
  ¬ process_pending_files st w NoFuel w'.
Proof.
  intros Hrun. remember (@NoFuel state) as r eqn:Hr.
  induction Hrun; [done|auto|done].
Qed.

(** Termination: every turn moves an identifier of the universe into the
    processed set. *)
Lemma processed_universe fs src apr seeds st :
  inv fs src apr seeds st →
  pending_files st ∪ processed_files st ⊆ universe fs seeds.
Proof.
  intros Hinv y Hy. eapply reachable_universe. by apply (inv_sound _ _ _ _ _ Hinv).
Qed.

Lemma measure_turn fs src apr seeds x st w st' w' :
  files w = fs → inv fs src apr seeds st → x ∈ pending_files st →
  loop_body x st w = (Ok st', w') →
  measure fs seeds st' < measure fs seeds st.
Proof.
  intros Hfs Hinv Hx Hbody.
  destruct (inv_turn _ _ _ _ _ _ _ _ _ Hfs Hinv Hx Hbody) as (_ & _ & Hnew & Hproc).
  unfold measure. rewrite Hproc. apply subset_size.
  pose proof (processed_universe _ _ _ _ _ Hinv x) as Hu.
  apply strict_spec_alt. split; [set_solver|].
  intros Heq. assert (x ∈ universe fs seeds ∖ processed_files st) as Hin by set_solver.
  rewrite <-Heq in Hin. set_solver.
Qed.

Lemma turn_acc fs src apr seeds st w :
  files w = fs → inv fs src apr seeds st →
  Acc (fun c' c => turn c c') (st, w).
Proof.
  remember (measure fs seeds st) as n eqn:Hn. revert st w Hn.
  induction (lt_wf n) as [n _ IH]. intros st w -> Hfs Hinv.
  constructor. intros [st' w'] (x & Hx & Hbody). cbn in *.
  eapply IH; [by eapply measure_turn|done| |].
  - by eapply inv_turn.
  - by eapply inv_turn.
Qed.

Lemma run_exists fs src apr seeds st w :
  files w = fs → inv fs src apr seeds st →
  ∃ r w', process_pending_files st w r w'.
Proof.
  remember (measure fs seeds st) as n eqn:Hn. revert st w Hn.
  induction (lt_wf n) as [n _ IH]. intros st w -> Hfs Hinv.
  destruct (decide (pending_files st = ∅)) as [Hempty|Hne].
  - exists (Ok st), w. by constructor.
  - apply set_choose_L in Hne as [x Hx].
    destruct (loop_body x st w) as [[st'| e |] w'] eqn:Hbody.
    + destruct (IH (measure fs seeds st')) with (st := st') (w := w') as (r & w'' & Hrun).
      * by eapply measure_turn.
      * done.
      * by eapply inv_turn.
      * by eapply inv_turn.
      * exists r, w''. by econstructor 2.
    + exists (Raise e), w'. by econstructor 3.
    + by pose proof (loop_body_answers x st w) as Hans; rewrite Hbody in Hans.
Qed.

Lemma turns_bound fs src apr seeds w tr st w' :
  files w = fs →
  turns (seeded src apr seeds) w tr st w' →
  NoDup tr ∧ length tr ≤ size (universe fs seeds).
Proof.
  intros Hfs Hturns.
  destruct (turns_inv _ _ _ _ _ _ _ _ _ Hfs (inv_seeded fs src apr seeds) Hturns)
    as (Hinv & _ & Hnd & Hproc & _).
  split; [done|]. rewrite <-(size_list_to_set (C:=gset string)) by done.
  apply subseteq_size. pose proof (processed_universe _ _ _ _ _ Hinv). set_solver.
Qed.

(** The loop run with a choice function is one of the runs of the loop. *)
Lemma process_pending_files_with_run pop fuel st w r w' :
  (∀ s x, pop s = Some x → x ∈ s) → (∀ s, pop s = None → s = ∅) →
  process_pending_files_with pop fuel st w = (r, w') → r ≠ NoFuel →
  process_pending_files st w r w'.
Proof.
  intros Hsome Hnone. revert st w.
  induction fuel as [|fuel IH]; intros st w; cbn;
    destruct (pop (pending_files st)) as [x|] eqn:Hpop.
  - by intros [= <- <-].
  - intros [= <- <-] _. constructor. by apply Hnone.
  - unfold mbind, M_bind, bind.
    destruct (loop_body x st w) as [[st1|e|] w1] eqn:Hbody.
    + intros Hrec Hr. econstructor 2; [by apply Hsome|done|by apply IH].
    + intros [= <- <-] _. econstructor 3; [by apply Hsome|done].
    + by intros [= <- <-].
  - intros [= <- <-] _. constructor. by apply Hnone.
Qed.

Lemma pop_first_some s x : pop_first s = Some x → x ∈ s.
Proof.
  unfold pop_first. intros Hx. apply elem_of_elements.
  destruct (elements s); [done|]. injection Hx as ->. by left.
Qed.

Lemma pop_first_none s : pop_first s = None → s = ∅.
Proof.
  unfold pop_first. intros Hx. apply leibniz_equiv, elements_empty_inv.
  by destruct (elements s).
Qed.

Lemma turn_grows x st w st' w' :
  loop_body x st w = (Ok st', w') →
  pending_files st ∪ processed_files st ⊆ pending_files st' ∪ processed_files st'.
Proof.
  intros (c & _ & _ & _ & _ & Hproc & Hpend & _)%loop_body_sets.
  rewrite Hproc, Hpend. intros y Hy. destruct (decide (y = x)); set_solver.
Qed.

Lemma turns_grow st w tr st' w' :
  turns st w tr st' w' →
  pending_files st ∪ processed_files st ⊆ pending_files st' ∪ processed_files st'.
Proof.
  induction 1 as [|st w x st1 w1 tr st' w' _ Hbody _ IH]; [done|].
  etrans; [by eapply turn_grows|done].
Qed.

(** The states within a turn keep the two sets apart. *)
Lemma turn_states_disjoint fs x st :
  disjoint_sets st → Forall disjoint_sets (turn_states fs x st).
Proof.
  unfold disjoint_sets, turn_states. intros Hdis.
  constructor; [cbn; set_solver|]. constructor; [cbn; set_solver|].
  destruct (content_of _ _ _ _) as [c|]; [|constructor].
  apply Forall_fmap, Forall_forall. intros k _. cbn.
  destruct (scan_fields (processed_add x (popped x st))
              (take k (Re.finditer_group1 (state_include_regex st) c)))
    as (_ & _ & -> & _ & ->). cbn. set_solver.
Qed.

Lemma includes_library fs src apr x y :
  includes fs src apr x y → ∃ rest, y = "aprinter/" +:+ rest.
Proof.
  intros (c & _ & Hy). apply ReFacts.elem_of_finditer in Hy as (line & _ & Hd).
  destruct Hd as (n1 & n2 & n3 & n4 & rest & _ & -> & _). by exists rest.
Qed.

Lemma library_origin y :
  (∃ rest, y = "aprinter/" +:+ rest) → origin_of y = LibraryOrigin.
Proof.
  intros Hy. apply file_is_from_aprinter_spec in Hy. unfold origin_of. by rewrite Hy.
Qed.

End Resolver.

Import Resolver.

(** C1: when every reachable file can be read, every run of the resolver,
    whatever the order of the pops, ends normally with the pending set
    empty and the processed set equal to the set of the paths reachable from
    the seeds: the seeds and every path transitively included are in it,
    nothing else is, and two runs end with the same set.  And the loop has a
    run. *)
Theorem closure_exact src apr seeds w :
  (∀ y, reachable (files w) src apr seeds y →
        is_Some (content_of (files w) src apr y)) →
  (∃ r w', process_pending_files (seeded src apr seeds) w r w')
  ∧ (∀ r w', process_pending_files (seeded src apr seeds) w r w' →
       ∃ st', r = Ok st' ∧ pending_files st' = ∅
              ∧ (∀ y, y ∈ processed_files st' ↔ reachable (files w) src apr seeds y)
              ∧ seeds ⊆ processed_files st')
  ∧ (∀ r1 w1 r2 w2,
       process_pending_files (seeded src apr seeds) w r1 w1 →
       process_pending_files (seeded src apr seeds) w r2 w2 →
       ∃ st1 st2, r1 = Ok st1 ∧ r2 = Ok st2
                  ∧ processed_files st1 = processed_files st2).
Proof.
  intros Hclosed.
  assert (Hrun : ∀ r w', process_pending_files (seeded src apr seeds) w r w' →
       ∃ st', r = Ok st' ∧ pending_files st' = ∅
              ∧ (∀ y, y ∈ processed_files st' ↔ reachable (files w) src apr seeds y)
              ∧ seeds ⊆ processed_files st').
  { intros [st'|e|] w' Hrun.
    - apply process_pending_files_ok in Hrun as (tr & Htr & Hempty).
      destruct (turns_inv _ _ _ _ _ _ _ _ _ eq_refl (inv_seeded _ src apr seeds) Htr)
        as ([_ _ _ _ Hsound Hseeds Hcl] & _).
      exists st'. split_and!; [done..| |set_solver].
      intros y. split; [intros Hy; apply Hsound; set_solver|].
      intros (x & Hx & Hrtc).
      assert (Hx' : x ∈ processed_files st') by set_solver.
      clear Hx. induction Hrtc as [x|x z y Hxz _ IH]; [done|].
      apply IH. pose proof (Hcl x z Hx' Hxz) as Hz. rewrite Hempty in Hz. set_solver.
    - apply process_pending_files_raise in Hrun as (tr & st1 & w1 & x & Htr & Hx & Hraise).
      destruct (turns_inv _ _ _ _ _ _ _ _ _ eq_refl (inv_seeded _ src apr seeds) Htr)
        as ([Hsrc Hapr _ _ Hsound _ _] & Hfs & _).
      apply loop_body_raise in Hraise as [Hnone _].
      rewrite Hsrc, Hapr, Hfs in Hnone.
      destruct (Hclosed x) as [c Hc]; [apply Hsound; set_solver|congruence].
    - by apply process_pending_files_answers in Hrun. }
  split_and!; [|done|].
  - by eapply run_exists, inv_seeded.
  - intros r1 w1 r2 w2 (st1 & -> & _ & H1 & _)%Hrun (st2 & -> & _ & H2 & _)%Hrun.
    exists st1, st2. split_and!; [done..|]. apply set_eq. intros y. by rewrite H1, H2.
Qed.

(** C2: from the seeded state the loop terminates whatever it pops: a
    sequence of turns never pops an identifier twice and is no longer than
    the number of identifiers of the finite file graph, no sequence of turns
    is infinite, the loop has a run, and a run ends with the pending set
    empty unless the file of a popped identifier could not be read. *)
Theorem resolution_terminates src apr seeds w :
  (∀ tr st w', turns (seeded src apr seeds) w tr st w' →
               NoDup tr ∧ length tr ≤ size (universe (files w) seeds))
  ∧ Acc (fun c' c => turn c c') (seeded src apr seeds, w)
  ∧ (∃ r w', process_pending_files (seeded src apr seeds) w r w')
  ∧ (∀ r w', process_pending_files (seeded src apr seeds) w r w' →
       match r with
       | Ok st' => pending_files st' = ∅
       | Raise e => ∃ x, reachable (files w) src apr seeds x
                         ∧ content_of (files w) src apr x = None
       | NoFuel => False
       end).
Proof.
  split_and!.
  - intros tr st w'. by apply turns_bound.
  - by eapply turn_acc, inv_seeded.
  - by eapply run_exists, inv_seeded.
  - intros [st'|e|] w' Hrun.
    + by apply process_pending_files_ok in Hrun as (tr & _ & Hempty).
    + apply process_pending_files_raise in Hrun as (tr & st1 & w1 & x & Htr & Hx & Hraise).
      destruct (turns_inv _ _ _ _ _ _ _ _ _ eq_refl (inv_seeded _ src apr seeds) Htr)
        as ([Hsrc Hapr _ _ Hsound _ _] & Hfs & _).
      apply loop_body_raise in Hraise as [Hnone _].
      rewrite Hsrc, Hapr, Hfs in Hnone.
      exists x. split; [apply Hsound; set_solver|done].
    + by apply process_pending_files_answers in Hrun.
Qed.

(** C3: along every sequence of turns from the seeded state the pending and
    the processed set are disjoint, also in the states within the next turn
    (after the pop, after the insertion into the processed set, after each
    insertion of a discovered identifier); no identifier is popped twice;
    the processed set is the set of the popped identifiers; a popped
    identifier is not pending again; and when the loop goes on to its end,
    every identifier that was pending is popped, once over the whole run. *)
Theorem pending_processed_disjoint src apr seeds w tr st w1 :
  turns (seeded src apr seeds) w tr st w1 →
  disjoint_sets st
  ∧ (∀ x, x ∈ pending_files st → Forall disjoint_sets (turn_states (files w1) x st))
  ∧ NoDup tr
  ∧ processed_files st = list_to_set tr
  ∧ (∀ x, x ∈ tr → x ∉ pending_files st)
  ∧ (∀ tr' st' w', turns st w1 tr' st' w' → pending_files st' = ∅ →
       NoDup (tr ++ tr') ∧ ∀ y, y ∈ pending_files st → y ∈ tr').
Proof.
  intros Htr.
  destruct (turns_inv _ _ _ _ _ _ _ _ _ eq_refl (inv_seeded _ src apr seeds) Htr)
    as (Hinv & Hfs & Hnd & Hproc & _).
  pose proof (inv_disjoint _ _ _ _ _ Hinv) as Hdis. cbn in Hproc.
  assert (Hproc' : processed_files st = list_to_set tr) by set_solver.
  split_and!; [done| |done|done| |].
  - intros x _. by apply turn_states_disjoint.
  - intros x Hx. rewrite Hproc' in Hdis. set_solver.
  - intros tr' st' w' Htr' Hempty.
    pose proof (turns_app _ _ _ _ _ _ _ _ Htr Htr') as Hall.
    destruct (turns_inv _ _ _ _ _ _ _ _ _ eq_refl (inv_seeded _ src apr seeds) Hall)
      as (_ & _ & Hnd' & Hproc2 & _).
    split; [done|]. intros y Hy.
    pose proof (turns_grow _ _ _ _ _ Htr' y) as Hg.
    rewrite Hempty, Hproc2 in Hg. cbn in Hg.
    assert (Hin : y ∈ tr ++ tr') by set_solver.
    apply elem_of_app in Hin as [Hin|Hin]; [|done].
    rewrite Hproc' in Hdis. set_solver.
Qed.

(** C10: along every sequence of turns from the seeded state, an identifier
    of the pending or of the processed set that is not a seed begins with
    [aprinter/] and is of library origin, so a processed identifier of
    project origin is a seed; and what the next turn adds to the pending set
    begins with [aprinter/] and is of library origin. *)
Theorem expansion_adds_library_paths src apr seeds w tr st w1 :
  turns (seeded src apr seeds) w tr st w1 →
  (∀ y, y ∈ pending_files st ∪ processed_files st → y ∉ seeds →
        (∃ rest, y = "aprinter/" +:+ rest) ∧ origin_of y = LibraryOrigin)
  ∧ (∀ y, y ∈ processed_files st → origin_of y = ProjectOrigin → y ∈ seeds)
  ∧ (∀ x st2 w2, x ∈ pending_files st → loop_body x st w1 = (Ok st2, w2) →
       ∀ y, y ∈ pending_files st2 → y ∉ pending_files st →
            (∃ rest, y = "aprinter/" +:+ rest) ∧ origin_of y = LibraryOrigin).
Proof.
  intros Htr.
  destruct (turns_inv _ _ _ _ _ _ _ _ _ eq_refl (inv_seeded _ src apr seeds) Htr)
    as (Hinv & Hfs & _).
  assert (H1 : ∀ y, y ∈ pending_files st ∪ processed_files st → y ∉ seeds →
        (∃ rest, y = "aprinter/" +:+ rest) ∧ origin_of y = LibraryOrigin).
  { intros y Hy Hns. apply (inv_sound _ _ _ _ _ Hinv) in Hy as (x & Hx & Hrtc).
    destruct (rtc_inv_r _ _ Hrtc) as [->|(z & _ & Hz)]; [done|].
    apply includes_library in Hz. split; [done|]. by apply library_origin. }
  split_and!; [done| |].
  - intros y Hy Ho. destruct (decide (y ∈ seeds)) as [|Hns]; [done|].
    destruct (H1 y) as [_ Hl]; [set_solver|done|congruence].
  - intros x st2 w2 Hx (c & Hc & _ & _ & _ & _ & Hpend & _)%loop_body_sets y Hy Hn.
    rewrite Hpend, (inv_regex _ _ _ _ _ Hinv) in Hy.
    assert (Hin : y ∈ Re.finditer_group1 include_regex c) by set_solver.
    assert (Hl : ∃ rest, y = "aprinter/" +:+ rest).
    { eapply (includes_library (files w1) (src_dir st) (aprinter_dir st) x). by exists c. }
    split; [done|]. by apply library_origin.
Qed.

Module Seeding.
Import PathFacts FsFacts.

Lemma os_listdir_eq path w :
  os_listdir path w
  = (Lib.os_error path (Lib.listdir (files w) path),
     World (files w)
       (events w ++ [Event (CallListdir path)
                       (raised (Lib.os_error path (Lib.listdir (files w) path)))])).
Proof. reflexivity. Qed.

Lemma os_stat_eq path w :
  os_stat path w
  = (Lib.os_error path (Lib.stat (files w) path),
     World (files w)
       (events w ++ [Event (CallStat path)
                       (raised (Lib.os_error path (Lib.stat (files w) path)))])).
Proof. reflexivity. Qed.

Lemma bind_ok {A B} (m : M A) (k : A → M B) w a w1 :
  m w = (Ok a, w1) → (m ≫= k) w = k a w1.
Proof. unfold mbind, M_bind, bind. by intros ->. Qed.

Lemma for_each_adds {A} fs (xs : list A) (body : state → A → M state)
    (Q : A → string → Prop) st w :
  files w = fs →
  (∀ st1 w1 x, x ∈ xs → files w1 = fs → src_dir st1 = src_dir st →
     adds fs st1 w1 (Q x) (body st1 x w1)) →
  adds fs st w (fun y => ∃ x, x ∈ xs ∧ Q x y) (for_each xs st body w).
Proof.
  revert st w. induction xs as [|x xs IH]; intros st w Hfs Hbody.
  - exists st, w. cbn. split_and!; try done. intros y. split; [auto|].
    intros [?|(x & Hx & _)]; [done|]. by apply elem_of_nil in Hx.
  - destruct (Hbody st w x) as (st1 & w1 & Hrun & Hfs1 & Hsrc & Hapr & Hproc & Hre & Hpend);
      [by left|done..|].
    cbn. rewrite (bind_ok _ _ _ _ _ Hrun).
    destruct (IH st1 w1 Hfs1) as (st' & w' & Hrun' & Hfs' & Hsrc' & Hapr' & Hproc' & Hre' & Hpend').
    { intros st2 w2 y Hy Hfs2 Hsrc2. apply Hbody; [by right|done|congruence]. }
    exists st', w'. split_and!; try congruence.
    intros y. rewrite Hpend', Hpend. split.
    + intros [[?|?]|(z & Hz & ?)]; [by left|right; exists x; split; [by left|done]|].
      right. exists z. split; [by right|done].
    + intros [?|(z & [->|Hz]%elem_of_cons & ?)]; [by left; left|by left; right|].
      right. by exists z.
Qed.

Lemma app_eq_app_suffix a b c d :
  a +:+ b = c +:+ d → String.length d ≤ String.length b →
  ∃ m, b = m +:+ d.
Proof.
  revert c. induction a as [|x a IH]; intros c; cbn.
  - intros -> _. by exists c.
  - destruct c as [|y c]; cbn.
    + intros <-. cbn. rewrite StrFacts.length_app. lia.
    + intros [= _ Heq] Hlen. by apply (IH c).
Qed.

Lemma endswith_app_long a b p :
  String.length p ≤ String.length b →
  PyStr.endswith (a +:+ b) p = PyStr.endswith b p.
Proof.
  intros Hlen. apply eq_true_iff_eq. rewrite !endswith_spec. split.
  - intros [pre Heq]. by eapply app_eq_app_suffix.
  - intros [m ->]. exists (a +:+ m). by rewrite StrFacts.app_assoc.
Qed.

Lemma endswith_h_rel_path names n :
  Forall (fun n => Fs.valid_name n = true) names → Fs.valid_name n = true →
  PyStr.endswith (rel_path (names ++ [n])) ".h" = PyStr.endswith n ".h".
Proof.
  intros Hnames Hn. rewrite rel_path_snoc.
  pose proof (valid_name_no_leading_slash _ Hn) as Hlead.
  destruct names as [|m names]; [by rewrite join_empty|].
  destruct (rel_path_spec (m :: names)) as (Hne & Hend & _); [done..|].
  rewrite (join_rel _ n Hlead Hne Hend).
  apply valid_name_spec in Hn as (Hn & _).
  rewrite endswith_app_long.
  - change ("/" +:+ n) with (String "/" n). cbn [PyStr.endswith].
    by replace (String.eqb (String "/" n) ".h") with false by (symmetry; by apply eqb_neq).
  - destruct n; [done|]. cbn. lia.
Qed.

Lemma rel_path_not_aprinter names :
  Forall (fun n => Fs.valid_name n = true) names →
  head names ≠ Some "aprinter" → String.eqb (rel_path names) "aprinter" = false.
Proof.
  intros Hnames Hhead. apply eqb_neq. intros Heq.
  destruct names as [|n names]; [done|].
  destruct (rel_path_spec (n :: names)) as (_ & _ & _ & Hcomps); [done..|].
  rewrite Heq in Hcomps. cbn in Hhead. by injection Hcomps as <- _.
Qed.

Lemma node_at_lookup_some (fs : gmap (list string) Fs.node) l n :
  fs !! l = Some n → is_Some (Fs.node_at fs l).
Proof. destruct l; [by eexists|]. intros Hl. exists n. exact Hl. Qed.

Lemma collect_files_skips fuel st w :
  collect_files (S fuel) st "aprinter" w = (Ok st, w).
Proof. reflexivity. Qed.

Lemma adds_ret fs st w (Q : string → Prop) :
  files w = fs → (∀ y, Q y → y ∈ pending_files st) → adds fs st w Q (Ok st, w).
Proof. intros Hfs HQ. exists st, w. split_and!; try done. intros y. naive_solver. Qed.

(** The walk below a directory of the project tree. *)
Lemma collect_files_below fs src lS fuel names st w :
  Fs.wf fs → Fs.resolve fs src = inr lS →
  files w = fs → src_dir st = src →
  Forall (fun n => Fs.valid_name n = true) names →
  Fs.node_at fs (lS ++ names) = Some Fs.Dir →
  head names ≠ Some "aprinter" →
  fs_depth fs < fuel + length (lS ++ names) →
  adds fs st w (seeds_below fs lS names) (collect_files fuel st (rel_path names) w).
Proof.
  intros Hwf Hsrc. revert names st w.
  induction fuel as [|fuel IH]; intros names st w Hfs Hst Hnames Hdir Hhead Hfuel.
  { destruct (lS ++ names) as [|x l] eqn:Hl; [cbn in Hfuel; lia|].
    rewrite <-Hl in *. assert (length (lS ++ names) ≤ fs_depth fs); [|lia].
    apply depth_bound. rewrite Hl in *. by rewrite <-node_at_cons, Hdir. }
  cbn [collect_files]. rewrite rel_path_not_aprinter by done.
  unfold mbind at 1, M_bind, bind. rewrite os_listdir_eq, Hfs, Hst.
  unfold Lib.listdir. rewrite (entry_rel_path fs src lS names Fs.Dir) by done.
  cbn [Lib.os_error raised].
  set (w0 := World fs _).
  set (body := fun (st : state) (name : string) => _).
  pose proof (for_each_adds fs (Fs.children fs (lS ++ names)) body
    (fun n y =>
       (∃ c, y = rel_path (names ++ [n]) ∧ fs !! (lS ++ names ++ [n]) = Some (Fs.Reg c)
             ∧ PyStr.endswith y ".h" = true)
       ∨ (fs !! (lS ++ names ++ [n]) = Some Fs.Dir
          ∧ ¬ (names = [] ∧ n = "aprinter")
          ∧ seeds_below fs lS (names ++ [n]) y)) st w0 eq_refl) as Hloop.
  destruct Hloop as (st' & w' & Hrun & Hfs' & Hsrc' & Hapr' & Hproc' & Hre' & Hpend').
  { intros st1 w1 n Hn Hfs1 Hsrc1. rewrite app_assoc in *.
    apply elem_of_children in Hn. pose proof Hn as [node Hnode].
    destruct (wf_parent _ _ _ Hwf Hn) as [_ Hvalid].
    assert (Hnames' : Forall (fun n => Fs.valid_name n = true) (names ++ [n])).
    { apply Forall_app. split; [done|by constructor]. }
    unfold body. rewrite <-rel_path_snoc.
    unfold mbind, M_bind, bind. rewrite os_stat_eq, Hfs1, Hsrc1, Hst.
    unfold Lib.stat.
    rewrite (entry_rel_path fs src lS (names ++ [n]) node Hwf Hsrc Hnames');
      [|by rewrite app_assoc, node_at_snoc|by destruct names].
    cbn [Lib.os_error raised]. set (w2 := World fs _).
    destruct node as [c| |]; cbn [Lib.mode_of Lib.S_ISDIR Lib.S_ISREG].
    - (* a regular file *)
      destruct (PyStr.endswith (rel_path (names ++ [n])) ".h") eqn:Hend.
      + exists (pending_add (rel_path (names ++ [n])) st1), w2.
        split_and!; try done. intros y. unfold pending_add, set_pending.
        cbn [pending_files]. rewrite elem_of_union, elem_of_singleton.
        split.
        * intros [->|?]; [right; left; by exists c|by left].
        * intros [?|[(c' & -> & _)|(Hd & _)]]; [by right|by left|].
          rewrite Hnode in Hd. discriminate Hd.
      + apply adds_ret; [done|].
        intros y [(c' & -> & _ & Hy)|(Hd & _)]; [congruence|].
        rewrite Hnode in Hd. discriminate Hd.
    - (* a directory *)
      destruct (decide (names = [] ∧ n = "aprinter")) as [[-> ->]|Hnot].
      + destruct fuel as [|fuel].
        { rewrite app_nil_r in *.
          assert (length (lS ++ ["aprinter"]) ≤ fs_depth fs) by by apply depth_bound.
          rewrite length_app in *. cbn in *. lia. }
        change (rel_path ([] ++ ["aprinter"])) with "aprinter".
        rewrite collect_files_skips. apply adds_ret; [done|].
        intros y [(c' & _ & Hc & _)|(_ & Hno & _)]; [congruence|].
        by destruct Hno.
      + destruct (IH (names ++ [n]) st1 w2) as (st2 & w3 & Hrun & Hrest);
          [done|congruence|done|..].
        * by rewrite app_assoc, node_at_snoc.
        * destruct names as [|m names]; [|done]. cbn. intros [= ->]. by apply Hnot.
        * clear -Hfuel. rewrite !length_app in *. cbn [length] in *. lia.
        * exists st2, w3. split; [done|].
          destruct Hrest as (? & ? & ? & ? & ? & Hpend). split_and!; try done.
          intros y. rewrite Hpend. split.
          -- intros [?|?]; [by left|by right; right].
          -- intros [?|[(c' & _ & Hc & _)|(_ & _ & ?)]]; [by left|congruence|by right].
    - (* neither *)
      apply adds_ret; [done|].
      intros y [(c' & _ & Hc & _)|(Hd & _)]; congruence. }
  exists st', w'. split_and!; try done.
  intros y. rewrite Hpend'. apply or_iff_compat_l. split.
  - intros (n & Hn & [(c & -> & Hc & Hend)|(Hd & Hnot & more & c & Hmore & -> & Hc & Hend & Hns)]).
    + exists [n], c. split_and!; try done. intros -> (rest & [= _ <-] & Hrest). done.
    + exists (n :: more), c. rewrite <-!app_assoc in *. split_and!; try done.
      intros -> (rest & [= -> <-] & _). by apply Hnot.
  - intros (more & c & Hmore & -> & Hc & Hend & Hns).
    destruct more as [|n more]; [done|].
    assert (Hn : is_Some (fs !! ((lS ++ names) ++ [n]))).
    { destruct more as [|m more]; [by rewrite <-app_assoc, Hc|].
      rewrite <-node_at_snoc.
      rewrite (wf_ancestor fs ((lS ++ names) ++ [n]) (m :: more) Hwf); [done| |done].
      apply (node_at_lookup_some _ _ (Fs.Reg c)). by rewrite <-!app_assoc. }
    exists n. split; [by apply elem_of_children|].
    destruct more as [|m more].
    + left. by exists c.
    + right. rewrite <-app_assoc in Hn. split_and!.
      * rewrite app_assoc, <-node_at_snoc.
        apply (wf_ancestor fs _ (m :: more) Hwf); [|done].
        apply (node_at_lookup_some _ _ (Fs.Reg c)). by rewrite <-!app_assoc.
      * intros [-> ->]. apply Hns; [done|]. by exists (m :: more).
      * exists (m :: more), c. rewrite <-!app_assoc. cbn. split_and!; try done.
        intros Hnil. by destruct names.
Qed.

Lemma wf_valid_names fs l :
  Fs.wf fs → is_Some (fs !! l) → Forall (fun n => Fs.valid_name n = true) l.
Proof.
  intros Hwf Hl%elem_of_dom. specialize (Hwf _ Hl). unfold Fs.wf_entry in Hwf.
  destruct l as [|x l]; [done|]. apply andb_true_iff in Hwf as [Hvalid _].
  apply Forall_forall. intros n Hn. rewrite forallb_forall in Hvalid.
  by apply Hvalid, list_elem_of_In.
Qed.

Lemma seeds_below_root fs lS y :
  Fs.wf fs → seeds_below fs lS [] y ↔ is_seed fs lS y.
Proof.
  intros Hwf. unfold seeds_below, is_seed. split.
  - intros (more & c & Hmore & -> & Hc & Hend & Hns). cbn in *.
    destruct (exists_last Hmore) as (init & name & ->).
    assert (Hvalid : Forall (fun n => Fs.valid_name n = true) (init ++ [name])).
    { eapply (Forall_app _ lS), wf_valid_names; [done|by rewrite Hc]. }
    apply Forall_app in Hvalid as [Hinit Hname]. rewrite Forall_singleton in Hname.
    exists (init ++ [name]), name, c. rewrite last_snoc.
    rewrite endswith_h_rel_path in Hend by done. split_and!; auto.
  - intros (names & name & c & -> & Hlast & Hc & Hend & Hns).
    apply last_Some in Hlast as [init ->].
    assert (Hvalid : Forall (fun n => Fs.valid_name n = true) (init ++ [name])).
    { eapply (Forall_app _ lS), wf_valid_names; [done|by rewrite Hc]. }
    apply Forall_app in Hvalid as [Hinit Hname]. rewrite Forall_singleton in Hname.
    exists (init ++ [name]), c. cbn. rewrite endswith_h_rel_path by done.
    split_and!; auto. by destruct init.
Qed.

Lemma seed_not_from_aprinter fs lS y :
  Fs.wf fs → is_seed fs lS y → file_is_from_aprinter y = false.
Proof.
  intros Hwf (names & name & c & -> & Hlast & Hc & _ & Hns).
  assert (Hvalid : Forall (fun n => Fs.valid_name n = true) names).
  { eapply (Forall_app _ lS), wf_valid_names; [done|by rewrite Hc]. }
  destruct (file_is_from_aprinter _) eqn:Hlib; [|done].
  apply file_is_from_aprinter_spec in Hlib as [rest Hrest].
  destruct names as [|n names]; [done|].
  destruct (rel_path_spec (n :: names)) as (_ & _ & _ & Hcomps); [done..|].
  rewrite Hrest in Hcomps.
  change ("aprinter/" +:+ rest) with ("aprinter" +:+ "/" +:+ rest) in Hcomps.
  rewrite components_app_sep in Hcomps. cbn in Hcomps. injection Hcomps as <- <-.
  destruct Hns. exists (PosixPath.components rest). split; [done|].
  apply ReFacts.split_nonempty.
Qed.

End Seeding.

Import Seeding.

(** C9: on a well-formed project tree whose source directory resolves to a
    directory, and with recursion depth to spare, [collect_files] ends
    normally, changes no file, and adds to the pending set exactly the seeds:
    the paths, relative to the source directory, of the regular files below
    it whose name ends in [.h], the files below the top directory [aprinter]
    left out.  No seed begins with [aprinter/]; entries that are not regular
    files and files with another suffix are not seeds. *)
Theorem seeding_exact fuel st w lS :
  Fs.wf (files w) →
  Fs.resolve (files w) (src_dir st) = inr lS →
  Fs.node_at (files w) lS = Some Fs.Dir →
  fs_depth (files w) < fuel + length lS →
  ∃ st' w',
    collect_files fuel st "" w = (Ok st', w')
    ∧ files w' = files w
    ∧ processed_files st' = processed_files st
    ∧ (∀ y, y ∈ pending_files st' ↔
            y ∈ pending_files st ∨ is_seed (files w) lS y)
    ∧ (∀ y, is_seed (files w) lS y → file_is_from_aprinter y = false).
Proof.
  intros Hwf Hsrc Hdir Hfuel.
  destruct (collect_files_below (files w) (src_dir st) lS fuel [] st w)
    as (st' & w' & Hrun & Hfs & _ & _ & Hproc & _ & Hpend); try done.
  - by rewrite app_nil_r.
  - by rewrite app_nil_r.
  - exists st', w'. split_and!; try done.
    + intros y. rewrite Hpend. by rewrite seeds_below_root.
    + intros y. by apply seed_not_from_aprinter.
Qed.

Lemma seeding_exact_sample :
  ∃ st' w',
    collect_files 5 (initial_state "/p" "/lib") "" sample_world = (Ok st', w')
    ∧ files w' = sample_files
    ∧ processed_files st' = ∅
    ∧ (∀ y, y ∈ pending_files st' ↔
            y ∈ (∅ : gset string) ∨ is_seed sample_files ["p"; "src"] y)
    ∧ (∀ y, is_seed sample_files ["p"; "src"] y → file_is_from_aprinter y = false).
Proof.
  apply (seeding_exact 5 (initial_state "/p" "/lib") sample_world ["p"; "src"]).
  - apply FsFacts.wf_check_wf. vm_compute. reflexivity.
  - vm_compute. reflexivity.
  - vm_compute. reflexivity.
  - vm_compute. lia.
Defined.

Module Errors.

Lemma clean_app a b : clean a → clean b → clean (a ++ b).
Proof. induction 1; intros Hb; cbn; [done|constructor; auto..]. Qed.

Lemma log_ok_app a b o : clean a → log_ok b o → log_ok (a ++ b) o.
Proof.
  intros Ha [evs Hevs|evs c e Hevs|evs p q Hevs].
  - constructor. by apply clean_app.
  - rewrite app_assoc. constructor. by apply clean_app.
  - rewrite app_assoc. constructor. by apply clean_app.
Qed.

Lemma log_ok_none evs : log_ok evs None → clean evs.
Proof. by inversion 1. Qed.

Lemma logs_ret {A} (a : A) : logs (mret a).
Proof. intros w r w' [= <- <-]. exists []. rewrite app_nil_r. split; [done|repeat constructor]. Qed.

Lemma logs_no_fuel {A} : logs (fun w => (@NoFuel A, w)).
Proof. intros w r w' [= <- <-]. exists []. rewrite app_nil_r. split; [done|repeat constructor]. Qed.

Lemma logs_bind {A B} (m : M A) (k : A → M B) :
  logs m → (∀ a, logs (k a)) → logs (m ≫= k).
Proof.
  intros Hm Hk w r w'. unfold mbind, M_bind, bind.
  destruct (m w) as [[a|e|] w1] eqn:Hmw.
  - intros Hkw. destruct (Hm _ _ _ Hmw) as (evs1 & Hw1 & Hok1).
    destruct (Hk a _ _ _ Hkw) as (evs2 & Hw2 & Hok2).
    exists (evs1 ++ evs2). rewrite Hw2, Hw1, app_assoc. split; [done|].
    apply log_ok_app; [|done]. by apply log_ok_none.
  - intros [= <- <-]. by apply (Hm _ _ _ Hmw).
  - intros [= <- <-]. by apply (Hm _ _ _ Hmw).
Qed.

Lemma logs_lib_call {A} (c : call) (f : gmap (list string) Fs.node → res A * gmap (list string) Fs.node) :
  logs (lib_call c f).
Proof.
  intros w r w'. unfold lib_call. destruct (f (files w)) as [r0 fs']. intros [= <- <-].
  exists [Event c (raised r0)]. split; [done|].
  destruct r0 as [a|e|]; cbn.
  - repeat constructor.
  - apply (log_raised [] c e). constructor.
  - repeat constructor.
Qed.

Lemma logs_lib_read {A} (c : call) (f : gmap (list string) Fs.node → res A) :
  logs (lib_read c f).
Proof. apply logs_lib_call. Qed.

Lemma logs_for_each {A S} (xs : list A) (st : S) (body : S → A → M S) :
  (∀ st x, logs (body st x)) → logs (for_each xs st body).
Proof.
  intros Hbody. revert st. induction xs as [|x xs IH]; intros st; cbn.
  - apply (logs_ret st).
  - apply logs_bind; [apply Hbody|]. intros st'. apply IH.
Qed.

Lemma logs_collect_files fuel st dir_path : logs (collect_files fuel st dir_path).
Proof.
  revert st dir_path. induction fuel as [|fuel IH]; intros st dir_path; cbn.
  - apply logs_no_fuel.
  - destruct (String.eqb dir_path "aprinter"); [apply logs_ret|].
    apply logs_bind; [apply logs_lib_read|]. intros names.
    apply logs_for_each. intros st' name.
    apply logs_bind; [apply logs_lib_read|]. intros mode.
    destruct (Lib.S_ISDIR mode); [apply IH|].
    destruct (Lib.S_ISREG mode); [|apply logs_ret].
    destruct (PyStr.endswith _ _); apply logs_ret.
Qed.

Lemma logs_process_file st x : logs (process_file st x).
Proof.
  unfold process_file. apply logs_bind; [apply logs_lib_read|].
  intros c. apply logs_ret.
Qed.

Lemma logs_loop_body x st : logs (loop_body x st).
Proof. apply logs_process_file. Qed.

Lemma logs_process_pending_files st w r w' :
  process_pending_files st w r w' →
  ∃ evs, events w' = events w ++ evs ∧ log_ok evs (raised r).
Proof.
  induction 1 as [st w _|st w x st1 w1 r w2 _ Hbody _ IH|st w x e w' _ Hbody].
  - exists []. rewrite app_nil_r. split; [done|repeat constructor].
  - destruct (logs_loop_body _ _ _ _ _ Hbody) as (evs1 & Hw1 & Hok1).
    destruct IH as (evs2 & Hw2 & Hok2).
    exists (evs1 ++ evs2). rewrite Hw2, Hw1, app_assoc. split; [done|].
    apply log_ok_app; [|done]. by apply log_ok_none.
  - by apply (logs_loop_body _ _ _ _ _ Hbody).
Qed.

Lemma logs_mkdir_p path : logs (mkdir_p path).
Proof.
  intros w r w'. unfold mkdir_p, try_except, os_makedirs, lib_call.
  destruct (Lib.makedirs _ _ _) as [[[]|ex|] fs'] eqn:Hmk; cbn.
  - intros [= <- <-]. eexists. split; [done|]. repeat constructor.
  - destruct ex as [e q|e q|s d]; cbn.
    + destruct (decide (e = Fs.EEXIST)) as [->|Hne].
      * rewrite bool_decide_eq_true_2 by done. cbn.
        unfold mbind, M_bind, bind, os_path_isdir. cbn.
        destruct (Lib.path_isdir fs' path) eqn:Hdir; cbn.
        -- intros [= <- <-]. cbn. eexists. split; [by rewrite <-app_assoc|].
           cbn. repeat constructor.
        -- intros [= <- <-]. cbn. eexists. split; [by rewrite <-app_assoc|].
           cbn. apply (log_raised_not_dir [] path q). constructor.
      * rewrite bool_decide_eq_false_2 by done. cbn.
        intros [= <- <-]. eexists. split; [done|].
        apply (log_raised [] _ _). constructor.
    + intros [= <- <-]. eexists. split; [done|]. apply (log_raised [] _ _). constructor.
    + intros [= <- <-]. eexists. split; [done|]. apply (log_raised [] _ _). constructor.
  - intros [= <- <-]. eexists. split; [done|]. repeat constructor.
Qed.

Lemma logs_copy_one st x : logs (copy_one st x).
Proof.
  unfold copy_one. apply logs_bind; [apply logs_lib_read|]. intros _.
  apply logs_bind; [apply logs_mkdir_p|]. intros _. apply logs_lib_call.
Qed.

Lemma logs_copy_files st xs : logs (copy_files st xs).
Proof. apply logs_for_each. intros _ x. apply logs_copy_one. Qed.

Lemma main_first_run fuel a b w r w' :
  main_first fuel a b w = (r, w') → r ≠ NoFuel → main fuel a b w r w'.
Proof.
  unfold main_first, main, mbind, M_bind, bind.
  destruct (collect_files _ _ _ _) as [[st1|e|] w1]; [|by intros [= <- <-]..].
  destruct (process_pending_files_with _ _ _ _) as [[st2|e|] w2] eqn:Hrun.
  - intros Hcopy _. exists (Ok st2), w2. split.
    + eapply Resolver.process_pending_files_with_run; eauto.
      * apply Resolver.pop_first_some.
      * apply Resolver.pop_first_none.
    + by exists (elements (processed_files st2)).
  - intros [= <- <-] _. exists (Raise e), w2. split; [|done].
    eapply Resolver.process_pending_files_with_run; eauto.
    + apply Resolver.pop_first_some.
    + apply Resolver.pop_first_none.
  - by intros [= <- <-].
Qed.

End Errors.

Import Errors.

(** C8: no error is recovered or retried, and none is swallowed: in every run
    of the script the log of the library calls is clean up to the exception
    that ends the run.  An exception raised by a call during seeding,
    resolution or mirroring is the outcome of the run, raised by the last
    failing call, and no call follows it.  The one exception a clean log
    holds is the [OSError] with [EEXIST] of [os.makedirs] for a path that
    [os.path.isdir] then finds to be a directory: this is [mkdir_p] meeting
    a directory that already exists, which is not an error of the Mirror. *)
Theorem errors_are_fatal fuel a b w r w' :
  main fuel a b w r w' →
  ∃ evs, events w' = events w ++ evs ∧ log_ok evs (raised r).
Proof.
  unfold main. destruct (collect_files _ _ _ _) as [[st1|e|] w1] eqn:Hcollect.
  - destruct (logs_collect_files _ _ _ _ _ _ Hcollect) as (evs1 & Hw1 & Hok1%log_ok_none).
    intros (r2 & w2 & Hrun & Hrest).
    destruct (logs_process_pending_files _ _ _ _ Hrun) as (evs2 & Hw2 & Hok2).
    destruct r2 as [st2|e|].
    + destruct Hrest as (order & _ & Hcopy).
      destruct (logs_copy_files _ _ _ _ _ Hcopy) as (evs3 & Hw3 & Hok3).
      exists (evs1 ++ evs2 ++ evs3). rewrite Hw3, Hw2, Hw1, !app_assoc. split; [done|].
      rewrite <-app_assoc. apply log_ok_app; [done|].
      apply log_ok_app; [by apply log_ok_none|done].
    + destruct Hrest as [-> ->]. exists (evs1 ++ evs2).
      rewrite Hw2, Hw1, app_assoc. split; [done|]. by apply log_ok_app.
    + destruct Hrest as [-> ->]. exists (evs1 ++ evs2).
      rewrite Hw2, Hw1, app_assoc. split; [done|]. by apply log_ok_app.
  - intros [-> ->]. by apply (logs_collect_files _ _ _ _ _ _ Hcollect).
  - intros [-> ->]. by apply (logs_collect_files _ _ _ _ _ _ Hcollect).
Qed.

Lemma errors_are_fatal_sample :
  ∃ w', main 5 "/p" "/lib" sample_world (Ok tt) w'
        ∧ ∃ evs, events w' = events sample_world ++ evs ∧ log_ok evs None.
Proof.
  eexists. split.
  - apply main_first_run; [vm_compute; reflexivity|done].
  - apply (errors_are_fatal 5 "/p" "/lib" sample_world (Ok tt)).
    apply main_first_run; [vm_compute; reflexivity|done].
Defined.

Module Mirror.
Import PathFacts FsFacts.

(** Resolution is lexical when it succeeds. *)
Lemma walk_lexical fs cur comps l :
  Fs.walk fs cur comps = inr l → l = lexical cur comps.
Proof.
  revert cur. induction comps as [|c cs IH]; intros cur; cbn.
  - by intros [= ->].
  - destruct (Fs.node_at fs cur) as [[]|]; try done.
    destruct (Fs.is_dot c); [apply IH|].
    destruct (String.eqb c ".."); apply IH.
Qed.

Lemma lexical_app cur a b : lexical cur (a ++ b) = lexical (lexical cur a) b.
Proof.
  revert cur. induction a as [|c a IH]; intros cur; cbn; [done|].
  destruct (Fs.is_dot c); [apply IH|]. destruct (String.eqb c ".."); apply IH.
Qed.

Lemma lexical_no_dotdot cur comps :
  ".." ∉ comps → cur `prefix_of` lexical cur comps.
Proof.
  revert cur. induction comps as [|c cs IH]; intros cur Hno; cbn; [done|].
  apply not_elem_of_cons in Hno as [Hc Hcs].
  destruct (Fs.is_dot c); [by apply IH|].
  destruct (String.eqb_spec c "..") as [->|_]; [done|].
  etrans; [|by apply IH]. by apply prefix_app_r.
Qed.

Lemma resolve_lexical fs path l : Fs.resolve fs path = inr l → l = location_of path.
Proof.
  unfold Fs.resolve. destruct (String.eqb path ""); [done|]. apply walk_lexical.
Qed.

Lemma location_of_join a b :
  PyStr.startswith b "/" = false →
  location_of (PosixPath.join a b) = lexical (location_of a) (PosixPath.components b).
Proof.
  intros Hb. unfold location_of.
  destruct (String.eqb_spec a "") as [->|Hne]; [by rewrite join_empty|].
  destruct (PyStr.endswith a "/") eqn:Hend.
  - rewrite join_slash by done. apply endswith_spec in Hend as [pre ->].
    rewrite StrFacts.app_assoc, components_app_sep, components_snoc_sep.
    by rewrite !lexical_app.
  - rewrite join_rel by done. by rewrite components_app_sep, lexical_app.
Qed.

(** [posixpath.basename] is the last component. *)
Lemma cut_last_slash_spec p :
  match PosixPath.cut_last_slash p with
  | Some (h, t) =>
      ∃ h', h = h' +:+ "/" ∧ p = h +:+ t ∧ PyStr.contains PosixPath.slash t = false
  | None => PyStr.contains PosixPath.slash p = false
  end.
Proof.
  induction p as [|c p IH]; [done|]. cbn [PosixPath.cut_last_slash].
  destruct (PosixPath.cut_last_slash p) as [[h t]|].
  - destruct IH as (h' & -> & -> & Ht). exists (String c h'). done.
  - destruct (Ascii.eqb_spec c PosixPath.slash) as [->|Hc].
    + by exists "".
    + cbn. rewrite IH, orb_false_r. apply Ascii.eqb_neq. congruence.
Qed.

Lemma basename_last p : last (PosixPath.components p) = Some (PosixPath.basename p).
Proof.
  unfold PosixPath.basename. pose proof (cut_last_slash_spec p) as Hcut.
  destruct (PosixPath.cut_last_slash p) as [[h t]|].
  - destruct Hcut as (h' & -> & -> & Ht).
    rewrite StrFacts.app_assoc, components_app_sep.
    unfold PosixPath.components at 2. rewrite SplitFacts.split_no_sep by done.
    by rewrite last_snoc.
  - unfold PosixPath.components. by rewrite SplitFacts.split_no_sep.
Qed.

Lemma basename_no_slash p :
  PyStr.contains PosixPath.slash (PosixPath.basename p) = false.
Proof.
  unfold PosixPath.basename. pose proof (cut_last_slash_spec p) as Hcut.
  destruct (PosixPath.cut_last_slash p) as [[h t]|]; [|done].
  by destruct Hcut as (h' & -> & -> & Ht).
Qed.

Lemma no_slash_no_leading_slash s :
  PyStr.contains PosixPath.slash s = false → PyStr.startswith s "/" = false.
Proof.
  destruct s as [|c s]; [done|]. rewrite startswith_slash_cons. cbn.
  intros [Hc _]%orb_false_iff. by rewrite Ascii.eqb_sym.
Qed.

Lemma components_join_suffix a b :
  PyStr.startswith b "/" = false →
  ∃ pre, PosixPath.components (PosixPath.join a b) = pre ++ PosixPath.components b.
Proof.
  intros Hb. destruct (String.eqb_spec a "") as [->|Hne].
  - exists []. by rewrite join_empty.
  - destruct (PyStr.endswith a "/") eqn:Hend.
    + rewrite join_slash by done. apply endswith_spec in Hend as [pre ->].
      exists (PosixPath.components pre). by rewrite StrFacts.app_assoc, components_app_sep.
    + rewrite join_rel by done. exists (PosixPath.components a).
      by rewrite components_app_sep.
Qed.

Lemma basename_join a b :
  PyStr.startswith b "/" = false →
  PosixPath.basename (PosixPath.join a b) = PosixPath.basename b.
Proof.
  intros Hb. destruct (components_join_suffix a b Hb) as [pre Hpre].
  pose proof (basename_last (PosixPath.join a b)) as H1.
  pose proof (basename_last b) as H2.
  rewrite Hpre, last_app, H2 in H1. by injection H1.
Qed.

(** The identifiers of the library. *)
Lemma library_components id :
  file_is_from_aprinter id = true →
  ∃ rest, id = "aprinter/" +:+ rest
          ∧ PosixPath.components id = "aprinter" :: PosixPath.components rest
          ∧ PyStr.startswith id "/" = false.
Proof.
  intros [rest ->]%file_is_from_aprinter_spec. exists rest. split_and!; [done| |done].
  change ("aprinter/" +:+ rest) with ("aprinter" +:+ "/" +:+ rest).
  by rewrite components_app_sep.
Qed.

(** Where the copy of a library identifier without [..] is written. *)
Lemma written_in_namespace st fs id :
  file_is_from_aprinter id = true → no_dotdot id →
  namespace_dir st
    `prefix_of` location_of (written_path fs (src_path st id) (dst_path st id)).
Proof.
  intros Hlib Hno. destruct (library_components id Hlib) as (rest & -> & Hcomps & Hlead).
  unfold no_dotdot in Hno. rewrite Hcomps in Hno.
  apply not_elem_of_cons in Hno as [_ Hrest].
  assert (Hdst : namespace_dir st `prefix_of` location_of (dst_path st ("aprinter/" +:+ rest))).
  { unfold dst_path. rewrite location_of_join, Hcomps by done. cbn [lexical].
    change (Fs.is_dot "aprinter") with false.
    change (String.eqb "aprinter" "..") with false. cbn.
    by apply lexical_no_dotdot. }
  unfold written_path. destruct (Lib.path_isdir _ _); [|done].
  pose proof (basename_no_slash (src_path st ("aprinter/" +:+ rest))) as Hbase.
  rewrite location_of_join by by apply no_slash_no_leading_slash.
  etrans; [exact Hdst|]. apply lexical_no_dotdot.
  unfold PosixPath.components. rewrite SplitFacts.split_no_sep by done.
  rewrite list_elem_of_singleton. unfold src_path. rewrite basename_join by done.
  intros Heq. pose proof (basename_last ("aprinter/" +:+ rest)) as Hlast.
  rewrite Hcomps, <-Heq in Hlast. cbn in Hlast.
  pose proof (ReFacts.split_nonempty PosixPath.slash rest) as Hne.
  fold (PosixPath.components rest) in Hne.
  destruct (PosixPath.components rest) as [|x xs] eqn:Hx; [done|].
  apply Hrest. apply last_Some_elem_of. by rewrite <-Hlast.
Qed.

(** Growth. *)
Lemma grows_refl fs : grows fs fs.
Proof. intros l. by left. Qed.

Lemma grows_trans a b c : grows a b → grows b c → grows a c.
Proof.
  intros Hab Hbc l. destruct (Hab l) as [Hab1|[Ha Hb]], (Hbc l) as [Hbc1|[Hb' Hc]].
  - left. congruence.
  - right. split; congruence.
  - right. split; congruence.
  - congruence.
Qed.

Lemma grows_files fs fs' l c :
  grows fs fs' → fs' !! l = Some (Fs.Reg c) ↔ fs !! l = Some (Fs.Reg c).
Proof. intros Hg. destruct (Hg l) as [->|[Hn Hd]]; [done|]. rewrite Hn, Hd. done. Qed.

Lemma mkdir_grows fs path fs' : Fs.mkdir fs path = inr fs' → grows fs fs'.
Proof.
  unfold Fs.mkdir. destruct (String.eqb path ""); [done|].
  destruct (Fs.walk _ _ _) as [e|l]; [done|].
  destruct (Fs.node_at fs l) as [n|] eqn:Hn; [done|]. intros [= <-] k.
  destruct (decide (l = k)) as [<-|Hne].
  - right. rewrite lookup_insert_eq. split; [|done]. by destruct l.
  - left. by rewrite lookup_insert_ne.
Qed.

Lemma os_mkdir_grows fs path r fs' : Lib.os_mkdir fs path = (r, fs') → grows fs fs'.
Proof.
  unfold Lib.os_mkdir. destruct (Fs.mkdir fs path) as [e|fs1] eqn:Hmk.
  - intros [= _ <-]. apply grows_refl.
  - intros [= _ <-]. by eapply mkdir_grows.
Qed.

Lemma makedirs_grows fuel fs name r fs' :
  Lib.makedirs fuel fs name = (r, fs') → grows fs fs'.
Proof.
  revert fs name r fs'. induction fuel as [|fuel IH]; intros fs name r fs'; cbn.
  - intros [= _ <-]. apply grows_refl.
  - destruct (PosixPath.split name) as [head tail].
    destruct (if String.eqb tail "" then PosixPath.split head else (head, tail))
      as [head' tail'].
    destruct (negb _ && negb _ && negb _); [|apply os_mkdir_grows].
    destruct (Lib.makedirs fuel fs head') as [r1 fs1] eqn:Hrec.
    apply IH in Hrec.
    assert (Hafter : (if String.eqb tail' "." then (Ok tt, fs1) else Lib.os_mkdir fs1 name)
                     = (r, fs') → grows fs fs').
    { destruct (String.eqb tail' ".").
      - by intros [= _ <-].
      - intros Hmk%os_mkdir_grows. by eapply grows_trans. }
    destruct r1 as [[]|[[] q|e q|a b]|]; try done; by intros [= _ <-].
Qed.

Lemma mkdir_p_grows path w r w' :
  mkdir_p path w = (r, w') → grows (files w) (files w').
Proof.
  unfold mkdir_p, try_except, os_makedirs, lib_call.
  destruct (Lib.makedirs _ _ _) as [r1 fs1] eqn:Hmk. apply makedirs_grows in Hmk.
  destruct r1 as [[]|ex|]; [by intros [= _ <-]| |by intros [= _ <-]].
  destruct ex as [e q|e q|a b]; cbn; [|by intros [= _ <-]..].
  destruct (negb _); cbn; [by intros [= _ <-]|].
  unfold mbind, M_bind, bind, os_path_isdir. cbn.
  destruct (negb _); cbn; by intros [= _ <-].
Qed.

(** What [shutil.copy] does to the files. *)
Lemma write_file_spec fs path content fs' :
  Fs.write_file fs path content = inr fs' →
  fs' = <[location_of path := Fs.Reg content]> fs
  ∧ Fs.resolve fs path = inr (location_of path)
  ∧ (Fs.node_at fs (location_of path) = None
     ∨ ∃ c, Fs.node_at fs (location_of path) = Some (Fs.Reg c)).
Proof.
  unfold Fs.write_file. destruct (Fs.resolve fs path) as [e|l] eqn:Hl; [done|].
  apply resolve_lexical in Hl as ->.
  destruct (Fs.node_at fs _) as [[c| |]|]; try done; intros [= <-]; eauto.
Qed.

Lemma copy_spec fs src dst r fs' :
  Lib.copy fs src dst = (r, fs') →
  (r ≠ Ok tt ∧ fs' = fs)
  ∨ (∃ c, r = Ok tt
          ∧ fs' = <[location_of (written_path fs src dst) := Fs.Reg c]> fs
          ∧ Fs.read_file fs src = inr c
          ∧ Lib.samefile fs src (written_path fs src dst) = false
          ∧ Fs.write_file fs (written_path fs src dst) c = inr fs').
Proof.
  unfold Lib.copy. fold (written_path fs src dst).
  destruct (Lib.samefile _ _ _) eqn:Hsame; [intros [= <- <-]; by left|].
  destruct (Fs.read_file fs src) as [e|c] eqn:Hread; [intros [= <- <-]; by left|].
  destruct (Fs.write_file _ _ _) as [e|fs1] eqn:Hwrite; [intros [= <- <-]; by left|].
  intros [= <- <-]. right. exists c. split_and!; try done.
  by apply write_file_spec in Hwrite as [-> _].
Qed.

(** Files outside a directory. *)
Lemma same_outside_refl d fs : same_outside d fs fs.
Proof. by intros l c _. Qed.

Lemma same_outside_trans d a b c :
  same_outside d a b → same_outside d b c → same_outside d a c.
Proof. intros Hab Hbc l x Hl. by rewrite (Hbc l x Hl), (Hab l x Hl). Qed.

Lemma grows_same_outside d fs fs' : grows fs fs' → same_outside d fs fs'.
Proof. intros Hg l c _. by apply grows_files. Qed.

Lemma copy_one_frame st id w r w' :
  copy_one st id w = (r, w') →
  file_is_from_aprinter id = true → no_dotdot id →
  same_outside (namespace_dir st) (files w) (files w').
Proof.
  unfold copy_one, mbind, M_bind, bind. cbn [print lib_read lib_call].
  set (w0 := World (files w) _).
  destruct (mkdir_p _ w0) as [r1 w1] eqn:Hmk. pose proof (mkdir_p_grows _ _ _ _ Hmk) as Hg.
  cbn in Hg. intros Hrun Hlib Hno.
  destruct r1 as [[]|e|]; [|injection Hrun as _ <-; by apply grows_same_outside..].
  unfold shutil_copy, lib_call in Hrun.
  destruct (Lib.copy _ _ _) as [r2 fs2] eqn:Hcopy. injection Hrun as _ <-. cbn.
  eapply same_outside_trans; [by apply grows_same_outside|].
  apply copy_spec in Hcopy as [[_ ->]|(c & _ & -> & _)]; [apply same_outside_refl|].
  intros l x Hl. rewrite lookup_insert_ne; [done|]. intros <-. apply Hl.
  by apply written_in_namespace.
Qed.

Lemma copy_files_frame st ids w r w' :
  copy_files st ids w = (r, w') →
  (∀ id, id ∈ ids → file_is_from_aprinter id = true ∧ no_dotdot id) →
  same_outside (namespace_dir st) (files w) (files w').
Proof.
  unfold copy_files. revert w. induction ids as [|id ids IH]; intros w; cbn.
  - intros [= _ <-] _. apply same_outside_refl.
  - unfold mbind, M_bind, bind. destruct (copy_one st id w) as [r1 w1] eqn:Hone.
    intros Hrun Hall. destruct (Hall id) as [Hlib Hno]; [by left|].
    pose proof (copy_one_frame _ _ _ _ _ Hone Hlib Hno) as H1.
    destruct r1 as [[]|e|]; [|by injection Hrun as _ <-..].
    eapply same_outside_trans; [done|]. apply (IH w1 Hrun).
    intros id' Hid'. apply Hall. by right.
Qed.

(** The calls of the Mirror. *)
Lemma calls_ret {A} P (a : A) : calls P (mret a).
Proof. intros w r w' [= <- <-]. exists []. by rewrite app_nil_r. Qed.

Lemma calls_raise {A} P e : calls P (@raise A e).
Proof. intros w r w' [= <- <-]. exists []. by rewrite app_nil_r. Qed.

Lemma calls_bind {A B} P (m : M A) (k : A → M B) :
  calls P m → (∀ a, calls P (k a)) → calls P (m ≫= k).
Proof.
  intros Hm Hk w r w'. unfold mbind, M_bind, bind.
  destruct (m w) as [r1 w1] eqn:Hmw. destruct (Hm _ _ _ Hmw) as (evs1 & Hw1 & Hok1).
  destruct r1 as [a|e|]; [|intros [= <- <-]; by exists evs1..].
  intros (evs2 & Hw2 & Hok2)%Hk. exists (evs1 ++ evs2).
  rewrite Hw2, Hw1, app_assoc. split; [done|]. by apply Forall_app.
Qed.

Lemma calls_try_except {A} P (m : M A) (h : exn → M A) :
  calls P m → (∀ e, calls P (h e)) → calls P (try_except m h).
Proof.
  intros Hm Hh w r w'. unfold try_except.
  destruct (m w) as [r1 w1] eqn:Hmw. destruct (Hm _ _ _ Hmw) as (evs1 & Hw1 & Hok1).
  destruct r1 as [a|e|]; [intros [= <- <-]; by exists evs1| |intros [= <- <-]; by exists evs1].
  intros (evs2 & Hw2 & Hok2)%Hh. exists (evs1 ++ evs2).
  rewrite Hw2, Hw1, app_assoc. split; [done|]. by apply Forall_app.
Qed.

Lemma calls_lib_call {A} (P : call → Prop) (c : call)
    (f : gmap (list string) Fs.node → res A * gmap (list string) Fs.node) :
  P c → calls P (lib_call c f).
Proof.
  intros Hc w r w'. unfold lib_call. destruct (f (files w)) as [r0 fs']. intros [= <- <-].
  exists [Event c (raised r0)]. split; [done|]. by repeat constructor.
Qed.

Lemma calls_isdir (P : call → Prop) path :
  (∀ answer, P (CallIsdir path answer)) → calls P (os_path_isdir path).
Proof.
  intros Hc w r w'. unfold os_path_isdir. intros [= <- <-].
  exists [Event (CallIsdir path (Lib.path_isdir (files w) path)) None].
  split; [done|]. repeat constructor. apply Hc.
Qed.

Lemma calls_impl {A} (P Q : call → Prop) (m : M A) :
  (∀ c, P c → Q c) → calls P m → calls Q m.
Proof.
  intros HPQ Hm w r w' (evs & Hw & Hall)%Hm. exists evs. split; [done|].
  eapply Forall_impl; [done|]. intros ev. apply HPQ.
Qed.

Lemma calls_for_each {A S} P (xs : list A) (st : S) (body : S → A → M S) :
  (∀ st x, x ∈ xs → calls P (body st x)) → calls P (for_each xs st body).
Proof.
  revert st. induction xs as [|x xs IH]; intros st Hbody; cbn.
  - apply calls_ret.
  - apply calls_bind; [apply Hbody; by left|]. intros st'. apply IH.
    intros st'' y Hy. apply Hbody. by right.
Qed.

Lemma copy_one_calls st id : calls (mirror_call st id) (copy_one st id).
Proof.
  unfold copy_one. apply calls_bind; [apply calls_lib_call; by left|]. intros _.
  apply calls_bind; [|intros _; apply calls_lib_call; by do 3 right].
  apply calls_try_except; [apply calls_lib_call; right; by left|].
  intros [e q|e q|a b]; try apply calls_raise.
  destruct (negb _); [apply calls_raise|].
  apply calls_bind; [apply calls_isdir; intros b; right; right; left; by exists b|].
  intros b. destruct (negb b); [apply calls_raise|apply calls_ret].
Qed.

Lemma copy_files_calls st ids :
  calls (fun c => ∃ id, id ∈ ids ∧ mirror_call st id c) (copy_files st ids).
Proof.
  apply calls_for_each. intros _ id Hid. eapply calls_impl; [|apply copy_one_calls].
  intros c Hc. by exists id.
Qed.

Lemma append_inj a b b' : a +:+ b = a +:+ b' → b = b'.
Proof. induction a as [|c a IH]; cbn; [done|]. intros [= H]. by apply IH. Qed.

Lemma join_inj a b b' :
  PyStr.startswith b "/" = false → PyStr.startswith b' "/" = false →
  PosixPath.join a b = PosixPath.join a b' → b = b'.
Proof.
  unfold PosixPath.join. intros -> ->. destruct (_ || _).
  - apply append_inj.
  - intros H%append_inj. by apply (append_inj "/") in H.
Qed.

Lemma library_relative id : file_is_from_aprinter id = true → PyStr.startswith id "/" = false.
Proof. intros [rest ->]%file_is_from_aprinter_spec. done. Qed.

Lemma copy_aprinter_files_ids st order id :
  order ≡ₚ elements (processed_files st) →
  id ∈ List.filter file_is_from_aprinter order ↔
  id ∈ processed_files st ∧ origin_of id = LibraryOrigin.
Proof.
  intros Hperm. rewrite list_elem_of_In, filter_In, <-list_elem_of_In, Hperm, elem_of_elements.
  unfold origin_of. destruct (file_is_from_aprinter id); naive_solver.
Qed.

End Mirror.

Import Mirror.

(** C6, as worded, fails: in a run of the script on a project whose header
    [up.h] includes [<aprinter/../up.h>], the Mirror overwrites the project's
    own [up.h], which is of ProjectOrigin and lies outside the namespace
    directory [/p/src/aprinter], with the library's file. *)
Lemma mirror_writes_outside_namespace :
  ∃ w', main 5 "/p" "/lib" dotdot_world (Ok tt) w'
        ∧ origin_of "up.h" = ProjectOrigin
        ∧ ¬ ["p"; "src"; "aprinter"] `prefix_of` ["p"; "src"; "up.h"]
        ∧ files dotdot_world !! ["p"; "src"; "up.h"]
          = Some (Fs.Reg ("#include <aprinter/../up.h>" +:+ nl))
        ∧ files w' !! ["p"; "src"; "up.h"] = Some (Fs.Reg "library")
        ∧ Event (CallCopy "/lib/aprinter/../up.h" "/p/src/aprinter/../up.h") None
          ∈ events w'.
Proof.
  eexists. split; [apply Errors.main_first_run; [vm_compute; reflexivity|done]|].
  split; [done|]. split.
  - intros [k Hk]. discriminate Hk.
  - split; [by vm_compute|]. split; [by vm_compute|].
    cbn. repeat first [by left | right].
Qed.

(** C6 (amended): when no LibraryOrigin identifier of the processed set has
    a [..] segment, the Mirror makes each of its calls (print, makedirs,
    isdir, copy) for a LibraryOrigin identifier of the processed set, so it
    copies no relative ProjectOrigin identifier from the library tree or to
    the project tree, and every file outside the namespace directory of the
    project tree is the same after the Mirror as before. *)
Theorem mirror_stays_in_namespace st w r w' :
  copy_aprinter_files st w r w' →
  (∀ id, id ∈ processed_files st → origin_of id = LibraryOrigin → no_dotdot id) →
  (∃ evs, events w' = events w ++ evs
          ∧ Forall (fun ev => ∃ id, id ∈ processed_files st
                                    ∧ origin_of id = LibraryOrigin
                                    ∧ mirror_call st id (ev_call ev)) evs
          ∧ ∀ p ev s d, p ∈ processed_files st → origin_of p = ProjectOrigin →
                        PyStr.startswith p "/" = false →
                        ev ∈ evs → ev_call ev = CallCopy s d →
                        s ≠ src_path st p ∧ d ≠ dst_path st p)
  ∧ same_outside (namespace_dir st) (files w) (files w').
Proof.
  intros (order & Hperm & Hrun) Hno.
  pose proof (copy_aprinter_files_ids st order) as Hids. split.
  - destruct (copy_files_calls _ _ _ _ _ Hrun) as (evs & Hw' & Hall).
    assert (Hall' : Forall (fun ev => ∃ id, id ∈ processed_files st
                                            ∧ origin_of id = LibraryOrigin
                                            ∧ mirror_call st id (ev_call ev)) evs).
    { eapply Forall_impl; [done|]. intros ev (id & Hid & Hev). apply Hids in Hid; [|done].
      exists id. naive_solver. }
    exists evs. split; [done|]. split; [done|].
    intros p ev s d Hp Hproj Hrel Hev Hcall.
    rewrite Forall_forall in Hall'. destruct (Hall' ev Hev) as (id & Hid & Hlib & Hmc).
    assert (Hne : id ≠ p) by (intros ->; congruence).
    assert (Hrel' : PyStr.startswith id "/" = false).
    { apply library_relative. unfold origin_of in Hlib.
      by destruct (file_is_from_aprinter id). }
    rewrite Hcall in Hmc.
    destruct Hmc as [Hmc|[Hmc|[[b Hmc]|Hmc]]]; try discriminate Hmc.
    injection Hmc as -> ->. unfold src_path, dst_path.
    split; intros Heq; apply join_inj in Heq; done.
  - eapply copy_files_frame; [done|]. intros id Hid. apply Hids in Hid as [Hid Hlib]; [|done].
    split; [|by apply Hno]. unfold origin_of in Hlib.
    by destruct (file_is_from_aprinter id).
Qed.

Lemma mirror_stays_in_namespace_sample :
  ∃ w', copy_aprinter_files sample_resolved_state sample_world (Ok tt) w'
        ∧ same_outside ["p"; "src"; "aprinter"] sample_files (files w')
        ∧ files w' !! ["p"; "src"; "aprinter"; "bar.h"]
          = sample_files !! ["lib"; "aprinter"; "bar.h"].
Proof.
  eexists. split; [|split].
  - exists (elements (processed_files sample_resolved_state)).
    split; [done|]. vm_compute. reflexivity.
  - refine (proj2 (mirror_stays_in_namespace sample_resolved_state sample_world (Ok tt) _ _ _)).
    + exists (elements (processed_files sample_resolved_state)).
      split; [done|]. vm_compute. reflexivity.
    + intros id Hid _. unfold no_dotdot.
      cbn [sample_resolved_state processed_files] in Hid.
      rewrite !elem_of_union, !elem_of_singleton in Hid.
      destruct Hid as [[->| ->]| ->]; intros Hin; by vm_compute in Hin;
        repeat (apply elem_of_cons in Hin as [Hin|Hin]; [discriminate Hin|]);
        by apply elem_of_nil in Hin.
  - by vm_compute.
Defined.

Module Idem.
Import PathFacts FsFacts Mirror.

(** Trailing slashes do not change where a path leads. *)
Lemma components_rstrip s :
  ∃ k, PosixPath.components s
       = PosixPath.components (PosixPath.rstrip_slash s) ++ replicate k "".
Proof.
  unfold PosixPath.components. induction s as [|c s [k IH]]; [by exists 0|].
  cbn [PosixPath.rstrip_slash]. rewrite ReFacts.split_cons, IH.
  destruct (PosixPath.rstrip_slash s) as [|d r] eqn:Hr.
  - destruct (Ascii.eqb c PosixPath.slash) eqn:Hc.
    + exists (S k). done.
    + exists k. cbn. by rewrite Hc.
  - rewrite (ReFacts.split_cons _ c (String d r)).
    destruct (Ascii.eqb c PosixPath.slash); [by exists k|]. exists k.
    pose proof (ReFacts.split_nonempty PosixPath.slash (String d r)) as Hne.
    by destruct (PyStr.split PosixPath.slash (String d r)).
Qed.

Lemma walk_empties fs cur comps k l :
  Fs.walk fs cur (comps ++ replicate k "") = inr l → Fs.walk fs cur comps = inr l.
Proof.
  rewrite walk_app. destruct (Fs.walk fs cur comps) as [e|l0]; [done|].
  induction k as [|k IH]; cbn; [done|].
  destruct (Fs.node_at fs l0) as [[]|]; try done.
Qed.

Lemma walk_rstrip fs cur s l :
  Fs.walk fs cur (PosixPath.components s) = inr l →
  Fs.walk fs cur (PosixPath.components (PosixPath.rstrip_slash s)) = inr l.
Proof. destruct (components_rstrip s) as [k ->]. apply walk_empties. Qed.

(** The head of [posixpath.split] of a path that leads somewhere is a
    directory. *)
Lemma stat_isdir fs p l :
  Fs.resolve fs p = inr l → Fs.node_at fs l = Some Fs.Dir → Lib.path_isdir fs p = true.
Proof. unfold Lib.path_isdir, Lib.stat, Fs.entry. by intros -> ->. Qed.

Lemma isdir_entry fs p :
  Lib.path_isdir fs p = true ↔ ∃ l, Fs.entry fs p = inr (l, Fs.Dir).
Proof.
  unfold Lib.path_isdir, Lib.stat. destruct (Fs.entry fs p) as [e|[l [c| |]]]; cbn.
  - split; [done|]. by intros [l Hl].
  - split; [done|]. by intros [l' Hl].
  - split; [|done]. intros _. by exists l.
  - split; [done|]. by intros [l' Hl].
Qed.

Lemma entry_resolve fs p l n :
  Fs.entry fs p = inr (l, n) ↔ Fs.resolve fs p = inr l ∧ Fs.node_at fs l = Some n.
Proof.
  unfold Fs.entry. destruct (Fs.resolve fs p) as [e|l0].
  - split; [done|]. by intros [? _].
  - destruct (Fs.node_at fs l0) as [n0|] eqn:Hn.
    + split; [by intros [= <- <-]|]. intros [[= <-] Hn']. congruence.
    + split; [done|]. intros [[= <-] Hn']. congruence.
Qed.

Lemma isdir_exists fs p : Lib.path_isdir fs p = true → Lib.path_exists fs p = true.
Proof. unfold Lib.path_isdir, Lib.path_exists. by destruct (Lib.stat fs p). Qed.

Lemma resolve_nonempty fs p l : Fs.resolve fs p = inr l → p ≠ "".
Proof. by intros H ->. Qed.

Lemma split_head_isdir fs p l :
  Fs.resolve fs p = inr l →
  fst (PosixPath.split p) = "" ∨ Lib.path_isdir fs (fst (PosixPath.split p)) = true.
Proof.
  unfold PosixPath.split, Fs.resolve. destruct (String.eqb p ""); [done|].
  pose proof (cut_last_slash_spec p) as Hcut.
  destruct (PosixPath.cut_last_slash p) as [[h t]|]; [|by left].
  destruct Hcut as (h' & -> & -> & Ht). intros Hwalk. right.
  rewrite StrFacts.app_assoc, components_app_sep, walk_app in Hwalk.
  destruct (Fs.walk fs [] (PosixPath.components h')) as [e|l0] eqn:Hh'; [done|].
  rewrite (SplitFacts.split_no_sep _ _ Ht : PosixPath.components t = [t]) in Hwalk.
  assert (Hdir : Fs.node_at fs l0 = Some Fs.Dir).
  { cbn in Hwalk. by destruct (Fs.node_at fs l0) as [[]|]. }
  assert (Hh : Fs.walk fs [] (PosixPath.components (h' +:+ "/")) = inr l0).
  { rewrite components_snoc_sep, walk_app, Hh'. cbn. by rewrite Hdir. }
  destruct (PosixPath.rstrip_slash (h' +:+ "/")) as [|c r] eqn:Hr; cbn [fst].
  - apply (stat_isdir _ _ l0); [|done]. unfold Fs.resolve.
    destruct (String.eqb_spec (h' +:+ "/") "") as [Hnil|_]; [by destruct h'|done].
  - apply (stat_isdir _ _ l0); [|done]. unfold Fs.resolve.
    destruct (String.eqb_spec (String c r) "") as [Hnil|_]; [done|].
    rewrite <-Hr. by apply walk_rstrip.
Qed.

(** [mkdir] of an existing directory. *)
Lemma walk_all_empty fs cur comps l :
  Fs.drop_trailing_empty comps = [] → Fs.walk fs cur comps = inr l → l = cur.
Proof.
  revert cur. induction comps as [|c cs IH]; intros cur; cbn; [by intros _ [= ->]|].
  destruct (Fs.drop_trailing_empty cs) eqn:Hcs; [|done].
  destruct (String.eqb_spec c "") as [->|Hc]; [|done]. intros _.
  destruct (Fs.node_at fs cur) as [[]|]; try done. cbn. by apply IH.
Qed.

Lemma walk_drop_trailing_empty fs cur comps l :
  Fs.walk fs cur comps = inr l → Fs.walk fs cur (Fs.drop_trailing_empty comps) = inr l.
Proof.
  revert cur. induction comps as [|c cs IH]; intros cur; cbn; [done|].
  destruct (Fs.node_at fs cur) as [[]|] eqn:Hcur; try done.
  destruct (Fs.drop_trailing_empty cs) as [|d ds] eqn:Hcs.
  - destruct (String.eqb_spec c "") as [->|Hc]; cbn.
    + intros Hl%walk_all_empty; [by subst|done].
    + rewrite Hcur. destruct (Fs.is_dot c).
      * intros Hl%walk_all_empty; [by subst|done].
      * destruct (String.eqb c ".."); intros Hl%walk_all_empty; by subst.
  - remember (d :: ds) as r eqn:Hr. cbn [Fs.walk]. rewrite Hcur.
    destruct (Fs.is_dot c); [apply IH|]. destruct (String.eqb c ".."); apply IH.
Qed.

Lemma mkdir_existing fs name :
  Lib.path_isdir fs name = true →
  Lib.os_mkdir fs name = (Raise (OSError Fs.EEXIST name), fs).
Proof.
  intros [l [Hres Hnode]%entry_resolve]%isdir_entry. unfold Lib.os_mkdir, Fs.mkdir.
  unfold Fs.resolve in Hres. destruct (String.eqb name ""); [done|].
  apply walk_drop_trailing_empty in Hres. by rewrite Hres, Hnode.
Qed.

Lemma makedirs_existing fuel fs name :
  Lib.path_isdir fs name = true →
  Lib.makedirs (S fuel) fs name = (Raise (OSError Fs.EEXIST name), fs).
Proof.
  intros Hdir. pose proof Hdir as [l [Hres _]%entry_resolve]%isdir_entry.
  cbn [Lib.makedirs]. pose proof (split_head_isdir _ _ _ Hres) as Hhead.
  destruct (PosixPath.split name) as [head tail]. cbn [fst] in Hhead.
  assert (Hcond : ∀ h t, h = "" ∨ Lib.path_isdir fs h = true →
            negb (String.eqb h "") && negb (String.eqb t "")
            && negb (Lib.path_exists fs h) = false).
  { intros h t [->|Hh%isdir_exists]; [done|]. rewrite Hh. by rewrite andb_false_r. }
  destruct (String.eqb tail "").
  - destruct Hhead as [->|Hhead].
    + cbn. by apply mkdir_existing.
    + pose proof Hhead as [l' [Hres' _]%entry_resolve]%isdir_entry.
      pose proof (split_head_isdir _ _ _ Hres') as Hhead'.
      destruct (PosixPath.split head) as [head' tail']. cbn [fst] in Hhead'.
      rewrite (Hcond _ _ Hhead'). by apply mkdir_existing.
  - rewrite (Hcond _ _ Hhead). by apply mkdir_existing.
Qed.

Lemma makedirs_empty fuel fs r fs' : Lib.makedirs fuel fs "" = (r, fs') → r ≠ Ok tt.
Proof. destruct fuel; cbn; by intros [= <- _]. Qed.

(** Extensions keep where paths lead. *)
Lemma ext_refl fs : ext fs fs.
Proof. intros l n Hn. by exists n. Qed.

Lemma ext_trans a b c : ext a b → ext b c → ext a c.
Proof.
  intros Hab Hbc l n Hn. destruct (Hab l n Hn) as (n1 & Hn1 & Hm1).
  destruct (Hbc l n1 Hn1) as (n2 & Hn2 & Hm2). exists n2. split; [done|congruence].
Qed.

Lemma grows_ext fs fs' : grows fs fs' → ext fs fs'.
Proof.
  intros Hg l n Hn. destruct (Hg l) as [Heq|[Hnone _]]; [|congruence].
  exists n. by rewrite Heq.
Qed.

Lemma insert_reg_ext fs l c :
  fs !! l = None ∨ (∃ c0, fs !! l = Some (Fs.Reg c0)) → ext fs (<[l := Fs.Reg c]> fs).
Proof.
  intros Hl k n Hn. destruct (decide (l = k)) as [<-|Hne].
  - rewrite lookup_insert_eq. exists (Fs.Reg c). split; [done|].
    destruct Hl as [Hl|[c0 Hl]]; [congruence|]. rewrite Hl in Hn. by injection Hn as <-.
  - rewrite lookup_insert_ne by done. by exists n.
Qed.

Lemma node_at_ext fs fs' l n :
  ext fs fs' → Fs.node_at fs l = Some n →
  ∃ n', Fs.node_at fs' l = Some n' ∧ Lib.mode_of n' = Lib.mode_of n.
Proof.
  intros Hext. destruct l as [|x l]; cbn; [intros [= <-]; by exists Fs.Dir|]. apply Hext.
Qed.

Lemma node_at_ext_dir fs fs' l :
  ext fs fs' → Fs.node_at fs l = Some Fs.Dir → Fs.node_at fs' l = Some Fs.Dir.
Proof.
  intros Hext (n' & Hn' & Hm)%(node_at_ext _ _ _ _ Hext). by destruct n'.
Qed.

Lemma walk_ext fs fs' cur comps l :
  ext fs fs' → Fs.walk fs cur comps = inr l → Fs.walk fs' cur comps = inr l.
Proof.
  intros Hext. revert cur. induction comps as [|c cs IH]; intros cur; cbn; [done|].
  destruct (Fs.node_at fs cur) as [[]|] eqn:Hcur; try done.
  rewrite (node_at_ext_dir _ _ _ Hext Hcur).
  destruct (Fs.is_dot c); [apply IH|]. destruct (String.eqb c ".."); apply IH.
Qed.

Lemma resolve_ext fs fs' p l :
  ext fs fs' → Fs.resolve fs p = inr l → Fs.resolve fs' p = inr l.
Proof.
  unfold Fs.resolve. intros Hext. destruct (String.eqb p ""); [done|]. by apply walk_ext.
Qed.

Lemma entry_ext fs fs' p l n :
  ext fs fs' → Fs.entry fs p = inr (l, n) →
  ∃ n', Fs.entry fs' p = inr (l, n') ∧ Lib.mode_of n' = Lib.mode_of n.
Proof.
  intros Hext [Hres Hn]%entry_resolve.
  destruct (node_at_ext _ _ _ _ Hext Hn) as (n' & Hn' & Hm). exists n'. split; [|done].
  apply entry_resolve. split; [by eapply resolve_ext|done].
Qed.

Lemma isdir_ext fs fs' p :
  ext fs fs' → Lib.path_isdir fs p = true → Lib.path_isdir fs' p = true.
Proof.
  intros Hext [l Hl]%isdir_entry. destruct (entry_ext _ _ _ _ _ Hext Hl) as (n' & Hn' & Hm).
  apply isdir_entry. exists l. by destruct n'.
Qed.

Lemma entry_reg_not_dir fs p l c :
  Fs.entry fs p = inr (l, Fs.Reg c) → Lib.path_isdir fs p = false.
Proof. unfold Lib.path_isdir, Lib.stat. by intros ->. Qed.

Lemma read_file_entry fs p c :
  Fs.read_file fs p = inr c ↔ Fs.entry fs p = inr (location_of p, Fs.Reg c).
Proof.
  unfold Fs.read_file. split.
  - destruct (Fs.entry fs p) as [e|[l [c0| |]]] eqn:Hentry; try done. intros [= ->].
    apply entry_resolve in Hentry as [Hres _]. by rewrite (resolve_lexical _ _ _ Hres).
  - by intros ->.
Qed.

Lemma entry_reg_lookup fs p (l : list string) c :
  Fs.entry fs p = inr (l, Fs.Reg c) → fs !! l = Some (Fs.Reg c).
Proof. intros [_ Hn]%entry_resolve. by destruct l. Qed.

(** A step of the Mirror that succeeds. *)
Lemma mkdir_p_nonempty path w w' : mkdir_p path w = (Ok tt, w') → path ≠ "".
Proof.
  unfold mkdir_p, try_except, os_makedirs, lib_call.
  destruct (Lib.makedirs _ _ _) as [r1 fs1] eqn:Hmk. intros Hrun ->.
  apply makedirs_empty in Hmk. destruct r1 as [[]|ex|]; [done| |done].
  destruct ex as [e q|e q|a b]; cbn in Hrun; [|done..].
  destruct (negb _); cbn in Hrun; [done|].
  unfold mbind, M_bind, bind, os_path_isdir in Hrun. cbn in Hrun. done.
Qed.

Lemma copy_one_ok st id w w' :
  copy_one st id w = (Ok tt, w') →
  ∃ fs c,
    grows (files w) fs
    ∧ files w' = <[location_of (written st fs id) := Fs.Reg c]> fs
    ∧ location_of (written st fs id) ≠ []
    ∧ (fs !! location_of (written st fs id) = None
       ∨ ∃ c0, fs !! location_of (written st fs id) = Some (Fs.Reg c0))
    ∧ Fs.resolve fs (written st fs id) = inr (location_of (written st fs id))
    ∧ Fs.entry fs (src_path st id) = inr (location_of (src_path st id), Fs.Reg c)
    ∧ location_of (src_path st id) ≠ location_of (written st fs id)
    ∧ Lib.path_isdir fs (PosixPath.dirname (dst_path st id)) = true.
Proof.
  unfold copy_one, mbind, M_bind, bind. cbn [print lib_read lib_call].
  set (w0 := World (files w) _).
  destruct (mkdir_p _ w0) as [r1 w1] eqn:Hmk. intros Hrun.
  destruct r1 as [[]|e|]; [|done..].
  pose proof (mkdir_p_grows _ _ _ _ Hmk) as Hg. cbn in Hg.
  pose proof (mkdir_p_nonempty _ _ _ Hmk) as Hne.
  unfold shutil_copy, lib_call in Hrun.
  destruct (Lib.copy _ _ _) as [r2 fs2] eqn:Hcopy. injection Hrun as -> <-. cbn [files].
  apply copy_spec in Hcopy as [[Hr _]|(c & _ & -> & Hread & Hsame & Hwrite)]; [done|].
  fold (src_path st id) in *. fold (dst_path st id) in *.
  fold (written st (files w1) id) in *.
  apply write_file_spec in Hwrite as (_ & Hres & Hnode).
  apply read_file_entry in Hread.
  remember (location_of (written st (files w1) id)) as l eqn:Hldef.
  assert (Hl : l ≠ []).
  { intros Hnil. rewrite Hnil in Hnode. cbn in Hnode. by destruct Hnode as [|[c0 ?]]. }
  assert (Hlook : Fs.node_at (files w1) l = files w1 !! l) by by destruct l.
  rewrite Hlook in Hnode.
  exists (files w1), c. rewrite <-Hldef. split_and!; try done.
  - intros Heq. unfold Lib.samefile in Hsame. rewrite Hread in Hsame.
    assert (Hw : Fs.entry (files w1) (written st (files w1) id) = inr (l, Fs.Reg c)).
    { apply entry_resolve. split; [done|]. rewrite <-Heq.
      by apply entry_resolve in Hread as [_ Hn]. }
    rewrite Hw, Heq in Hsame. by rewrite bool_decide_eq_true_2 in Hsame.
  - assert (Hdst : ∃ l', Fs.resolve (files w1) (dst_path st id) = inr l').
    { unfold written, written_path in Hres.
      destruct (Lib.path_isdir (files w1) (dst_path st id)) eqn:Hdir; [|by eexists].
      apply isdir_entry in Hdir as [l' [Hl' _]%entry_resolve]. by exists l'. }
    destruct Hdst as [l' Hl']. by destruct (split_head_isdir _ _ _ Hl').
Qed.

(** A copy in place stays in place. *)
Lemma entry_reg_nonempty fs p l c : Fs.entry fs p = inr (l, Fs.Reg c) → l ≠ [].
Proof. intros [_ Hn]%entry_resolve ->. done. Qed.

Lemma entry_reg_ext fs fs' p l c :
  ext fs fs' → Fs.entry fs p = inr (l, Fs.Reg c) → fs' !! l = Some (Fs.Reg c) →
  Fs.entry fs' p = inr (l, Fs.Reg c).
Proof.
  intros Hext Hentry Hl. pose proof (entry_reg_nonempty _ _ _ _ Hentry) as Hne.
  apply entry_resolve in Hentry as [Hres _]. apply entry_resolve.
  split; [by eapply resolve_ext|]. by destruct l.
Qed.

Lemma written_stable st fs fs' id c :
  ext fs fs' →
  Fs.entry fs (written st fs id) = inr (location_of (written st fs id), Fs.Reg c) →
  written st fs' id = written st fs id.
Proof.
  intros Hext. unfold written, written_path.
  destruct (Lib.path_isdir fs (dst_path st id)) eqn:Hdir.
  - intros _. by rewrite (isdir_ext _ _ _ Hext Hdir).
  - intros (n' & Hn' & Hm)%(entry_ext _ _ _ _ _ Hext).
    unfold Lib.path_isdir, Lib.stat. rewrite Hn'. by destruct n'.
Qed.

Lemma settled_ext st fs fs' id c :
  settled st fs id c → ext fs fs' →
  fs' !! location_of (src_path st id) = Some (Fs.Reg c) →
  fs' !! location_of (written st fs id) = Some (Fs.Reg c) →
  settled st fs' id c.
Proof.
  intros (Hdir & Hsrc & Hw & Hne) Hext Hs' Hw'.
  pose proof (written_stable st fs fs' id c Hext Hw) as Hst.
  unfold settled. rewrite Hst. split_and!; try done.
  - by eapply isdir_ext.
  - by eapply entry_reg_ext.
  - by eapply entry_reg_ext.
Qed.

Lemma copy_one_settles st id w w' :
  copy_one st id w = (Ok tt, w') →
  ext (files w) (files w') ∧ ∃ c, settled st (files w') id c.
Proof.
  intros (fs & c & Hg & Hw' & Hl & Hnode & Hres & Hsrc & Hne & Hdir)%copy_one_ok.
  assert (Hext : ext fs (files w')) by (rewrite Hw'; by apply insert_reg_ext).
  split; [eapply ext_trans; [by apply grows_ext|done]|]. exists c.
  assert (Hentry : Fs.entry (files w') (written st fs id)
                   = inr (location_of (written st fs id), Fs.Reg c)).
  { apply entry_resolve. split; [by eapply resolve_ext|].
    rewrite Hw'. destruct (location_of (written st fs id)); [done|].
    cbn. by rewrite lookup_insert_eq. }
  assert (Hsame : written st (files w') id = written st fs id).
  { unfold written, written_path in Hentry |- *.
    destruct (Lib.path_isdir fs (dst_path st id)) eqn:Hd.
    - by rewrite (isdir_ext _ _ _ Hext Hd).
    - by rewrite (entry_reg_not_dir _ _ _ _ Hentry). }
  unfold settled. rewrite Hsame. split_and!; try done.
  - by eapply isdir_ext.
  - eapply entry_reg_ext; [done..|]. rewrite Hw', lookup_insert_ne by done.
    by eapply entry_reg_lookup.
Qed.

Lemma copy_one_written st id w w' :
  copy_one st id w = (Ok tt, w') →
  ∃ fs c,
    grows (files w) fs
    ∧ files w' = <[location_of (written st (files w') id) := Fs.Reg c]> fs
    ∧ (fs !! location_of (written st (files w') id) = None
       ∨ ∃ c0, fs !! location_of (written st (files w') id) = Some (Fs.Reg c0))
    ∧ Fs.entry fs (src_path st id) = inr (location_of (src_path st id), Fs.Reg c).
Proof.
  intros (fs & c & Hg & Hw' & Hl & Hnode & Hres & Hsrc & Hne & Hdir)%copy_one_ok.
  assert (Hext : ext fs (files w')) by (rewrite Hw'; by apply insert_reg_ext).
  assert (Hentry : Fs.entry (files w') (written st fs id)
                   = inr (location_of (written st fs id), Fs.Reg c)).
  { apply entry_resolve. split; [by eapply resolve_ext|].
    rewrite Hw'. destruct (location_of (written st fs id)); [done|].
    cbn. by rewrite lookup_insert_eq. }
  assert (Hsame : written st (files w') id = written st fs id).
  { unfold written, written_path in Hentry |- *.
    destruct (Lib.path_isdir fs (dst_path st id)) eqn:Hd.
    - by rewrite (isdir_ext _ _ _ Hext Hd).
    - by rewrite (entry_reg_not_dir _ _ _ _ Hentry). }
  exists fs, c. rewrite Hsame. done.
Qed.

Lemma settled_step st id c j w w' :
  settled st (files w) id c → copy_one st j w = (Ok tt, w') →
  location_of (written st (files w') j) ≠ location_of (src_path st id) →
  (location_of (written st (files w') j) = location_of (written st (files w) id) →
   location_of (src_path st j) = location_of (src_path st id)) →
  settled st (files w') id c.
Proof.
  intros Hset (fs & cj & Hg & Hw' & Hnode & Hsrcj)%copy_one_written Hnsrc Halias.
  pose proof Hset as (_ & Hsrc & Hw & _).
  apply entry_reg_lookup in Hsrc as Hs. apply entry_reg_lookup in Hw as Hl.
  assert (Hkeep : ∀ l n, files w !! l = Some n → fs !! l = Some n).
  { intros l n Hn. destruct (Hg l) as [->|[Hnone _]]; [done|congruence]. }
  apply (settled_ext st (files w)); [done| |..].
  - eapply ext_trans; [by apply grows_ext|]. rewrite Hw'. by apply insert_reg_ext.
  - rewrite Hw', lookup_insert_ne by done. by apply Hkeep.
  - rewrite Hw'. destruct (decide (location_of (written st (files w') j)
                                   = location_of (written st (files w) id))) as [Heq|Hne].
    + rewrite Heq, lookup_insert_eq.
      apply entry_reg_lookup in Hsrcj. rewrite (Halias Heq) in Hsrcj.
      apply Hkeep in Hs. rewrite Hs in Hsrcj. by injection Hsrcj as ->.
    + rewrite lookup_insert_ne by done. by apply Hkeep.
Qed.

(** Runs of the loop. *)
Lemma copy_files_nil st w : copy_files st [] w = (Ok tt, w).
Proof. reflexivity. Qed.

Lemma copy_files_cons st id ids w :
  copy_files st (id :: ids) w
  = match copy_one st id w with
    | (Ok _, w') => copy_files st ids w'
    | (Raise e, w') => (Raise e, w')
    | (NoFuel, w') => (NoFuel, w')
    end.
Proof.
  unfold copy_files. cbn [for_each]. unfold mbind, M_bind, bind.
  by destruct (copy_one st id w) as [[[]|e|] w'].
Qed.

Lemma copy_files_cons_ok st id ids w w1 :
  copy_files st (id :: ids) w = (Ok tt, w1) →
  ∃ w', copy_one st id w = (Ok tt, w') ∧ copy_files st ids w' = (Ok tt, w1).
Proof.
  rewrite copy_files_cons. destruct (copy_one st id w) as [[[]|e|] w']; try done.
  intros Hrest. by exists w'.
Qed.

Lemma copy_files_ext st ids w w1 :
  copy_files st ids w = (Ok tt, w1) → ext (files w) (files w1).
Proof.
  revert w. induction ids as [|id ids IH]; intros w.
  - intros [= <-]. apply ext_refl.
  - intros (w' & [Hext _]%copy_one_settles & Hrest%IH)%copy_files_cons_ok.
    by eapply ext_trans.
Qed.

Lemma settled_written st fs fs' id c :
  settled st fs id c → ext fs fs' → written st fs' id = written st fs id.
Proof. intros (_ & _ & Hw & _) Hext. by eapply written_stable. Qed.

Lemma settled_run st id c ids w w1 :
  settled st (files w) id c → copy_files st ids w = (Ok tt, w1) →
  (∀ j, j ∈ ids →
        location_of (written st (files w1) j) ≠ location_of (src_path st id)) →
  (∀ j, j ∈ ids →
        location_of (written st (files w1) j) = location_of (written st (files w1) id) →
        location_of (src_path st j) = location_of (src_path st id)) →
  settled st (files w1) id c.
Proof.
  revert w. induction ids as [|j ids IH]; intros w Hset.
  - by intros [= <-] _ _.
  - intros (w' & Hone & Hrest)%copy_files_cons_ok Hnsrc Halias.
    pose proof (copy_files_ext _ _ _ _ Hrest) as Hext'.
    destruct (copy_one_settles _ _ _ _ Hone) as [Hext (cj & Hsetj)].
    pose proof (settled_written _ _ _ _ _ Hsetj Hext') as Hwj.
    pose proof (settled_written _ _ _ _ _ Hset (ext_trans _ _ _ Hext Hext')) as Hwid.
    apply (IH w'); [|done|..].
    + eapply settled_step; [done..| |].
      * rewrite <-Hwj. apply Hnsrc. by left.
      * rewrite <-Hwj, <-Hwid. apply Halias. by left.
    + intros k Hk. apply Hnsrc. by right.
    + intros k Hk. apply Halias. by right.
Qed.

Lemma run_settles st ids w w1 :
  copy_files st ids w = (Ok tt, w1) →
  (∀ j k, j ∈ ids → k ∈ ids →
          location_of (written st (files w1) j) ≠ location_of (src_path st k)) →
  (∀ j k, j ∈ ids → k ∈ ids →
          location_of (written st (files w1) j) = location_of (written st (files w1) k) →
          location_of (src_path st j) = location_of (src_path st k)) →
  ∀ id, id ∈ ids → ∃ c, settled st (files w1) id c.
Proof.
  revert w. induction ids as [|j ids IH]; intros w.
  - intros _ _ _ id Hid. by apply elem_of_nil in Hid.
  - intros (w' & Hone & Hrest)%copy_files_cons_ok Hnsrc Halias id Hid.
    apply elem_of_cons in Hid as [->|Hid].
    + destruct (copy_one_settles _ _ _ _ Hone) as [_ (c & Hset)]. exists c.
      eapply settled_run; [done..| |].
      * intros k Hk. apply Hnsrc; [by right|by left].
      * intros k Hk. apply Halias; [by right|by left].
    + apply (IH w'); [done| | |done].
      * intros a b Ha Hb. apply Hnsrc; by right.
      * intros a b Ha Hb. apply Halias; by right.
Qed.

(** The Mirror on copies that are in place. *)
Lemma settled_noop st id c w :
  settled st (files w) id c →
  copy_one st id w = (Ok tt, World (files w) (events w ++ rerun_log st id)).
Proof.
  intros (Hdir & Hsrc & Hw & Hne). destruct w as [fs evs]. cbn [files events] in *.
  unfold copy_one, mbind, M_bind, bind. cbn [print lib_read lib_call files events].
  unfold mkdir_p, try_except, os_makedirs, lib_call. cbn [files events].
  fold (dst_path st id). fold (src_path st id).
  rewrite (makedirs_existing _ _ _ Hdir). cbn [raised].
  rewrite bool_decide_eq_true_2 by done. cbn [negb].
  unfold mbind, M_bind, bind, os_path_isdir. cbn [files events]. rewrite Hdir. cbn [negb].
  unfold mret, M_ret, ret, shutil_copy, lib_call. cbn [files events].
  unfold Lib.copy. fold (written_path fs (src_path st id) (dst_path st id)).
  fold (written st fs id).
  unfold Lib.samefile. rewrite Hsrc, Hw. rewrite bool_decide_eq_false_2 by done.
  apply read_file_entry in Hsrc as ->.
  unfold Fs.write_file. apply entry_resolve in Hw as Hw'. destruct Hw' as [-> ->].
  rewrite insert_id by by eapply entry_reg_lookup.
  cbn [raised]. unfold rerun_log. by rewrite <-!app_assoc.
Qed.

Lemma noop_run st ids w :
  (∀ id, id ∈ ids → ∃ c, settled st (files w) id c) →
  copy_files st ids w
  = (Ok tt, World (files w) (events w ++ flat_map (rerun_log st) ids)).
Proof.
  revert w. induction ids as [|id ids IH]; intros w Hall.
  - rewrite copy_files_nil. cbn. rewrite app_nil_r. by destruct w.
  - rewrite copy_files_cons. destruct (Hall id) as [c Hset]; [by left|].
    rewrite (settled_noop _ _ _ _ Hset). rewrite IH.
    + cbn [files events flat_map]. by rewrite <-app_assoc.
    + intros k Hk. apply Hall. by right.
Qed.

(** The copies of a run that succeeds. *)
Lemma copies_app a b : copies (a ++ b) = copies a ++ copies b.
Proof. apply omap_app. Qed.

Lemma copy_one_copies st id w w' :
  copy_one st id w = (Ok tt, w') →
  ∃ evs, events w' = events w ++ evs ∧ copies evs = [targets st id].
Proof.
  unfold copy_one, mbind, M_bind, bind. cbn [print lib_read lib_call].
  unfold mkdir_p, try_except, os_makedirs, lib_call. cbn [files events].
  destruct (Lib.makedirs _ _ _) as [r1 fs1]. cbn [files events].
  destruct r1 as [[]|ex|]; [| |done].
  - unfold shutil_copy, lib_call. cbn [files events].
    destruct (Lib.copy _ _ _) as [r2 fs2]. intros [= -> <-]. cbn [events].
    eexists. rewrite <-!app_assoc. split; [done|]. done.
  - destruct ex as [e q|e q|a b]; cbn; [|done..].
    destruct (negb _); cbn; [done|].
    unfold mbind, M_bind, bind, os_path_isdir. cbn.
    destruct (negb _); cbn; [done|].
    unfold shutil_copy, lib_call. cbn [files events].
    destruct (Lib.copy _ _ _) as [r2 fs2]. intros [= -> <-]. cbn [events].
    eexists. rewrite <-!app_assoc. split; [done|]. done.
Qed.

Lemma copy_files_copies st ids w w' :
  copy_files st ids w = (Ok tt, w') →
  ∃ evs, events w' = events w ++ evs ∧ copies evs = map (targets st) ids.
Proof.
  revert w. induction ids as [|id ids IH]; intros w.
  - intros [= <-]. exists []. by rewrite app_nil_r.
  - intros (w1 & (evs1 & Hw1 & Hc1)%copy_one_copies
               & (evs2 & Hw2 & Hc2)%IH)%copy_files_cons_ok.
    exists (evs1 ++ evs2). rewrite Hw2, Hw1, app_assoc, copies_app, Hc1, Hc2. done.
Qed.

Lemma copies_rerun_log st ids :
  copies (flat_map (rerun_log st) ids) = map (targets st) ids.
Proof.
  induction ids as [|id ids IH]; [done|]. cbn [flat_map map]. by rewrite copies_app, IH.
Qed.

Lemma filter_perm {A} (f : A → bool) (l k : list A) :
  l ≡ₚ k → List.filter f l ≡ₚ List.filter f k.
Proof.
  induction 1 as [|x l k _ IH|x y l|l k m _ IH1 _ IH2]; cbn.
  - done.
  - destruct (f x); by rewrite IH.
  - destruct (f x), (f y); try done. apply perm_swap.
  - by rewrite IH1.
Qed.

Lemma mirrored_filter st order id :
  order ≡ₚ elements (processed_files st) →
  id ∈ List.filter file_is_from_aprinter order ↔ mirrored st id.
Proof.
  intros Hperm. unfold mirrored.
  by rewrite list_elem_of_In, filter_In, <-list_elem_of_In, Hperm, elem_of_elements.
Qed.

End Idem.

Import Idem.




Import Resolver.

Lemma closed_check fs src apr seeds :
  forallb (fun y => bool_decide (is_Some (content_of fs src apr y)))
    (elements (universe fs seeds)) = true →
  ∀ y, reachable fs src apr seeds y → is_Some (content_of fs src apr y).
Proof.
  rewrite forallb_forall. intros Hall y Hy%reachable_universe.
  apply elem_of_elements, list_elem_of_In, Hall in Hy.
  by apply bool_decide_eq_true in Hy.
Qed.

Lemma closure_exact_sample :
  (∃ r w', process_pending_files (seeded "/p/src" "/lib" {["foo.h"]}) sample_world r w')
  ∧ (∀ r w', process_pending_files (seeded "/p/src" "/lib" {["foo.h"]}) sample_world r w' →
       ∃ st', r = Ok st' ∧ pending_files st' = ∅
              ∧ (∀ y, y ∈ processed_files st' ↔
                      reachable sample_files "/p/src" "/lib" {["foo.h"]} y)
              ∧ {["foo.h"]} ⊆ processed_files st')
  ∧ (∀ r1 w1 r2 w2,
       process_pending_files (seeded "/p/src" "/lib" {["foo.h"]}) sample_world r1 w1 →
       process_pending_files (seeded "/p/src" "/lib" {["foo.h"]}) sample_world r2 w2 →
       ∃ st1 st2, r1 = Ok st1 ∧ r2 = Ok st2
                  ∧ processed_files st1 = processed_files st2).
Proof.
  apply (closure_exact "/p/src" "/lib" {["foo.h"]} sample_world).
  apply closed_check. vm_compute. reflexivity.
Defined.

Lemma sample_turns :
  turns (seeded "/p/src" "/lib" {["foo.h"]}) sample_world ["foo.h"]
    sample_turn_state sample_turn_world.
Proof.
  eapply turns_cons; [|vm_compute; reflexivity|apply turns_nil].
  by vm_compute.
Defined.

Lemma pending_processed_disjoint_sample :
  turns (seeded "/p/src" "/lib" {["foo.h"]}) sample_world ["foo.h"]
    sample_turn_state sample_turn_world
  ∧ disjoint_sets sample_turn_state
  ∧ NoDup ["foo.h"]
  ∧ processed_files sample_turn_state = list_to_set ["foo.h"].
Proof.
  split; [exact sample_turns|].
  pose proof (pending_processed_disjoint "/p/src" "/lib" {["foo.h"]} sample_world
                ["foo.h"] sample_turn_state sample_turn_world sample_turns)
    as (Hdis & _ & Hnd & Hproc & _).
  exact (conj Hdis (conj Hnd Hproc)).
Defined.

Lemma expansion_adds_library_paths_sample :
  turns (seeded "/p/src" "/lib" {["foo.h"]}) sample_world ["foo.h"]
    sample_turn_state sample_turn_world
  ∧ ∀ y, y ∈ processed_files sample_turn_state →
         origin_of y = ProjectOrigin → y ∈ ({["foo.h"]} : gset string).
Proof.
  split; [exact sample_turns|].
  exact (proj1 (proj2 (expansion_adds_library_paths "/p/src" "/lib" {["foo.h"]}
                         sample_world ["foo.h"] sample_turn_state sample_turn_world
                         sample_turns))).
Defined.

(** ** The scan of a file, line by line *)

Module Scan.
Import StrFacts ReFacts SplitFacts.

Lemma lines_app a b :
  lines (a +:+ String Re.newline b) = lines a ++ lines b.
Proof. apply (PathFacts.split_app_sep Re.newline a b). Qed.

Lemma directive_path_no_newline line p :
  no_newline line → directive line p → no_newline p.
Proof.
  unfold no_newline. intros Hline (n1 & n2 & n3 & n4 & rest & -> & _ & _).
  rewrite !contains_app in Hline. do 6 (apply orb_false_iff in Hline as [_ Hline]).
  by apply orb_false_iff in Hline as [? _].
Qed.

End Scan.

(** The paths found in two texts joined by a newline are those of the first
    followed by those of the second: the pattern works line by line, and a
    match never spans a newline. *)
Theorem scan_of_joined_texts a b :
  Re.finditer_group1 include_regex (a +:+ String Re.newline b)
  = Re.finditer_group1 include_regex a ++ Re.finditer_group1 include_regex b.
Proof. by rewrite !ReFacts.finditer_lines, Scan.lines_app, omap_app. Qed.

(** Every path the include pattern finds in a text is classified as a
    library path by [file_is_from_aprinter], has more than the nine
    characters of [aprinter/], and has no newline in it. *)
Theorem found_paths_are_library content p :
  p ∈ Re.finditer_group1 include_regex content →
  file_is_from_aprinter p = true
  ∧ 9 < String.length p
  ∧ PyStr.contains Re.newline p = false.
Proof.
  intros (line & Hline & Hdir)%ReFacts.elem_of_finditer.
  pose proof (ReFacts.lines_no_newline content) as Hall.
  rewrite Forall_forall in Hall. apply Hall in Hline.
  pose proof (Scan.directive_path_no_newline _ _ Hline Hdir) as Hp.
  destruct Hdir as (n1 & n2 & n3 & n4 & rest & _ & -> & Hrest).
  split; [by apply file_is_from_aprinter_spec; exists rest|]. split; [|done].
  rewrite StrFacts.length_app. destruct rest; [done|]. cbn. lia.
Qed.

Lemma found_paths_are_library_sample :
  "aprinter/baz.h" ∈ Re.finditer_group1 include_regex
                       ("#include <aprinter/baz.h>" +:+ nl +:+ "#include <vector>" +:+ nl)
  ∧ file_is_from_aprinter "aprinter/baz.h" = true
  ∧ 9 < String.length "aprinter/baz.h"
  ∧ PyStr.contains Re.newline "aprinter/baz.h" = false.
Proof.
  assert (Hin : "aprinter/baz.h" ∈ Re.finditer_group1 include_regex
                  ("#include <aprinter/baz.h>" +:+ nl +:+ "#include <vector>" +:+ nl)).
  { vm_compute. by left. }
  split; [exact Hin|]. exact (found_paths_are_library _ _ Hin).
Defined.

(** ** Reading the files *)

Module Reading.
Import Resolver.

Lemma loop_body_log x st w r w' :
  loop_body x st w = (r, w') →
  files w' = files w
  ∧ events w' = events w
      ++ [Event (CallOpenRead (full_path (src_dir st) (aprinter_dir st) x)) (raised r)]
  ∧ match r with
    | Ok st' => src_dir st' = src_dir st ∧ aprinter_dir st' = aprinter_dir st
    | Raise e =>
        ∃ err, Fs.read_file (files w) (full_path (src_dir st) (aprinter_dir st) x) = inl err
               ∧ e = IOError err (full_path (src_dir st) (aprinter_dir st) x)
    | NoFuel => False
    end.
Proof.
  unfold loop_body. rewrite process_file_eq. cbn [src_dir aprinter_dir processed_add
    popped set_pending set_processed].
  destruct (Fs.read_file _ _) as [err|c] eqn:Hread; intros [= <- <-]; cbn.
  - split; [done|]. split; [done|]. by exists err.
  - split; [done|]. split; [done|].
    by destruct (scan_fields (processed_add x (popped x st))
                   (Re.finditer_group1 (state_include_regex st) c)) as (-> & -> & _).
Qed.

Lemma turns_log st w tr st' w' :
  turns st w tr st' w' →
  files w' = files w
  ∧ src_dir st' = src_dir st ∧ aprinter_dir st' = aprinter_dir st
  ∧ events w' = events w
      ++ map (fun x => Event (CallOpenRead (full_path (src_dir st) (aprinter_dir st) x))
                         None) tr.
Proof.
  induction 1 as [st w|st w x st1 w1 tr st' w' _ Hbody _ IH].
  - by rewrite app_nil_r.
  - destruct (loop_body_log _ _ _ _ _ Hbody) as (Hf & He & Hs & Ha).
    destruct IH as (IHf & IHs & IHa & IHe).
    rewrite IHf, IHs, IHa, IHe, Hf, Hs, Ha, He, <-app_assoc. done.
Qed.

End Reading.



(** A sequence of turns of the resolution loop writes nothing, and its log is
    one successful [open] for each popped identifier, in the order of the
    pops, each of the path under the tree the identifier's origin selects. *)
Theorem resolution_opens_popped_files st w tr st' w' :
  turns st w tr st' w' →
  files w' = files w
  ∧ src_dir st' = src_dir st ∧ aprinter_dir st' = aprinter_dir st
  ∧ events w' = events w
      ++ map (fun x => Event (CallOpenRead (full_path (src_dir st) (aprinter_dir st) x))
                         None) tr.
Proof. apply Reading.turns_log. Qed.

Lemma resolution_opens_popped_files_sample :
  turns (seeded "/p/src" "/lib" {["foo.h"]}) sample_world ["foo.h"]
    sample_turn_state sample_turn_world
  ∧ files sample_turn_world = files sample_world
  ∧ events sample_turn_world = [Event (CallOpenRead "/p/src/foo.h") None].
Proof.
  split; [exact sample_turns|].
  pose proof (resolution_opens_popped_files _ _ _ _ _ sample_turns) as (Hf & _ & _ & He).
  exact (conj Hf He).
Defined.



(** ** The seeding walk *)

Module Walk.

Lemma seeding_step_refl st w : seeding_step st w (Ok st, w).
Proof. split; [done|]. cbn. split_and!; try done. intros y Hy. by left. Qed.

Lemma seeding_step_trans st w st1 w1 rw :
  seeding_step st w (Ok st1, w1) → seeding_step st1 w1 rw → seeding_step st w rw.
Proof.
  intros [Hf H1] [Hf' H2]. cbn in Hf, H1. split; [congruence|].
  destruct rw as [[st2| |] w2]; cbn in *; try done.
  destruct H1 as (? & ? & ? & ? & Hsub & Hh), H2 as (? & ? & ? & ? & Hsub' & Hh').
  split_and!; try congruence.
  - set_solver.
  - intros y [Hy|Hy]%Hh'; [by apply Hh|by right].
Qed.

Lemma seeding_step_bind {A} st w (m : M A) (k : A → M state) :
  (∀ r w', m w = (r, w') → files w' = files w) →
  (∀ a w', m w = (Ok a, w') → seeding_step st w' (k a w')) →
  seeding_step st w ((m ≫= k) w).
Proof.
  intros Hm Hk. unfold mbind, M_bind, bind.
  destruct (m w) as [[a|e|] w1] eqn:Hmw.
  - destruct (Hk a w1 eq_refl) as [Hf H]. split; [|done].
    rewrite Hf. by eapply Hm.
  - split; [|done]. by eapply Hm.
  - split; [|done]. by eapply Hm.
Qed.

Lemma seeding_step_for_each {A} (xs : list A) (body : state → A → M state) st w :
  (∀ st1 w1 x, x ∈ xs → seeding_step st1 w1 (body st1 x w1)) →
  seeding_step st w (for_each xs st body w).
Proof.
  revert st w. induction xs as [|x xs IH]; intros st w Hbody; cbn [for_each].
  - apply seeding_step_refl.
  - unfold mbind, M_bind, bind.
    pose proof (Hbody st w x ltac:(by left)) as Hx.
    destruct (body st x w) as [[st1|e|] w1] eqn:Hb; [|done..].
    eapply seeding_step_trans; [done|]. apply IH. intros st2 w2 y Hy. apply Hbody. by right.
Qed.

Lemma collect_files_step fuel st dir_path w :
  seeding_step st w (collect_files fuel st dir_path w).
Proof.
  revert st dir_path w. induction fuel as [|fuel IH]; intros st dir_path w; cbn.
  - done.
  - destruct (String.eqb dir_path "aprinter"); [apply seeding_step_refl|].
    apply seeding_step_bind.
    + intros r w'. rewrite Seeding.os_listdir_eq. by intros [= _ <-].
    + intros names w1 _. apply seeding_step_for_each. intros st1 w2 name _.
      apply seeding_step_bind.
      * intros r w'. rewrite Seeding.os_stat_eq. by intros [= _ <-].
      * intros mode w3 _. destruct (Lib.S_ISDIR mode); [apply IH|].
        destruct (Lib.S_ISREG mode); [|apply seeding_step_refl].
        destruct (PyStr.endswith _ ".h") eqn:Hh; [|apply seeding_step_refl].
        split; [done|]. cbn. split_and!; try done; [set_solver|].
        intros y [->%elem_of_singleton|Hy]%elem_of_union; [by right|by left].
Qed.

End Walk.

(** [collect_files] writes no file, whatever it walks and however it ends.
    When it returns, the processed set and the directories of the state are
    as before, and the pending set has its former paths and beyond them only
    paths that end in [.h]. *)
Theorem collect_files_only_adds_headers fuel st dir_path w r w' :
  collect_files fuel st dir_path w = (r, w') →
  files w' = files w
  ∧ ∀ st', r = Ok st' →
      src_dir st' = src_dir st ∧ aprinter_dir st' = aprinter_dir st
      ∧ processed_files st' = processed_files st
      ∧ pending_files st ⊆ pending_files st'
      ∧ ∀ y, y ∈ pending_files st' →
             y ∈ pending_files st ∨ PyStr.endswith y ".h" = true.
Proof.
  intros Hrun. pose proof (Walk.collect_files_step fuel st dir_path w) as [Hf H].
  rewrite Hrun in Hf, H. cbn in Hf, H. split; [done|]. intros st' ->.
  destruct H as (? & ? & ? & ? & ? & ?). done.
Qed.

Lemma collect_files_only_adds_headers_sample :
  collect_files 5 (initial_state "/p" "/lib") "" sample_world
  = (Ok (seeded "/p/src" "/lib" {["foo.h"]}),
     World sample_files
       [Event (CallListdir "/p/src/") None; Event (CallStat "/p/src/foo.h") None])
  ∧ ∀ y, y ∈ ({["foo.h"]} : gset string) →
         y ∈ (∅ : gset string) ∨ PyStr.endswith y ".h" = true.
Proof.
  assert (Hrun : collect_files 5 (initial_state "/p" "/lib") "" sample_world
            = (Ok (seeded "/p/src" "/lib" {["foo.h"]}),
               World sample_files
                 [Event (CallListdir "/p/src/") None;
                  Event (CallStat "/p/src/foo.h") None])) by (vm_compute; reflexivity).
  split; [exact Hrun|].
  destruct (collect_files_only_adds_headers _ _ _ _ _ _ Hrun) as [_ H].
  destruct (H _ eq_refl) as (_ & _ & _ & _ & Hh). exact Hh.
Defined.

(** ** The phases of the script *)

Module Phases.
Import PathFacts FsFacts Idem.

Lemma src_dir_no_trailing_slash a : PyStr.endswith (PosixPath.join a "src") "/" = false.
Proof.
  unfold PosixPath.join. cbn [PyStr.startswith].
  assert (Hstart : PyStr.startswith "src" "/" = false) by done. rewrite Hstart.
  destruct (_ || _).
  - by rewrite (Seeding.endswith_app_long a "src" "/") by (cbn; lia).
  - rewrite <-StrFacts.app_assoc.
    by rewrite (Seeding.endswith_app_long (a +:+ "/") "src" "/") by (cbn; lia).
Qed.

Lemma src_dir_nonempty a : PosixPath.join a "src" ≠ "".
Proof.
  unfold PosixPath.join. assert (Hstart : PyStr.startswith "src" "/" = false) by done.
  rewrite Hstart. destruct (_ || _); by destruct a.
Qed.

Lemma join_empty_name s :
  s ≠ "" → PyStr.endswith s "/" = false → PosixPath.join s "" = s +:+ "/".
Proof.
  intros Hs Hend. unfold PosixPath.join. rewrite Hend, orb_false_r.
  apply String.eqb_neq in Hs. rewrite Hs. done.
Qed.

Lemma listdir_isdir fs s names :
  s ≠ "" → Lib.listdir fs (s +:+ "/") = inr names → Lib.path_isdir fs s = true.
Proof.
  intros Hs. unfold Lib.listdir. destruct (Fs.entry fs (s +:+ "/")) as [e|[l [c| |]]] eqn:Hentry;
    try done. intros _. apply entry_resolve in Hentry as [Hres Hnode].
  unfold Fs.resolve in Hres. destruct (String.eqb (s +:+ "/") ""); [done|].
  rewrite components_snoc_sep in Hres. apply (walk_empties _ _ _ 1) in Hres.
  apply (stat_isdir _ _ l); [|done]. unfold Fs.resolve.
  by destruct (String.eqb_spec s "").
Qed.

Lemma main_phases fuel a b w r w' :
  main fuel a b w r w' →
  (∃ st2 w2, files w2 = files w
             ∧ src_dir st2 = PosixPath.join a "src" ∧ aprinter_dir st2 = b
             ∧ pending_files st2 = ∅
             ∧ copy_aprinter_files st2 w2 r w')
  ∨ (files w' = files w ∧ r ≠ Ok tt).
Proof.
  unfold main.
  pose proof (Walk.collect_files_step fuel (initial_state a b) "" w) as [Hf H].
  destruct (collect_files _ _ _ _) as [[st1|e|] w1]; cbn in Hf, H.
  - intros (r2 & w2 & Hrun & Hrest). destruct r2 as [st2|e|].
    + apply Resolver.process_pending_files_ok in Hrun as (tr & Hturns & Hempty).
      destruct (Reading.turns_log _ _ _ _ _ Hturns) as (Hf2 & Hs & Ha & _).
      destruct H as (Hs1 & Ha1 & _). cbn in Hs1, Ha1. left. exists st2, w2.
      split_and!; try done; [by rewrite Hf2|by rewrite Hs|by rewrite Ha].
    + destruct Hrest as [-> ->]. right. split; [|done].
      apply Resolver.process_pending_files_raise in Hrun
        as (tr & st3 & w3 & x & Hturns & _ & Hbody).
      destruct (Reading.turns_log _ _ _ _ _ Hturns) as (Hf2 & _).
      destruct (Reading.loop_body_log _ _ _ _ _ Hbody) as (Hf3 & _). congruence.
    + by apply Resolver.process_pending_files_answers in Hrun.
  - intros [-> ->]. by right.
  - intros [-> ->]. by right.
Qed.

End Phases.

(** The script writes only in its last phase.  A run either seeded and
    resolved without writing any file, ended the resolution with an empty
    pending set and then ran the Mirror, or it ended before the Mirror with
    an exception, and then every file is as it was. *)
Theorem main_writes_only_in_mirror fuel a b w r w' :
  main fuel a b w r w' →
  (∃ st2 w2, files w2 = files w
             ∧ src_dir st2 = PosixPath.join a "src" ∧ aprinter_dir st2 = b
             ∧ pending_files st2 = ∅
             ∧ copy_aprinter_files st2 w2 r w')
  ∨ (files w' = files w ∧ r ≠ Ok tt).
Proof. apply Phases.main_phases. Qed.

Lemma main_writes_only_in_mirror_sample :
  ∃ w', main 5 "/p" "/lib" sample_world (Ok tt) w'
        ∧ ∃ st2 w2, files w2 = files sample_world
                    ∧ pending_files st2 = ∅
                    ∧ copy_aprinter_files st2 w2 (Ok tt) w'.
Proof.
  eexists. split.
  - apply Errors.main_first_run; [vm_compute; reflexivity|done].
  - refine (match main_writes_only_in_mirror 5 "/p" "/lib" sample_world (Ok tt) _ _ with
            | or_introl (ex_intro _ st2 (ex_intro _ w2 H)) =>
                ex_intro _ st2 (ex_intro _ w2
                  (conj (proj1 H) (conj (proj1 (proj2 (proj2 (proj2 H))))
                                        (proj2 (proj2 (proj2 (proj2 H)))))))
            | or_intror H => match proj2 H eq_refl with end
            end).
    apply Errors.main_first_run; [vm_compute; reflexivity|done].
Defined.

(** When the source directory of the project is not an existing directory,
    the script ends at its first call: [os.listdir] of the source directory
    (with the slash that joining the empty path adds) raises an [OSError],
    which is the outcome of the run, and nothing else is called or written. *)
Theorem main_fails_without_source_dir fuel a b w r w' :
  Lib.path_isdir (files w) (PosixPath.join a "src") = false →
  main (S fuel) a b w r w' →
  ∃ e, r = Raise (OSError e (PosixPath.join a "src" +:+ "/"))
       ∧ w' = World (files w)
                (events w ++ [Event (CallListdir (PosixPath.join a "src" +:+ "/"))
                                (Some (OSError e (PosixPath.join a "src" +:+ "/")))]).
Proof.
  intros Hdir. unfold main. cbn [collect_files initial_state src_dir].
  assert (Heqb : String.eqb "" "aprinter" = false) by done. rewrite Heqb.
  rewrite (Phases.join_empty_name _ (Phases.src_dir_nonempty a)
             (Phases.src_dir_no_trailing_slash a)).
  unfold mbind, M_bind, bind. rewrite Seeding.os_listdir_eq.
  destruct (Lib.listdir _ _) as [e|names] eqn:Hls.
  - cbn. intros [-> ->]. by exists e.
  - apply Phases.listdir_isdir in Hls; [congruence|apply Phases.src_dir_nonempty].
Qed.

Lemma main_fails_without_source_dir_sample :
  Lib.path_isdir (files sample_world) (PosixPath.join "/lib" "src") = false
  ∧ ∃ r w', main 5 "/lib" "/lib" sample_world r w'
            ∧ ∃ e, r = Raise (OSError e "/lib/src/").
Proof.
  split; [reflexivity|]. eexists. eexists. split.
  - apply Errors.main_first_run; [vm_compute; reflexivity|done].
  - destruct (main_fails_without_source_dir 4 "/lib" "/lib" sample_world _ _ eq_refl
                (Errors.main_first_run 5 "/lib" "/lib" sample_world _ _ eq_refl
                   ltac:(done))) as (e & Hr & _).
    exists e. exact Hr.
Defined.

(** ** Making directories *)

Module Makedirs.
Import PathFacts FsFacts Mirror Idem.

(** When the path leads somewhere, [os.makedirs] has no parent to make. *)
Lemma makedirs_resolved fuel fs name l :
  Fs.resolve fs name = inr l → Lib.makedirs (S fuel) fs name = Lib.os_mkdir fs name.
Proof.
  intros Hres. cbn [Lib.makedirs]. pose proof (split_head_isdir _ _ _ Hres) as Hhead.
  destruct (PosixPath.split name) as [head tail]. cbn [fst] in Hhead.
  assert (Hcond : ∀ h t, h = "" ∨ Lib.path_isdir fs h = true →
            negb (String.eqb h "") && negb (String.eqb t "")
            && negb (Lib.path_exists fs h) = false).
  { intros h t [->|Hh%isdir_exists]; [done|]. rewrite Hh. by rewrite andb_false_r. }
  destruct (String.eqb tail "").
  - destruct Hhead as [->|Hhead]; [done|].
    pose proof Hhead as [l' [Hres' _]%entry_resolve]%isdir_entry.
    pose proof (split_head_isdir _ _ _ Hres') as Hhead'.
    destruct (PosixPath.split head) as [head' tail']. cbn [fst] in Hhead'.
    by rewrite (Hcond _ _ Hhead').
  - by rewrite (Hcond _ _ Hhead).
Qed.

Lemma mkdir_resolved fs name l :
  Fs.resolve fs name = inr l →
  Lib.os_mkdir fs name
  = match Fs.node_at fs l with
    | Some _ => (Raise (OSError Fs.EEXIST name), fs)
    | None => (Ok tt, <[l := Fs.Dir]> fs)
    end.
Proof.
  intros Hres. unfold Lib.os_mkdir, Fs.mkdir. unfold Fs.resolve in Hres.
  destruct (String.eqb name ""); [done|].
  apply walk_drop_trailing_empty in Hres. rewrite Hres.
  by destruct (Fs.node_at fs l).
Qed.

(** The recursion of [os.makedirs] is on a shorter path. *)
Lemma rstrip_length s : String.length (PosixPath.rstrip_slash s) ≤ String.length s.
Proof.
  induction s as [|c s IH]; cbn; [done|].
  destruct (PosixPath.rstrip_slash s); [|cbn in *; lia].
  destruct (Ascii.eqb c PosixPath.slash); cbn; lia.
Qed.

Lemma split_length p :
  String.length (PosixPath.split p).1 + String.length (PosixPath.split p).2
  ≤ String.length p.
Proof.
  unfold PosixPath.split. pose proof (cut_last_slash_spec p) as Hcut.
  destruct (PosixPath.cut_last_slash p) as [[h t]|].
  - destruct Hcut as (h' & -> & -> & _). rewrite StrFacts.length_app.
    pose proof (rstrip_length (h' +:+ "/")) as Hlen.
    destruct (PosixPath.rstrip_slash (h' +:+ "/")); cbn [fst snd] in *; lia.
  - cbn. lia.
Qed.

Lemma nonempty_length s : String.eqb s "" = false → 0 < String.length s.
Proof. destruct s; [done|]. cbn. lia. Qed.

Lemma makedirs_answers fuel fs name :
  String.length name < fuel → (Lib.makedirs fuel fs name).1 ≠ NoFuel.
Proof.
  revert fs name. induction fuel as [|fuel IH]; intros fs name Hlen; [lia|].
  cbn [Lib.makedirs]. pose proof (split_length name) as Hsplit.
  destruct (PosixPath.split name) as [head tail]. cbn [fst snd] in Hsplit.
  assert (Hmk : ∀ fs', (Lib.os_mkdir fs' name).1 ≠ NoFuel).
  { intros fs'. unfold Lib.os_mkdir. by destruct (Fs.mkdir fs' name). }
  assert (Hstep : ∀ h t, (String.eqb t "" = false → String.length h < fuel) →
            (if negb (String.eqb h "") && negb (String.eqb t "")
                && negb (Lib.path_exists fs h)
             then
               let after fs' :=
                 if String.eqb t "." then (Ok tt, fs') else Lib.os_mkdir fs' name in
               match Lib.makedirs fuel fs h with
               | (Ok _, fs') => after fs'
               | (Raise (OSError Fs.EEXIST _), fs') => after fs'
               | (Raise e, fs') => (Raise e, fs')
               | (NoFuel, fs') => (NoFuel, fs')
               end
             else Lib.os_mkdir fs name).1 ≠ NoFuel).
  { intros h t Hh. destruct (String.eqb t "") eqn:Ht.
    - rewrite andb_false_r. apply Hmk.
    - destruct (negb (String.eqb h "") && negb false && negb (Lib.path_exists fs h));
        [|apply Hmk].
      cbn zeta. pose proof (IH fs h (Hh eq_refl)) as Hrec.
      destruct (Lib.makedirs fuel fs h) as [[[]|[[] q|e q|a b]|] fs']; cbn in Hrec |- *;
        try done; destruct (String.eqb t "."); try done; apply Hmk. }
  destruct (String.eqb tail "") eqn:Htail.
  - pose proof (split_length head) as Hsplit'.
    destruct (PosixPath.split head) as [head' tail']. cbn [fst snd] in Hsplit'.
    apply Hstep. intros Ht'%nonempty_length. lia.
  - apply Hstep. intros _. apply nonempty_length in Htail. lia.
Qed.

Lemma mkdir_p_answers path w : (mkdir_p path w).1 ≠ NoFuel.
Proof.
  unfold mkdir_p, try_except, os_makedirs, lib_call.
  pose proof (makedirs_answers (S (String.length path)) (files w) path ltac:(lia)) as Hmk.
  destruct (Lib.makedirs _ _ _) as [[[]|ex|] fs1]; cbn in Hmk |- *; try done.
  destruct ex as [e q|e q|a b]; cbn; try done.
  destruct (negb _); cbn; [done|].
  unfold mbind, M_bind, bind, os_path_isdir. cbn. by destruct (negb _).
Qed.

Lemma copy_one_answers st id w : (copy_one st id w).1 ≠ NoFuel.
Proof.
  unfold copy_one, mbind, M_bind, bind. cbn [print lib_read lib_call].
  set (w0 := World (files w) _). pose proof (mkdir_p_answers
    (PosixPath.dirname (PosixPath.join (src_dir st) id)) w0) as Hmk.
  destruct (mkdir_p _ w0) as [[[]|e|] w1]; cbn in Hmk |- *; try done.
  unfold shutil_copy, lib_call. destruct (Lib.copy _ _ _) as [r fs2] eqn:Hcopy. cbn.
  intros ->. unfold Lib.copy in Hcopy.
  destruct (Lib.samefile _ _ _); [done|]. destruct (Fs.read_file _ _); [done|].
  by destruct (Fs.write_file _ _ _).
Qed.

Lemma copy_files_answers st ids w : (copy_files st ids w).1 ≠ NoFuel.
Proof.
  revert w. induction ids as [|id ids IH]; intros w; [done|].
  rewrite copy_files_cons. pose proof (copy_one_answers st id w) as Hone.
  destruct (copy_one st id w) as [[[]|e|] w1]; cbn in Hone |- *; try done.
Qed.

End Makedirs.

Module MirrorFacts.
Import PathFacts FsFacts Mirror Idem Makedirs.

Lemma mkdir_p_exists path w l n :
  Fs.entry (files w) path = inr (l, n) →
  mkdir_p path w
  = (if Lib.path_isdir (files w) path then Ok tt else Raise (OSError Fs.EEXIST path),
     World (files w)
       (events w ++ [Event (CallMakedirs path) (Some (OSError Fs.EEXIST path));
                     Event (CallIsdir path (Lib.path_isdir (files w) path)) None])).
Proof.
  intros [Hres Hnode]%entry_resolve.
  unfold mkdir_p, try_except, os_makedirs, lib_call.
  rewrite (makedirs_resolved _ _ _ _ Hres), (mkdir_resolved _ _ _ Hres), Hnode.
  cbn [raised]. rewrite bool_decide_eq_true_2 by done. cbn [negb].
  unfold mbind, M_bind, bind, os_path_isdir. cbn [files events].
  destruct (Lib.path_isdir (files w) path); cbn; by rewrite <-app_assoc.
Qed.

Lemma copy_keeps fs src dst r fs' : Lib.copy fs src dst = (r, fs') → ext fs fs'.
Proof.
  intros [[_ ->]|(c & _ & -> & _ & _ & Hwrite)]%copy_spec; [apply ext_refl|].
  apply write_file_spec in Hwrite as (_ & _ & Hnode). apply insert_reg_ext.
  destruct (location_of _) as [|x l]; [|done].
  cbn in Hnode. by destruct Hnode as [|[c0 ?]].
Qed.

Lemma copy_one_keeps st id w r w' : copy_one st id w = (r, w') → ext (files w) (files w').
Proof.
  unfold copy_one, mbind, M_bind, bind. cbn [print lib_read lib_call].
  set (w0 := World (files w) _).
  destruct (mkdir_p _ w0) as [r1 w1] eqn:Hmk.
  apply mkdir_p_grows, grows_ext in Hmk. cbn in Hmk.
  destruct r1 as [[]|e|]; [|by intros [= _ <-]..].
  unfold shutil_copy, lib_call. destruct (Lib.copy _ _ _) as [r2 fs2] eqn:Hcopy.
  intros [= _ <-]. cbn. eapply ext_trans; [done|]. by eapply copy_keeps.
Qed.

Lemma copy_files_keeps st ids w r w' :
  copy_files st ids w = (r, w') → ext (files w) (files w').
Proof.
  revert w. induction ids as [|id ids IH]; intros w.
  - intros [= _ <-]. apply ext_refl.
  - rewrite copy_files_cons. destruct (copy_one st id w) as [r1 w1] eqn:Hone.
    apply copy_one_keeps in Hone.
    destruct r1 as [[]|e|]; [|by intros [= _ <-]..].
    intros Hrest%IH. by eapply ext_trans.
Qed.

Lemma os_mkdir_oserror fs path ex fs' :
  Lib.os_mkdir fs path = (Raise ex, fs') → ∃ e q, ex = OSError e q.
Proof.
  unfold Lib.os_mkdir. destruct (Fs.mkdir fs path) as [e|fs1]; [|done].
  intros [= <- _]. eauto.
Qed.

Lemma makedirs_oserror fuel fs name ex fs' :
  Lib.makedirs fuel fs name = (Raise ex, fs') → ∃ e q, ex = OSError e q.
Proof.
  revert fs name ex fs'. induction fuel as [|fuel IH]; intros fs name ex fs'; cbn; [done|].
  destruct (PosixPath.split name) as [head tail].
  destruct (if String.eqb tail "" then PosixPath.split head else (head, tail))
    as [head' tail'].
  destruct (negb _ && negb _ && negb _); [|apply os_mkdir_oserror].
  destruct (Lib.makedirs fuel fs head') as [r1 fs1] eqn:Hrec.
  assert (Hafter : (if String.eqb tail' "." then (Ok tt, fs1) else Lib.os_mkdir fs1 name)
                   = (Raise ex, fs') → ∃ e q, ex = OSError e q).
  { destruct (String.eqb tail' "."); [done|apply os_mkdir_oserror]. }
  destruct r1 as [[]|[[] q|e q|a b]|]; try done;
    intros [= <- _]; by apply IH in Hrec.
Qed.

Lemma mkdir_p_oserror path w ex w' :
  mkdir_p path w = (Raise ex, w') → ∃ e q, ex = OSError e q.
Proof.
  unfold mkdir_p, try_except, os_makedirs, lib_call.
  destruct (Lib.makedirs _ _ _) as [r1 fs1] eqn:Hmk.
  destruct r1 as [[]|ex1|]; [done| |done].
  apply makedirs_oserror in Hmk as (e & q & ->). cbn.
  destruct (negb _); cbn; [intros [= <- _]; eauto|].
  unfold mbind, M_bind, bind, os_path_isdir. cbn.
  destruct (negb _); cbn; [intros [= <- _]; eauto|done].
Qed.

Lemma read_samefile fs path c :
  Fs.read_file fs path = inr c → Lib.samefile fs path path = true.
Proof.
  unfold Fs.read_file, Lib.samefile. destruct (Fs.entry fs path) as [e|[l n]]; [done|].
  intros _. by apply bool_decide_eq_true_2.
Qed.

Lemma copy_source_error fs src dst e fs' :
  Lib.copy fs src dst = (Raise (IOError e src), fs') →
  fs' = fs ∧ Fs.read_file fs src = inl e.
Proof.
  unfold Lib.copy.
  destruct (Lib.samefile fs src _) eqn:Hsame; [done|].
  destruct (Fs.read_file fs src) as [e1|c] eqn:Hread; [by intros [= -> <-]|].
  destruct (Fs.write_file _ _ _) as [e1|fs1]; [|done].
  intros [= _ Hdst _]. rewrite Hdst in Hsame.
  by rewrite (read_samefile _ _ _ Hread) in Hsame.
Qed.

Lemma copy_one_source_error st id w e w' :
  copy_one st id w
  = (Raise (IOError e (PosixPath.join (aprinter_dir st) id)), w') →
  Fs.read_file (files w') (PosixPath.join (aprinter_dir st) id) = inl e
  ∧ grows (files w) (files w').
Proof.
  unfold copy_one, mbind, M_bind, bind. cbn [print lib_read lib_call].
  set (w0 := World (files w) _).
  destruct (mkdir_p _ w0) as [r1 w1] eqn:Hmk.
  pose proof (mkdir_p_grows _ _ _ _ Hmk) as Hgrows. cbn in Hgrows.
  destruct r1 as [[]|e1|]; [| |done].
  - unfold shutil_copy, lib_call. destruct (Lib.copy _ _ _) as [r2 fs2] eqn:Hcopy.
    intros [= -> <-]. cbn. apply copy_source_error in Hcopy as [-> Hread]. done.
  - intros [= -> _]. by apply mkdir_p_oserror in Hmk as (e2 & q & [=]).
Qed.

Lemma filter_none {A} (f : A → bool) (l : list A) :
  (∀ x, x ∈ l → f x = false) → List.filter f l = [].
Proof.
  induction l as [|x l IH]; intros Hall; cbn; [done|].
  rewrite (Hall x) by by left. apply IH. intros y Hy. apply Hall. by right.
Qed.

End MirrorFacts.

(** [mkdir_p] of a path that is an existing directory returns normally and
    changes nothing: [os.makedirs] raises [EEXIST], [os.path.isdir] answers
    true, and the exception is dropped. *)
Theorem mkdir_p_existing_directory path w :
  Lib.path_isdir (files w) path = true →
  mkdir_p path w
  = (Ok tt,
     World (files w)
       (events w ++ [Event (CallMakedirs path) (Some (OSError Fs.EEXIST path));
                     Event (CallIsdir path true) None])).
Proof.
  intros Hdir. pose proof Hdir as [l Hentry]%Idem.isdir_entry.
  by rewrite (MirrorFacts.mkdir_p_exists _ _ _ _ Hentry), Hdir.
Qed.

Lemma mkdir_p_existing_directory_sample :
  Lib.path_isdir (files sample_world) "/lib/aprinter" = true
  ∧ mkdir_p "/lib/aprinter" sample_world
    = (Ok tt,
       World sample_files
         [Event (CallMakedirs "/lib/aprinter") (Some (OSError Fs.EEXIST "/lib/aprinter"));
          Event (CallIsdir "/lib/aprinter" true) None]).
Proof.
  split; [reflexivity|].
  exact (mkdir_p_existing_directory "/lib/aprinter" sample_world eq_refl).
Defined.

(** [mkdir_p] of a path that names an existing entry that is not a directory
    raises the [OSError] with [EEXIST] of [os.makedirs], after
    [os.path.isdir] answered false, and changes nothing. *)
Theorem mkdir_p_existing_file path w l n :
  Fs.entry (files w) path = inr (l, n) → n ≠ Fs.Dir →
  mkdir_p path w
  = (Raise (OSError Fs.EEXIST path),
     World (files w)
       (events w ++ [Event (CallMakedirs path) (Some (OSError Fs.EEXIST path));
                     Event (CallIsdir path false) None])).
Proof.
  intros Hentry Hn. rewrite (MirrorFacts.mkdir_p_exists _ _ _ _ Hentry).
  unfold Lib.path_isdir, Lib.stat. rewrite Hentry. by destruct n.
Qed.

Lemma mkdir_p_existing_file_sample :
  mkdir_p "/p/src/foo.h" sample_world
  = (Raise (OSError Fs.EEXIST "/p/src/foo.h"),
     World sample_files
       [Event (CallMakedirs "/p/src/foo.h") (Some (OSError Fs.EEXIST "/p/src/foo.h"));
        Event (CallIsdir "/p/src/foo.h" false) None]).
Proof.
  refine (mkdir_p_existing_file "/p/src/foo.h" sample_world ["p"; "src"; "foo.h"]
            (Fs.Reg ("#include <aprinter/bar.h>" +:+ nl)) _ _).
  - reflexivity.
  - discriminate.
Defined.

(** Whatever its outcome, [mkdir_p] only makes directories: every entry of
    the file system is afterwards as it was, and every new entry is a
    directory. *)
Theorem mkdir_p_only_makes_directories path w r w' :
  mkdir_p path w = (r, w') →
  ∀ l, files w' !! l = files w !! l
       ∨ (files w !! l = None ∧ files w' !! l = Some Fs.Dir).
Proof. apply Mirror.mkdir_p_grows. Qed.

Lemma mkdir_p_only_makes_directories_sample :
  ∃ w', mkdir_p "/p/src/aprinter/sub" sample_world = (Ok tt, w')
        ∧ files w' !! ["p"; "src"; "aprinter"; "sub"] = Some Fs.Dir
        ∧ ∀ l, files w' !! l = files sample_world !! l
               ∨ (files sample_world !! l = None ∧ files w' !! l = Some Fs.Dir).
Proof.
  eexists. split; [vm_compute; reflexivity|]. split; [by vm_compute|].
  apply (mkdir_p_only_makes_directories "/p/src/aprinter/sub" sample_world (Ok tt)).
  vm_compute. reflexivity.
Defined.

(** The Mirror always comes to an end: the recursion of [os.makedirs] is on
    ever shorter paths, so no run of the Mirror is cut off by the bound on
    the depth of that recursion. *)
Theorem mirror_answers st w r w' :
  copy_aprinter_files st w r w' → r ≠ NoFuel.
Proof.
  intros (order & _ & Hrun) ->.
  by apply (Makedirs.copy_files_answers st (List.filter file_is_from_aprinter order) w);
    rewrite Hrun.
Qed.

Lemma mirror_answers_sample :
  ∃ r w', copy_aprinter_files sample_resolved_state sample_world r w' ∧ r ≠ NoFuel.
Proof.
  assert (Hrun : ∃ r w', copy_aprinter_files sample_resolved_state sample_world r w').
  { eexists. eexists. exists (elements (processed_files sample_resolved_state)).
    split; [done|]. vm_compute. reflexivity. }
  destruct Hrun as (r & w' & Hrun). exists r, w'. split; [exact Hrun|].
  exact (mirror_answers _ _ _ _ Hrun).
Defined.

(** When no processed identifier is a library path, the Mirror does nothing:
    it returns normally without a call and without a change. *)
Theorem mirror_nothing_to_copy st w r w' :
  (∀ id, id ∈ processed_files st → file_is_from_aprinter id = false) →
  copy_aprinter_files st w r w' → r = Ok tt ∧ w' = w.
Proof.
  intros Hall (order & Hperm & Hrun). rewrite MirrorFacts.filter_none in Hrun.
  - by injection Hrun as <- <-.
  - intros id Hid. apply Hall. by rewrite Hperm, elem_of_elements in Hid.
Qed.

Lemma mirror_nothing_to_copy_sample :
  ∃ r w', copy_aprinter_files (State "/p/src" "/lib" ∅ {["foo.h"; "main.h"]} include_regex)
            sample_world r w'
          ∧ r = Ok tt ∧ w' = sample_world.
Proof.
  assert (Hrun : ∃ r w', copy_aprinter_files
                           (State "/p/src" "/lib" ∅ {["foo.h"; "main.h"]} include_regex)
                           sample_world r w').
  { eexists. eexists.
    exists (elements (processed_files
                        (State "/p/src" "/lib" ∅ {["foo.h"; "main.h"]} include_regex))).
    split; [done|]. vm_compute. reflexivity. }
  destruct Hrun as (r & w' & Hrun). exists r, w'. split; [exact Hrun|].
  refine (mirror_nothing_to_copy _ _ _ _ _ Hrun).
  intros id Hid. cbn [processed_files] in Hid.
  apply elem_of_union in Hid as [->%elem_of_singleton | ->%elem_of_singleton];
    reflexivity.
Defined.

(** The Mirror removes nothing and turns no entry into one of another kind,
    however it ends: every entry of the file system is still there
    afterwards, a directory as a directory and a regular file as a regular
    file. *)
Theorem mirror_keeps_entries st w r w' :
  copy_aprinter_files st w r w' →
  ∀ l n, files w !! l = Some n →
         ∃ n', files w' !! l = Some n' ∧ Lib.mode_of n' = Lib.mode_of n.
Proof. intros (order & _ & Hrun). by eapply MirrorFacts.copy_files_keeps. Qed.

Lemma mirror_keeps_entries_sample :
  ∃ r w', copy_aprinter_files sample_resolved_state sample_world r w'
          ∧ ∀ l n, files sample_world !! l = Some n →
                   ∃ n', files w' !! l = Some n' ∧ Lib.mode_of n' = Lib.mode_of n.
Proof.
  assert (Hrun : ∃ r w', copy_aprinter_files sample_resolved_state sample_world r w').
  { eexists. eexists. exists (elements (processed_files sample_resolved_state)).
    split; [done|]. vm_compute. reflexivity. }
  destruct Hrun as (r & w' & Hrun). exists r, w'. split; [exact Hrun|].
  exact (mirror_keeps_entries _ _ _ _ Hrun).
Defined.

(** A step of the Mirror that ends with the [IOError] of its library file
    has written no file: the library file cannot be read, the directories
    [mkdir_p] made may be new, and every other entry is as it was.  The
    source is opened before the destination, so a destination is not
    truncated when its source cannot be read. *)
Theorem source_error_writes_no_file st id w e w' :
  copy_one st id w
  = (Raise (IOError e (PosixPath.join (aprinter_dir st) id)), w') →
  Fs.read_file (files w') (PosixPath.join (aprinter_dir st) id) = inl e
  ∧ ∀ l, files w' !! l = files w !! l
         ∨ (files w !! l = None ∧ files w' !! l = Some Fs.Dir).
Proof. apply MirrorFacts.copy_one_source_error. Qed.

Lemma source_error_writes_no_file_sample :
  ∃ w', copy_one sample_resolved_state "aprinter/gone.h" sample_world
        = (Raise (IOError Fs.ENOENT "/lib/aprinter/gone.h"), w')
        ∧ files w' !! ["p"; "src"; "aprinter"] = Some Fs.Dir
        ∧ Fs.read_file (files w') "/lib/aprinter/gone.h" = inl Fs.ENOENT
        ∧ ∀ l, files w' !! l = files sample_world !! l
               ∨ (files sample_world !! l = None ∧ files w' !! l = Some Fs.Dir).
Proof.
  eexists. split; [vm_compute; reflexivity|]. split; [by vm_compute|].
  apply (source_error_writes_no_file sample_resolved_state "aprinter/gone.h" sample_world).
  vm_compute. reflexivity.
Defined.

(** ** Paths made of names *)

Module Names.
Import PathFacts FsFacts Mirror Idem Makedirs.

Lemma cut_last_slash_name n :
  PyStr.contains PosixPath.slash n = false → PosixPath.cut_last_slash n = None.
Proof.
  intros Hn. pose proof (cut_last_slash_spec n) as Hspec.
  destruct (PosixPath.cut_last_slash n) as [[h t]|]; [|done].
  destruct Hspec as (h' & -> & -> & _).
  rewrite StrFacts.app_assoc, StrFacts.contains_app in Hn.
  by apply orb_false_iff in Hn as [_ Hn].
Qed.

Lemma cut_last_slash_app z n :
  PyStr.contains PosixPath.slash n = false →
  PosixPath.cut_last_slash (z +:+ String PosixPath.slash n)
  = Some (z +:+ String PosixPath.slash "", n).
Proof.
  intros Hn. induction z as [|c z IH].
  - cbn. by rewrite (cut_last_slash_name _ Hn), Ascii.eqb_refl.
  - rewrite !StrFacts.app_cons. cbn [PosixPath.cut_last_slash]. by rewrite IH.
Qed.

Lemma rstrip_nonempty s :
  s ≠ "" → PyStr.endswith s "/" = false → PosixPath.rstrip_slash s = s.
Proof.
  induction s as [|c s IH]; [done|]. intros _ Hend. cbn.
  destruct s as [|d s].
  - cbn. destruct (Ascii.eqb_spec c PosixPath.slash) as [->|_]; done.
  - rewrite IH; [done|done|]. cbn in Hend |- *.
    by apply orb_false_iff in Hend as [_ Hend].
Qed.

Lemma rstrip_snoc_slash s : PosixPath.rstrip_slash (s +:+ "/") = PosixPath.rstrip_slash s.
Proof.
  induction s as [|c s IH]; [done|]. cbn. rewrite IH. done.
Qed.

(** [posixpath.split] undoes [posixpath.join] of a directory and a name. *)
Lemma split_app_name z n :
  z ≠ "" → PyStr.endswith z "/" = false → PyStr.contains PosixPath.slash n = false →
  PosixPath.split (z +:+ "/" +:+ n) = (z, n).
Proof.
  intros Hz Hend Hn. unfold PosixPath.split.
  change (z +:+ "/" +:+ n) with (z +:+ String PosixPath.slash n).
  rewrite (cut_last_slash_app z n Hn).
  change (z +:+ String PosixPath.slash "") with (z +:+ "/").
  rewrite rstrip_snoc_slash, (rstrip_nonempty _ Hz Hend). by destruct z.
Qed.

(** The path of the entry reached through [names] below the directory [d]. *)
Lemma join_app d x y :
  PyStr.startswith x "/" = false → x ≠ "" →
  PosixPath.join d (x +:+ y) = PosixPath.join d x +:+ y.
Proof.
  intros Hx Hne. unfold PosixPath.join. rewrite startswith_slash_app, Hx by done.
  destruct (_ || _); by rewrite ?StrFacts.app_assoc.
Qed.

Lemma join_name_form d x :
  PyStr.startswith x "/" = false → x ≠ "" → PyStr.endswith x "/" = false →
  PosixPath.join d x ≠ "" ∧ PyStr.endswith (PosixPath.join d x) "/" = false.
Proof.
  intros Hx Hne Hend. unfold PosixPath.join. rewrite Hx.
  assert (Hlen : String.length "/" ≤ String.length x) by (destruct x; [done|cbn; lia]).
  destruct (_ || _).
  - split; [by destruct d, x|]. by rewrite Seeding.endswith_app_long.
  - split; [by destruct d|].
    by rewrite <-StrFacts.app_assoc, Seeding.endswith_app_long.
Qed.

Lemma below_snoc d names n :
  Forall (fun n => Fs.valid_name n = true) names → names ≠ [] → Fs.valid_name n = true →
  PosixPath.join d (rel_path (names ++ [n]))
  = PosixPath.join d (rel_path names) +:+ "/" +:+ n
  ∧ PosixPath.join d (rel_path names) ≠ ""
  ∧ PyStr.endswith (PosixPath.join d (rel_path names)) "/" = false.
Proof.
  intros Hnames Hne Hn.
  destruct (rel_path_spec names Hnames Hne) as (Hne' & Hend & Hstart & _).
  rewrite rel_path_snoc, (join_rel _ n (valid_name_no_leading_slash _ Hn) Hne' Hend).
  rewrite (join_app d _ _ Hstart Hne'). split; [done|]. by apply join_name_form.
Qed.

Lemma split_below d names n :
  Forall (fun n => Fs.valid_name n = true) names → names ≠ [] → Fs.valid_name n = true →
  PosixPath.split (PosixPath.join d (rel_path (names ++ [n])))
  = (PosixPath.join d (rel_path names), n).
Proof.
  intros Hnames Hne Hn. destruct (below_snoc d names n Hnames Hne Hn) as (-> & Hz & Hend).
  apply split_app_name; [done..|]. by apply valid_name_spec in Hn as (_ & _ & _ & ?).
Qed.

Lemma resolve_below fs d lD names :
  Fs.resolve fs d = inr lD →
  Forall (fun n => Fs.valid_name n = true) names → names ≠ [] →
  Fs.resolve fs (PosixPath.join d (rel_path names)) = Fs.walk fs lD names.
Proof.
  intros Hd Hnames Hne.
  destruct (rel_path_spec names Hnames Hne) as (_ & _ & Hstart & Hcomps).
  by rewrite (resolve_join _ _ _ _ Hd Hstart), Hcomps.
Qed.

Lemma node_at_lookup_ne (fs : gmap (list string) Fs.node) l :
  l ≠ [] → Fs.node_at fs l = fs !! l.
Proof. by destruct l. Qed.

(** Walking through names. *)
Lemma prefix_app_cases {A} (pre a b : list A) :
  pre `prefix_of` a ++ b →
  pre `prefix_of` a ∨ ∃ pre', pre' ≠ [] ∧ pre = a ++ pre' ∧ pre' `prefix_of` b.
Proof.
  revert pre. induction a as [|x a IH]; intros pre Hpre.
  - destruct pre as [|y pre]; [left; apply prefix_nil|]. right. by exists (y :: pre).
  - destruct pre as [|y pre]; [left; apply prefix_nil|].
    pose proof (prefix_cons_inv_1 _ _ _ _ Hpre) as ->.
    apply prefix_cons_inv_2, IH in Hpre as [Hpre|(pre' & Hne & -> & Hpre)].
    + left. by apply prefix_cons.
    + right. by exists pre'.
Qed.

Lemma prefix_snoc_cases {A} (pre l : list A) x :
  pre `prefix_of` l ++ [x] → pre `prefix_of` l ∨ pre = l ++ [x].
Proof.
  intros [Hpre|(pre' & Hne & -> & Hpre)]%prefix_app_cases; [by left|]. right.
  destruct pre' as [|y pre']; [done|].
  pose proof (prefix_cons_inv_1 _ _ _ _ Hpre) as ->.
  by apply prefix_cons_inv_2, prefix_nil_inv in Hpre as ->.
Qed.

Lemma walk_valid fs cur names :
  Forall (fun n => Fs.valid_name n = true) names →
  (∀ pre, pre `prefix_of` names → pre ≠ names → Fs.node_at fs (cur ++ pre) = Some Fs.Dir) →
  Fs.walk fs cur names = inr (cur ++ names).
Proof.
  intros Hnames. revert cur. induction Hnames as [|n names Hn _ IH]; intros cur Hdirs; cbn.
  - by rewrite app_nil_r.
  - pose proof (Hdirs [] (prefix_nil _) ltac:(done)) as Hcur. rewrite app_nil_r in Hcur.
    rewrite Hcur. apply valid_name_spec in Hn as (Hn1 & Hn2 & Hn3 & _).
    unfold Fs.is_dot. apply eqb_neq in Hn1, Hn2, Hn3. rewrite Hn1, Hn2, Hn3. cbn.
    rewrite IH; [by rewrite <-app_assoc|]. intros pre Hpre Hne.
    rewrite <-app_assoc. apply (Hdirs (n :: pre)); [by apply prefix_cons|].
    intros [= ->]. done.
Qed.

Lemma lexical_valid cur names :
  Forall (fun n => Fs.valid_name n = true) names → lexical cur names = cur ++ names.
Proof.
  intros Hnames. revert cur. induction Hnames as [|n names Hn _ IH]; intros cur; cbn.
  - by rewrite app_nil_r.
  - apply valid_name_spec in Hn as (Hn1 & Hn2 & Hn3 & _).
    unfold Fs.is_dot. apply eqb_neq in Hn1, Hn2, Hn3. rewrite Hn1, Hn2, Hn3. cbn.
    by rewrite IH, <-app_assoc.
Qed.

(** The directories made. *)
Lemma add_dirs_snoc fs base new n :
  add_dirs fs base (new ++ [n]) = <[base ++ new ++ [n] := Fs.Dir]> (add_dirs fs base new).
Proof.
  revert fs base. induction new as [|a new IH]; intros fs base; cbn; [done|].
  by rewrite IH, <-app_assoc.
Qed.

Lemma add_dirs_dir fs base new pre :
  pre `prefix_of` new → pre ≠ [] → add_dirs fs base new !! (base ++ pre) = Some Fs.Dir.
Proof.
  induction new as [|n new IH] using rev_ind.
  - by intros ->%prefix_nil_inv.
  - intros [Hpre| ->]%prefix_snoc_cases Hne; rewrite add_dirs_snoc.
    + rewrite lookup_insert_ne; [by apply IH|].
      intros Heq%app_inv_head. subst pre. by apply prefix_snoc_not in Hpre.
    + by rewrite lookup_insert_eq.
Qed.

Lemma add_dirs_other fs base new l :
  (∀ pre, pre `prefix_of` new → pre ≠ [] → l ≠ base ++ pre) →
  add_dirs fs base new !! l = fs !! l.
Proof.
  induction new as [|n new IH] using rev_ind; [done|]. intros Hl.
  rewrite add_dirs_snoc, lookup_insert_ne.
  - apply IH. intros pre Hpre Hne. apply Hl; [by apply prefix_app_r|done].
  - intros Heq. by apply (Hl (new ++ [n])); [|destruct new|].
Qed.

Lemma grows_insert_dir (fs : gmap (list string) Fs.node) l :
  fs !! l = None → grows fs (<[l := Fs.Dir]> fs).
Proof.
  intros Hl k. destruct (decide (l = k)) as [<-|Hne].
  - right. by rewrite lookup_insert_eq.
  - left. by rewrite lookup_insert_ne.
Qed.

Lemma add_dirs_none fs base new n :
  fs !! (base ++ new ++ [n]) = None → add_dirs fs base new !! (base ++ new ++ [n]) = None.
Proof.
  intros Hnone. rewrite add_dirs_other; [done|]. intros pre Hpre _ Heq%app_inv_head.
  subst pre. by apply prefix_snoc_not in Hpre.
Qed.

Lemma add_dirs_grows fs base new :
  (∀ pre, pre `prefix_of` new → pre ≠ [] → fs !! (base ++ pre) = None) →
  grows fs (add_dirs fs base new).
Proof.
  induction new as [|n new IH] using rev_ind; intros Hnone; [apply grows_refl|].
  rewrite add_dirs_snoc. eapply grows_trans.
  - apply IH. intros pre Hpre Hne. apply Hnone; [by apply prefix_app_r|done].
  - apply grows_insert_dir, add_dirs_none. apply Hnone; [done|by destruct new].
Qed.

(** [os.makedirs] below a directory: the missing directories are made, the
    outermost first. *)
Lemma walk_chain fs lD ex new :
  Forall (fun n => Fs.valid_name n = true) (ex ++ new) →
  (∀ pre, pre `prefix_of` ex → Fs.node_at fs (lD ++ pre) = Some Fs.Dir) →
  (∀ pre, pre `prefix_of` new → pre ≠ [] → pre ≠ new →
          fs !! (lD ++ ex ++ pre) = Some Fs.Dir) →
  Fs.walk fs lD (ex ++ new) = inr (lD ++ ex ++ new).
Proof.
  intros Hnames Hex Hnew. apply walk_valid; [done|].
  intros pre [Hpre|(pre' & Hne & -> & Hpre)]%prefix_app_cases Hneq; [by apply Hex|].
  rewrite app_assoc, node_at_lookup_ne by (by destruct pre', (lD ++ ex)).
  rewrite <-app_assoc. apply Hnew; [done..|]. by intros ->.
Qed.

Lemma makedirs_chain fuel fs d lD ex new :
  Fs.resolve fs d = inr lD →
  Forall (fun n => Fs.valid_name n = true) (ex ++ new) → new ≠ [] →
  (∀ pre, pre `prefix_of` ex → Fs.node_at fs (lD ++ pre) = Some Fs.Dir) →
  (∀ pre, pre `prefix_of` new → pre ≠ [] → fs !! (lD ++ ex ++ pre) = None) →
  (Lib.makedirs fuel fs (PosixPath.join d (rel_path (ex ++ new)))).1 ≠ NoFuel →
  Lib.makedirs fuel fs (PosixPath.join d (rel_path (ex ++ new)))
  = (Ok tt, add_dirs fs (lD ++ ex) new).
Proof.
  intros Hd. revert fuel. induction new as [|n new IH] using rev_ind; [done|].
  intros fuel Hnames _ Hex Hnone Hfuel. destruct fuel as [|fuel]; [done|].
  assert (Hn : Fs.valid_name n = true).
  { rewrite app_assoc in Hnames. apply Forall_app in Hnames as [_ Hn].
    by rewrite Forall_singleton in Hn. }
  assert (Hnames' : Forall (fun n => Fs.valid_name n = true) (ex ++ new)).
  { rewrite app_assoc in Hnames. by apply Forall_app in Hnames as [? _]. }
  assert (Hnone' : ∀ pre, pre `prefix_of` new → pre ≠ [] → fs !! (lD ++ ex ++ pre) = None).
  { intros pre Hpre Hne. apply Hnone; [by apply prefix_app_r|done]. }
  assert (Hlast : fs !! (lD ++ ex ++ new ++ [n]) = None).
  { apply Hnone; [done|by destruct new]. }
  assert (Hmk : ∀ fs1, grows fs fs1 →
            (∀ pre, pre `prefix_of` new → pre ≠ [] → fs1 !! (lD ++ ex ++ pre) = Some Fs.Dir) →
            fs1 !! (lD ++ ex ++ new ++ [n]) = None →
            Lib.os_mkdir fs1 (PosixPath.join d (rel_path (ex ++ new ++ [n])))
            = (Ok tt, <[lD ++ ex ++ new ++ [n] := Fs.Dir]> fs1)).
  { intros fs1 Hg Hdirs Hnew.
    assert (Hres : Fs.resolve fs1 (PosixPath.join d (rel_path (ex ++ new ++ [n])))
                   = inr (lD ++ ex ++ new ++ [n])).
    { rewrite (resolve_below fs1 d lD); [|by eapply resolve_ext; [apply grows_ext|]
                                          |done|by destruct ex, new].
      apply walk_chain; [done| |].
      - intros pre Hpre. eapply node_at_ext_dir; [by apply grows_ext|by apply Hex].
      - intros pre [Hpre| ->]%prefix_snoc_cases Hne Hneq; [by apply Hdirs|done]. }
    rewrite (mkdir_resolved _ _ _ Hres).
    rewrite node_at_lookup_ne by (by destruct new, ex, lD). by rewrite Hnew. }
  destruct (decide (new = [])) as [->|Hnew].
  - cbn [app] in *.
    assert (Hres : Fs.resolve fs (PosixPath.join d (rel_path (ex ++ [n])))
                   = inr (lD ++ ex ++ [n])).
    { rewrite (resolve_below fs d lD); [|done|done|by destruct ex].
      apply (walk_chain fs lD ex [n]); [done..|].
      intros pre [Hpre| ->]%(prefix_snoc_cases pre []) Hne Hneq; [|done].
      by apply prefix_nil_inv in Hpre. }
    rewrite (makedirs_resolved _ _ _ _ Hres). cbn [add_dirs].
    rewrite (Hmk fs (grows_refl fs)); [by rewrite <-app_assoc| |done].
    intros pre ->%prefix_nil_inv. done.
  - assert (Hne' : ex ++ new ≠ []) by (by destruct ex, new).
    revert Hfuel. cbn [Lib.makedirs]. rewrite (app_assoc ex new [n]).
    rewrite (split_below d (ex ++ new) n Hnames' Hne' Hn).
    destruct (below_snoc d (ex ++ new) n Hnames' Hne' Hn) as (_ & Hz & _).
    apply valid_name_spec in Hn as Hn'. destruct Hn' as (Hn1 & Hn2 & _).
    apply eqb_neq in Hn1, Hn2, Hz. rewrite Hn1, Hz, Hn2. cbn [negb andb].
    rewrite Hn1. cbn [negb andb].
    assert (Hexists : Lib.path_exists fs (PosixPath.join d (rel_path (ex ++ new))) = false).
    { unfold Lib.path_exists, Lib.stat, Fs.entry.
      rewrite (resolve_below fs d lD) by done.
      destruct (Fs.walk fs lD (ex ++ new)) as [e|l] eqn:Hwalk; [done|].
      apply walk_lexical in Hwalk. rewrite (lexical_valid _ _ Hnames') in Hwalk. subst l.
      rewrite node_at_lookup_ne by (by destruct new, ex, lD).
      by rewrite app_assoc, <-(app_assoc lD), (Hnone' new). }
    rewrite Hexists. cbn [negb].
    destruct (Lib.makedirs fuel fs (PosixPath.join d (rel_path (ex ++ new))))
      as [r1 fs1] eqn:Hrec.
    intros Hfuel.
    assert (Hr1 : r1 ≠ NoFuel) by (intros ->; by cbn in Hfuel).
    pose proof (IH fuel Hnames' Hnew Hex Hnone') as IHrec. rewrite Hrec in IHrec.
    specialize (IHrec Hr1). injection IHrec as -> ->.
    rewrite <-(app_assoc ex new [n]).
    rewrite Hmk; [by rewrite add_dirs_snoc, <-!app_assoc| | |].
    + apply add_dirs_grows. intros pre Hpre Hne. rewrite <-app_assoc. by apply Hnone'.
    + intros pre Hpre Hne. rewrite app_assoc. by apply add_dirs_dir.
    + rewrite app_assoc. apply add_dirs_none. by rewrite <-app_assoc.
Qed.

End Names.

Module Chain.
Import PathFacts FsFacts Mirror Idem Makedirs Names.

Lemma walk_made fs d lD ex new :
  Fs.resolve fs d = inr lD →
  Forall (fun n => Fs.valid_name n = true) (ex ++ new) → ex ++ new ≠ [] →
  (∀ pre, pre `prefix_of` ex → Fs.node_at fs (lD ++ pre) = Some Fs.Dir) →
  (∀ pre, pre `prefix_of` new → pre ≠ [] → fs !! (lD ++ ex ++ pre) = None) →
  Fs.resolve (add_dirs fs (lD ++ ex) new) (PosixPath.join d (rel_path (ex ++ new)))
  = inr (lD ++ ex ++ new).
Proof.
  intros Hd Hnames Hne Hex Hnone.
  assert (Hg : grows fs (add_dirs fs (lD ++ ex) new)).
  { apply add_dirs_grows. intros pre Hpre Hpne. rewrite <-app_assoc. by apply Hnone. }
  rewrite (resolve_below _ d lD); [|by eapply resolve_ext; [apply grows_ext|]|done..].
  apply walk_chain; [done| |].
  - intros pre Hpre. eapply node_at_ext_dir; [by apply grows_ext|by apply Hex].
  - intros pre Hpre Hpne _. rewrite app_assoc. by apply add_dirs_dir.
Qed.

Lemma mkdir_p_makes d lD ex new w :
  Fs.resolve (files w) d = inr lD →
  Forall (fun n => Fs.valid_name n = true) (ex ++ new) → new ≠ [] →
  (∀ pre, pre `prefix_of` ex → Fs.node_at (files w) (lD ++ pre) = Some Fs.Dir) →
  (∀ pre, pre `prefix_of` new → pre ≠ [] → files w !! (lD ++ ex ++ pre) = None) →
  mkdir_p (PosixPath.join d (rel_path (ex ++ new))) w
  = (Ok tt,
     World (add_dirs (files w) (lD ++ ex) new)
       (events w ++ [Event (CallMakedirs (PosixPath.join d (rel_path (ex ++ new)))) None])).
Proof.
  intros Hd Hnames Hne Hex Hnone. unfold mkdir_p, try_except, os_makedirs, lib_call.
  rewrite (makedirs_chain _ _ d lD ex new); [done..|]. apply makedirs_answers. lia.
Qed.

Lemma made_isdir fs d lD ex new :
  Fs.resolve fs d = inr lD →
  Forall (fun n => Fs.valid_name n = true) (ex ++ new) → new ≠ [] →
  (∀ pre, pre `prefix_of` ex → Fs.node_at fs (lD ++ pre) = Some Fs.Dir) →
  (∀ pre, pre `prefix_of` new → pre ≠ [] → fs !! (lD ++ ex ++ pre) = None) →
  Lib.path_isdir (add_dirs fs (lD ++ ex) new) (PosixPath.join d (rel_path (ex ++ new)))
  = true.
Proof.
  intros Hd Hnames Hne Hex Hnone. apply (stat_isdir _ _ (lD ++ ex ++ new)).
  - apply walk_made; try done. by destruct ex, new.
  - rewrite node_at_lookup_ne by (by destruct new, ex, lD).
    rewrite app_assoc. by apply add_dirs_dir.
Qed.

End Chain.

(** [mkdir_p] makes every missing directory of a path.  For a path of names
    below a directory, of which the first names [ex] lead through existing
    directories and none of the further names [new] exists, it returns
    normally after the one call of [os.makedirs], the file system has gained
    exactly the directories of the names [new], one below the other, and the
    path is a directory. *)
Theorem mkdir_p_makes_missing_directories d lD ex new w :
  Fs.resolve (files w) d = inr lD →
  Forall (fun n => Fs.valid_name n = true) (ex ++ new) → new ≠ [] →
  (∀ pre, pre `prefix_of` ex → Fs.node_at (files w) (lD ++ pre) = Some Fs.Dir) →
  (∀ pre, pre `prefix_of` new → pre ≠ [] → files w !! (lD ++ ex ++ pre) = None) →
  mkdir_p (PosixPath.join d (rel_path (ex ++ new))) w
  = (Ok tt,
     World (add_dirs (files w) (lD ++ ex) new)
       (events w ++ [Event (CallMakedirs (PosixPath.join d (rel_path (ex ++ new)))) None]))
  ∧ Lib.path_isdir (add_dirs (files w) (lD ++ ex) new)
      (PosixPath.join d (rel_path (ex ++ new))) = true
  ∧ (∀ pre, pre `prefix_of` new → pre ≠ [] →
            add_dirs (files w) (lD ++ ex) new !! (lD ++ ex ++ pre) = Some Fs.Dir)
  ∧ (∀ l, (∀ pre, pre `prefix_of` new → pre ≠ [] → l ≠ lD ++ ex ++ pre) →
          add_dirs (files w) (lD ++ ex) new !! l = files w !! l).
Proof.
  intros Hd Hnames Hne Hex Hnone. split; [by apply Chain.mkdir_p_makes|].
  split; [by apply Chain.made_isdir|]. split.
  - intros pre Hpre Hpne. rewrite app_assoc. by apply Names.add_dirs_dir.
  - intros l Hl. apply Names.add_dirs_other. intros pre Hpre Hpne ->.
    apply (Hl pre); [done..|]. by rewrite <-app_assoc.
Qed.

Lemma mkdir_p_makes_missing_directories_sample :
  mkdir_p "/p/src/aprinter/sub" sample_world
  = (Ok tt,
     World (add_dirs sample_files ["p"; "src"] ["aprinter"; "sub"])
       [Event (CallMakedirs "/p/src/aprinter/sub") None])
  ∧ Lib.path_isdir (add_dirs sample_files ["p"; "src"] ["aprinter"; "sub"])
      "/p/src/aprinter/sub" = true.
Proof.
  refine (let H := mkdir_p_makes_missing_directories "/p/src" ["p"; "src"] []
                     ["aprinter"; "sub"] sample_world _ _ _ _ _ in
          conj (proj1 H) (proj1 (proj2 H))).
  - reflexivity.
  - repeat constructor.
  - discriminate.
  - intros pre Hpre. apply prefix_nil_inv in Hpre. subst pre. reflexivity.
  - intros pre Hpre Hne. destruct pre as [|a [|b [|c pre]]].
    + done.
    + apply prefix_cons_inv_1 in Hpre. subst a. reflexivity.
    + pose proof (prefix_cons_inv_1 _ _ _ _ Hpre) as Ha.
      apply prefix_cons_inv_2, prefix_cons_inv_1 in Hpre. subst a b. reflexivity.
    + apply prefix_cons_inv_2, prefix_cons_inv_2, prefix_nil_not in Hpre. destruct Hpre.
Defined.

(** ** The Mirror on paths of names *)

Module Install.
Import PathFacts FsFacts Mirror Idem Makedirs Names Chain.

(** A path is the join of its components. *)
Lemma split_inj sep a b : PyStr.split sep a = PyStr.split sep b → a = b.
Proof.
  revert b. induction a as [|c a IH]; intros b.
  - destruct b as [|d b]; [done|]. rewrite ReFacts.split_cons. cbn.
    destruct (Ascii.eqb d sep); [|done]. intros [= Hb].
    by destruct (ReFacts.split_nonempty sep b).
  - rewrite ReFacts.split_cons. destruct b as [|d b].
    + cbn. destruct (Ascii.eqb c sep); [|done]. intros [= Ha].
      by destruct (ReFacts.split_nonempty sep a).
    + rewrite (ReFacts.split_cons sep d b).
      pose proof (ReFacts.split_nonempty sep a) as Ha.
      pose proof (ReFacts.split_nonempty sep b) as Hb.
      destruct (Ascii.eqb_spec c sep) as [->|Hc], (Ascii.eqb_spec d sep) as [->|Hd];
        try done.
      * intros [= Heq]. by rewrite (IH b Heq).
      * intros [= -> Hh Ht]. f_equal. apply IH.
        destruct (PyStr.split sep a), (PyStr.split sep b); try done. cbn in *. congruence.
Qed.

Lemma rel_path_components id :
  Forall (fun n => Fs.valid_name n = true) (PosixPath.components id) →
  rel_path (PosixPath.components id) = id.
Proof.
  intros Hvalid. apply (split_inj PosixPath.slash).
  by apply rel_path_spec; [|apply ReFacts.split_nonempty].
Qed.

(** The existing and the missing directories on a clear way. *)
Lemma clear_split fs lS names :
  (∀ pre, pre `prefix_of` names →
     (pre ≠ [] ∧ fs !! (lS ++ pre) = None)
     ∨ (∀ pre', pre' `prefix_of` pre → Fs.node_at fs (lS ++ pre') = Some Fs.Dir)) →
  ∃ ex new, names = ex ++ new
    ∧ (∀ pre, pre `prefix_of` ex → Fs.node_at fs (lS ++ pre) = Some Fs.Dir)
    ∧ (∀ pre, pre `prefix_of` new → pre ≠ [] → fs !! (lS ++ ex ++ pre) = None).
Proof.
  induction names as [|n names IH] using rev_ind; intros Hclear.
  - exists [], []. split; [done|]. split.
    + intros pre ->%prefix_nil_inv.
      destruct (Hclear [] (prefix_nil _)) as [[? _]|Hdirs]; [done|]. by apply Hdirs.
    + by intros pre ->%prefix_nil_inv.
  - destruct (Hclear (names ++ [n])) as [[_ Hnone]|Hdirs]; [done| |].
    + destruct IH as (ex & new & -> & Hex & Hnew).
      { intros pre Hpre. apply Hclear. by apply prefix_app_r. }
      exists ex, (new ++ [n]). split; [by rewrite app_assoc|]. split; [done|].
      intros pre [Hpre| ->]%prefix_snoc_cases Hne; [by apply Hnew|].
      by rewrite <-app_assoc in Hnone.
    + exists (names ++ [n]), []. split; [by rewrite app_nil_r|]. split; [done|].
      by intros pre ->%prefix_nil_inv.
Qed.

(** [mkdir_p] on a clear way. *)
Lemma mkdir_p_ready d lD ex new w :
  Fs.resolve (files w) d = inr lD →
  Forall (fun n => Fs.valid_name n = true) (ex ++ new) → ex ++ new ≠ [] →
  (∀ pre, pre `prefix_of` ex → Fs.node_at (files w) (lD ++ pre) = Some Fs.Dir) →
  (∀ pre, pre `prefix_of` new → pre ≠ [] → files w !! (lD ++ ex ++ pre) = None) →
  ∃ evs, mkdir_p (PosixPath.join d (rel_path (ex ++ new))) w
         = (Ok tt, World (add_dirs (files w) (lD ++ ex) new) (events w ++ evs)).
Proof.
  intros Hd Hnames Hne Hex Hnone. destruct (decide (new = [])) as [->|Hnew].
  - rewrite app_nil_r in *. cbn [add_dirs].
    assert (Hentry : Fs.entry (files w) (PosixPath.join d (rel_path ex))
                     = inr (lD ++ ex, Fs.Dir)).
    { apply entry_resolve. split; [|by apply Hex].
      rewrite (resolve_below _ d lD) by done. apply walk_valid; [done|].
      intros pre Hpre _. by apply Hex. }
    rewrite (MirrorFacts.mkdir_p_exists _ _ _ _ Hentry).
    unfold Lib.path_isdir, Lib.stat. rewrite Hentry. cbn. by eexists.
  - rewrite (mkdir_p_makes d lD ex new w) by done. by eexists.
Qed.

(** A step of the Mirror on a clear way. *)
Lemma made_dirs fs lS ex new pre :
  (∀ pre, pre `prefix_of` ex → Fs.node_at fs (lS ++ pre) = Some Fs.Dir) →
  (∀ pre, pre `prefix_of` new → pre ≠ [] → fs !! (lS ++ ex ++ pre) = None) →
  pre `prefix_of` ex ++ new →
  Fs.node_at (add_dirs fs (lS ++ ex) new) (lS ++ pre) = Some Fs.Dir.
Proof.
  intros Hex Hnone [Hpre|(pre' & Hne & -> & Hpre)]%prefix_app_cases.
  - eapply node_at_ext_dir; [|by apply Hex]. apply grows_ext, add_dirs_grows.
    intros p Hp Hpne. rewrite <-app_assoc. by apply Hnone.
  - rewrite node_at_lookup_ne by (by destruct pre', ex, lS).
    rewrite app_assoc. by apply add_dirs_dir.
Qed.

Lemma made_other fs lS ex new n :
  add_dirs fs (lS ++ ex) new !! (lS ++ (ex ++ new) ++ [n])
  = fs !! (lS ++ (ex ++ new) ++ [n]).
Proof.
  apply add_dirs_other. intros pre Hpre _ Heq.
  rewrite <-!app_assoc in Heq. do 2 apply app_inv_head in Heq.
  subst pre. by apply prefix_snoc_not in Hpre.
Qed.

Lemma copy_to_clear fs src dst l ls c :
  Fs.resolve fs dst = inr l → l ≠ [] →
  (fs !! l = None ∨ ∃ c0, fs !! l = Some (Fs.Reg c0)) →
  Fs.entry fs src = inr (ls, Fs.Reg c) → ls ≠ l →
  Lib.copy fs src dst = (Ok tt, <[l := Fs.Reg c]> fs).
Proof.
  intros Hres Hl Hnode Hsrc Hne. unfold Lib.copy.
  assert (Hat : Fs.node_at fs l = fs !! l) by by destruct l.
  assert (Hdir : Lib.path_isdir fs dst = false).
  { unfold Lib.path_isdir, Lib.stat, Fs.entry. rewrite Hres, Hat.
    by destruct Hnode as [->|[c0 ->]]. }
  rewrite Hdir. unfold Lib.samefile. rewrite Hsrc.
  assert (Hsame : match Fs.entry fs dst with
                  | inr (lb, _) => bool_decide (ls = lb)
                  | inl _ => false
                  end = false).
  { unfold Fs.entry. rewrite Hres, Hat.
    destruct Hnode as [->|[c0 ->]]; [done|]. by apply bool_decide_eq_false_2. }
  rewrite Hsame. unfold Fs.read_file. rewrite Hsrc.
  unfold Fs.write_file. rewrite Hres, Hat. by destruct Hnode as [->|[c0 ->]].
Qed.

Lemma entry_reg_grows fs fs' p (ls : list string) c :
  grows fs fs' → Fs.entry fs p = inr (ls, Fs.Reg c) → Fs.entry fs' p = inr (ls, Fs.Reg c).
Proof.
  intros Hg Hentry. eapply entry_reg_ext; [by apply grows_ext|done|].
  apply (grows_files _ _ _ _ Hg). by eapply entry_reg_lookup.
Qed.

Lemma copy_one_installs st w lS names n c ex new :
  Fs.resolve (files w) (src_dir st) = inr lS →
  Forall (fun n => Fs.valid_name n = true) (names ++ [n]) → names ≠ [] →
  names = ex ++ new →
  (∀ pre, pre `prefix_of` ex → Fs.node_at (files w) (lS ++ pre) = Some Fs.Dir) →
  (∀ pre, pre `prefix_of` new → pre ≠ [] → files w !! (lS ++ ex ++ pre) = None) →
  (files w !! (lS ++ names ++ [n]) = None
   ∨ ∃ c0, files w !! (lS ++ names ++ [n]) = Some (Fs.Reg c0)) →
  Fs.read_file (files w) (src_path st (rel_path (names ++ [n]))) = inr c →
  location_of (src_path st (rel_path (names ++ [n]))) ≠ lS ++ names ++ [n] →
  ∃ evs, copy_one st (rel_path (names ++ [n])) w
         = (Ok tt,
            World (<[lS ++ names ++ [n] := Fs.Reg c]> (add_dirs (files w) (lS ++ ex) new))
              (events w ++ evs)).
Proof.
  intros HS Hvalid Hne -> Hex Hnone Hdst Hread%read_file_entry Hsep.
  pose proof Hvalid as [Hnames Hn]%Forall_app. rewrite Forall_singleton in Hn.
  unfold copy_one, mbind, M_bind, bind. cbn [print lib_read lib_call].
  set (w0 := World (files w) _).
  unfold PosixPath.dirname. rewrite (split_below _ _ _ Hnames Hne Hn). cbn [fst].
  destruct (mkdir_p_ready (src_dir st) lS ex new w0 HS Hnames Hne Hex Hnone)
    as [evs ->].
  unfold shutil_copy, lib_call. cbn [files events].
  fold (src_path st (rel_path ((ex ++ new) ++ [n]))).
  set (fs1 := add_dirs (files w) (lS ++ ex) new).
  assert (Hg : grows (files w) fs1).
  { apply add_dirs_grows. intros p Hp Hpne. rewrite <-app_assoc. by apply Hnone. }
  assert (Hres : Fs.resolve fs1 (PosixPath.join (src_dir st)
                                   (rel_path ((ex ++ new) ++ [n])))
                 = inr (lS ++ (ex ++ new) ++ [n])).
  { rewrite (resolve_below fs1 _ lS); [|by eapply resolve_ext; [apply grows_ext|]
                                        |done|by destruct (ex ++ new)].
    apply walk_valid; [done|]. intros pre [Hpre| ->]%prefix_snoc_cases Hpne; [|done].
    by apply made_dirs. }
  rewrite (copy_to_clear fs1 _ _ _
             (location_of (src_path st (rel_path ((ex ++ new) ++ [n])))) c Hres).
  - unfold w0. cbn [events raised]. rewrite <-!app_assoc. by eexists.
  - by destruct lS, (ex ++ new).
  - unfold fs1. by rewrite made_other.
  - by apply (entry_reg_grows (files w)).
  - done.
Qed.

(** A step in terms of the identifier. *)
Lemma snoc_names (comps : list string) :
  2 ≤ length comps → ∃ names n, comps = names ++ [n] ∧ names ≠ [].
Proof.
  destruct comps as [|n comps _] using rev_ind; [cbn; lia|].
  rewrite length_app. cbn. intros Hlen. exists comps, n. split; [done|].
  destruct comps; [cbn in Hlen; lia|done].
Qed.

Lemma step_installs st w lS id c :
  Fs.resolve (files w) (src_dir st) = inr lS →
  Forall (fun n => Fs.valid_name n = true) (PosixPath.components id) →
  2 ≤ length (PosixPath.components id) →
  way_clear (files w) lS (PosixPath.components id) →
  Fs.read_file (files w) (src_path st id) = inr c →
  location_of (src_path st id) ≠ lS ++ PosixPath.components id →
  ∃ fs1 evs,
    copy_one st id w
    = (Ok tt, World (<[lS ++ PosixPath.components id := Fs.Reg c]> fs1) (events w ++ evs))
    ∧ grows (files w) fs1
    ∧ (∀ pre, pre `prefix_of` PosixPath.components id → pre ≠ PosixPath.components id →
              Fs.node_at fs1 (lS ++ pre) = Some Fs.Dir)
    ∧ (∀ l, (∀ pre, pre `prefix_of` PosixPath.components id →
                    pre ≠ PosixPath.components id → pre ≠ [] → l ≠ lS ++ pre) →
            fs1 !! l = files w !! l).
Proof.
  intros HS Hvalid Hlen [Hway Hdst] Hread Hsep.
  pose proof (rel_path_components id Hvalid) as Hid.
  destruct (snoc_names _ Hlen) as (names & n & Hcomps & Hne).
  rewrite Hcomps in Hvalid, Hway, Hdst, Hsep, Hid |- *. clear Hcomps Hlen.
  rewrite <-Hid in Hread, Hsep |- *. clear Hid.
  destruct (clear_split (files w) lS names) as (ex & new & Hnames & Hex & Hnone).
  { intros pre Hpre. apply Hway; [by apply prefix_app_r|].
    intros ->. by apply prefix_snoc_not in Hpre. }
  destruct (copy_one_installs st w lS names n c ex new HS Hvalid Hne Hnames Hex Hnone
              Hdst Hread Hsep) as [evs Hrun].
  exists (add_dirs (files w) (lS ++ ex) new), evs. split; [done|]. split; [|split].
  - apply add_dirs_grows. intros p Hp Hpne. rewrite <-app_assoc. by apply Hnone.
  - intros pre [Hpre| ->]%prefix_snoc_cases Hpne; [|done]. subst names.
    by apply made_dirs.
  - intros l Hl. apply add_dirs_other. intros pre Hpre Hpne ->. subst names.
    apply (Hl (ex ++ pre)).
    + apply prefix_app_r. by apply prefix_app.
    + intros Heq. rewrite <-app_assoc in Heq. apply app_inv_head in Heq.
      subst pre. by apply prefix_snoc_not in Hpre.
    + by destruct ex, pre.
    + by rewrite app_assoc.
Qed.

(** What a step leaves of the clear ways of the other identifiers. *)
Lemma installed_ext (fs fs1 : gmap (list string) Fs.node) l c :
  grows fs fs1 → fs1 !! l = fs !! l →
  (fs !! l = None ∨ ∃ c0, fs !! l = Some (Fs.Reg c0)) →
  ext fs (<[l := Fs.Reg c]> fs1).
Proof.
  intros Hg Heq Hl. eapply ext_trans; [by apply grows_ext|].
  apply insert_reg_ext. by rewrite Heq.
Qed.

Lemma way_clear_step (fs fs1 : gmap (list string) Fs.node) lS cj ck c :
  grows fs fs1 →
  (∀ pre, pre `prefix_of` cj → pre ≠ cj → Fs.node_at fs1 (lS ++ pre) = Some Fs.Dir) →
  (∀ l, (∀ pre, pre `prefix_of` cj → pre ≠ cj → pre ≠ [] → l ≠ lS ++ pre) →
        fs1 !! l = fs !! l) →
  (fs !! (lS ++ cj) = None ∨ ∃ c0, fs !! (lS ++ cj) = Some (Fs.Reg c0)) →
  cj ≠ [] →
  (cj `prefix_of` ck → cj = ck) → (ck `prefix_of` cj → ck = cj) →
  way_clear fs lS ck → way_clear (<[lS ++ cj := Fs.Reg c]> fs1) lS ck.
Proof.
  intros Hg Hdirs Hother Hdst Hcj Hjk Hkj [Hway Hk].
  assert (Hself : fs1 !! (lS ++ cj) = fs !! (lS ++ cj)).
  { apply Hother. intros pre Hpre Hne _ Heq%app_inv_head. done. }
  pose proof (installed_ext fs fs1 (lS ++ cj) c Hg Hself Hdst) as Hext.
  assert (Hdirs' : ∀ pre, pre `prefix_of` cj → pre ≠ cj →
            Fs.node_at (<[lS ++ cj := Fs.Reg c]> fs1) (lS ++ pre) = Some Fs.Dir).
  { intros pre Hpre Hne. eapply node_at_ext_dir; [|by apply Hdirs].
    apply insert_reg_ext. by rewrite Hself. }
  split.
  - intros pre Hpre Hne. destruct (Hway pre Hpre Hne) as [[Hpne Hnone]|Hall].
    + destruct (decide (pre `prefix_of` cj)) as [Hpj|Hpj].
      * right. intros pre' Hpre'. apply Hdirs'; [by etrans|].
        intros ->. assert (pre = cj) as ->.
        { destruct Hpre' as [k1 Hk1], Hpj as [k2 Hk2]. rewrite Hk1, <-app_assoc in Hk2.
          rewrite <-(app_nil_r cj) in Hk2 at 1. apply app_inv_head in Hk2.
          symmetry in Hk2. apply app_eq_nil in Hk2 as [-> _]. by rewrite app_nil_r in Hk1. }
        by apply Hne, Hjk.
      * left. split; [done|]. rewrite lookup_insert_ne.
        -- rewrite Hother; [done|]. intros p Hp _ _ Heq%app_inv_head. by subst p.
        -- intros Heq%app_inv_head. subst pre. by apply Hpj.
    + right. intros pre' Hpre'. eapply node_at_ext_dir; [done|by apply Hall].
  - destruct (decide (ck = cj)) as [->|Hne].
    + right. exists c. by rewrite lookup_insert_eq.
    + rewrite lookup_insert_ne by (by intros Heq%app_inv_head).
      rewrite Hother; [done|]. intros p Hp Hpne _ Heq%app_inv_head. subst p.
      by apply Hne, Hkj.
Qed.

Lemma source_step (fs fs1 : gmap (list string) Fs.node) src (ls l : list string) c ck :
  grows fs fs1 → ls ≠ l →
  fs1 !! l = fs !! l → (fs !! l = None ∨ ∃ c0, fs !! l = Some (Fs.Reg c0)) →
  Fs.entry fs src = inr (ls, Fs.Reg ck) →
  Fs.entry (<[l := Fs.Reg c]> fs1) src = inr (ls, Fs.Reg ck).
Proof.
  intros Hg Hne Hself Hdst Hentry. eapply entry_reg_ext; [by eapply installed_ext|done|].
  rewrite lookup_insert_ne by done. apply (grows_files _ _ _ _ Hg).
  by eapply entry_reg_lookup.
Qed.

(** The runs of the loop. *)
Lemma valid_relative id :
  Forall (fun n => Fs.valid_name n = true) (PosixPath.components id) →
  PyStr.startswith id "/" = false.
Proof.
  intros Hvalid. rewrite <-(rel_path_components id Hvalid).
  by apply rel_path_spec; [|apply ReFacts.split_nonempty].
Qed.

Lemma entry_installed (st : state) (fs : gmap (list string) Fs.node) lS id c :
  Fs.resolve fs (src_dir st) = inr lS →
  Forall (fun n => Fs.valid_name n = true) (PosixPath.components id) →
  (∀ pre, pre `prefix_of` PosixPath.components id → pre ≠ PosixPath.components id →
          Fs.node_at fs (lS ++ pre) = Some Fs.Dir) →
  fs !! (lS ++ PosixPath.components id) = Some (Fs.Reg c) →
  Fs.entry fs (dst_path st id) = inr (lS ++ PosixPath.components id, Fs.Reg c).
Proof.
  intros HS Hvalid Hdirs Hnode. apply entry_resolve. split.
  - unfold dst_path. rewrite (resolve_join _ _ _ _ HS (valid_relative _ Hvalid)).
    by apply walk_valid.
  - rewrite node_at_lookup_ne; [done|].
    pose proof (ReFacts.split_nonempty PosixPath.slash id : PosixPath.components id ≠ [])
      as Hne.
    intros [_ Heq]%app_eq_nil. done.
Qed.

Lemma copy_files_install st lS (P : string → Prop) (content : string → string) ids w :
  (∀ j k, P j → P k → lS ++ PosixPath.components j ≠ location_of (src_path st k)) →
  (∀ j k, P j → P k → PosixPath.components j `prefix_of` PosixPath.components k → j = k) →
  (∀ id, P id → Forall (fun n => Fs.valid_name n = true) (PosixPath.components id)
                ∧ 2 ≤ length (PosixPath.components id)) →
  Fs.resolve (files w) (src_dir st) = inr lS →
  (∀ id, P id → way_clear (files w) lS (PosixPath.components id)
                ∧ Fs.read_file (files w) (src_path st id) = inr (content id)) →
  (∀ id, id ∈ ids → P id) →
  ∃ w', copy_files st ids w = (Ok tt, w')
    ∧ ext (files w) (files w')
    ∧ (∀ id, P id → Fs.read_file (files w') (src_path st id) = inr (content id))
    ∧ (∀ id, id ∈ ids →
             Fs.entry (files w') (dst_path st id)
             = inr (lS ++ PosixPath.components id, Fs.Reg (content id)))
    ∧ (∀ id, P id →
             files w !! (lS ++ PosixPath.components id) = Some (Fs.Reg (content id)) →
             files w' !! (lS ++ PosixPath.components id) = Some (Fs.Reg (content id)))
    ∧ (∀ l c, (∀ id, id ∈ ids → l ≠ lS ++ PosixPath.components id) →
              files w' !! l = Some (Fs.Reg c) ↔ files w !! l = Some (Fs.Reg c)).
Proof.
  intros Hsep Hpre Hvalid. revert w. induction ids as [|id ids IH]; intros w HS Hinv Hids.
  - exists w. split; [done|]. split; [apply ext_refl|]. split; [by intros k [_ ?]%Hinv|].
    split; [by intros k Hk%elem_of_nil|]. done.
  - assert (Hid : P id) by (apply Hids; by left).
    destruct (Hvalid id Hid) as [Hv Hlen]. destruct (Hinv id Hid) as [Hway Hread].
    destruct (step_installs st w lS id (content id) HS Hv Hlen Hway Hread)
      as (fs1 & evs & Hrun & Hg & Hdirs & Hother).
    { intros Heq. by apply (Hsep id id Hid Hid). }
    set (dst := lS ++ PosixPath.components id) in *.
    set (w1 := World (<[dst := Fs.Reg (content id)]> fs1) (events w ++ evs)) in *.
    assert (Hself : fs1 !! dst = files w !! dst).
    { apply Hother. intros pre Hp Hne _ Heq%app_inv_head. done. }
    assert (Hext : ext (files w) (files w1)).
    { apply installed_ext; [done..|]. apply Hway. }
    assert (Hcj : PosixPath.components id ≠ []) by apply ReFacts.split_nonempty.
    destruct (IH w1) as (w' & Hrest & Hext' & Hsrc' & Hdst' & Hkeep' & Hframe').
    { by eapply resolve_ext. }
    { intros k Hk. destruct (Hinv k Hk) as [Hwayk Hreadk]. split.
      - apply (way_clear_step (files w) fs1 lS (PosixPath.components id)
                 (PosixPath.components k) (content id)); try done; [apply Hway| |].
        + intros Hjk. by rewrite (Hpre id k Hid Hk Hjk).
        + intros Hkj. by rewrite (Hpre k id Hk Hid Hkj).
      - apply read_file_entry. apply read_file_entry in Hreadk.
        apply (source_step (files w) fs1 _ _ dst (content id) (content k));
          try done; [|apply Hway].
        intros Heq. by apply (Hsep id k Hid Hk). }
    { intros k Hk. apply Hids. by right. }
    assert (Hhere : files w1 !! dst = Some (Fs.Reg (content id))).
    { cbn. by rewrite lookup_insert_eq. }
    exists w'. rewrite copy_files_cons, Hrun. split; [done|].
    split; [by eapply ext_trans|]. split; [done|]. split; [|split].
    + intros k [->|Hk]%elem_of_cons; [|by apply Hdst'].
      eapply entry_reg_ext; [done| |by apply Hkeep'].
      apply entry_installed; [by eapply resolve_ext|done| |done].
      intros pre Hp Hne. cbn. eapply node_at_ext_dir; [|by apply Hdirs].
      apply insert_reg_ext. rewrite Hself. apply Hway.
    + intros k Hk Hnode. apply Hkeep'; [done|]. cbn.
      destruct (decide (PosixPath.components k = PosixPath.components id)) as [Heq|Hne].
      * assert (k = id) as -> by (apply Hpre; [done..|by rewrite Heq]). done.
      * rewrite lookup_insert_ne by (by intros Heq%app_inv_head).
        by apply (grows_files _ _ _ _ Hg).
    + intros l c Hl. rewrite Hframe' by (intros k Hk; apply Hl; by right). cbn.
      rewrite lookup_insert_ne by (apply not_eq_sym, Hl; by left).
      by apply grows_files.
Qed.

(** The runs of the Mirror. *)
Lemma mirror_run st w lS :
  Fs.resolve (files w) (src_dir st) = inr lS →
  (∀ id, mirrored st id →
     Forall (fun n => Fs.valid_name n = true) (PosixPath.components id)
     ∧ way_clear (files w) lS (PosixPath.components id)
     ∧ ∃ c, Fs.read_file (files w) (src_path st id) = inr c) →
  (∀ j k, mirrored st j → mirrored st k →
          lS ++ PosixPath.components j ≠ location_of (src_path st k)) →
  (∀ j k, mirrored st j → mirrored st k →
          PosixPath.components j `prefix_of` PosixPath.components k → j = k) →
  (∃ w', copy_aprinter_files st w (Ok tt) w')
  ∧ ∀ r w', copy_aprinter_files st w r w' →
      r = Ok tt
      ∧ (∀ id, mirrored st id →
           ∃ c, Fs.read_file (files w) (src_path st id) = inr c
                ∧ Fs.read_file (files w') (src_path st id) = inr c
                ∧ Fs.entry (files w') (dst_path st id)
                  = inr (lS ++ PosixPath.components id, Fs.Reg c))
      ∧ (∀ l c, (∀ id, mirrored st id → l ≠ lS ++ PosixPath.components id) →
                files w' !! l = Some (Fs.Reg c) ↔ files w !! l = Some (Fs.Reg c)).
Proof.
  intros HS Hready Hsep Hpre.
  set (content := fun id => match Fs.read_file (files w) (src_path st id) with
                            | inr c => c
                            | inl _ => ""
                            end).
  assert (Hcontent : ∀ id, mirrored st id →
            Fs.read_file (files w) (src_path st id) = inr (content id)).
  { intros id (_ & _ & c & Hc)%Hready. unfold content. by rewrite Hc. }
  assert (Hrun : ∀ order, order ≡ₚ elements (processed_files st) →
            ∃ w', copy_files st (List.filter file_is_from_aprinter order) w = (Ok tt, w')
              ∧ (∀ id, mirrored st id →
                   Fs.read_file (files w') (src_path st id) = inr (content id)
                   ∧ Fs.entry (files w') (dst_path st id)
                     = inr (lS ++ PosixPath.components id, Fs.Reg (content id)))
              ∧ (∀ l c, (∀ id, mirrored st id → l ≠ lS ++ PosixPath.components id) →
                        files w' !! l = Some (Fs.Reg c) ↔ files w !! l = Some (Fs.Reg c))).
  { intros order Hperm.
    destruct (copy_files_install st lS (mirrored st) content
                (List.filter file_is_from_aprinter order) w Hsep Hpre)
      as (w' & Hcopy & _ & Hsrc & Hdst & _ & Hframe); try done.
    - intros id Hid. destruct (Hready id Hid) as (Hvalid & _). split; [done|].
      destruct Hid as [_ (rest & _ & -> & _)%Mirror.library_components].
      pose proof (ReFacts.split_nonempty PosixPath.slash rest) as Hrest.
      unfold PosixPath.components. destruct (PyStr.split _ rest); [done|cbn; lia].
    - intros id Hid. destruct (Hready id Hid) as (_ & Hway & _). split; [done|].
      by apply Hcontent.
    - intros id Hid. by apply (Idem.mirrored_filter st order id Hperm).
    - exists w'. split; [done|]. split.
      + intros id Hid. split; [by apply Hsrc|].
        by apply Hdst, (Idem.mirrored_filter st order id Hperm).
      + intros l c Hl. apply Hframe. intros id Hid. apply Hl.
        by apply (Idem.mirrored_filter st order id Hperm). }
  split.
  - destruct (Hrun (elements (processed_files st))) as (w' & Hcopy & _); [done|].
    exists w', (elements (processed_files st)). done.
  - intros r w' (order & Hperm & Hcopy).
    destruct (Hrun order Hperm) as (w2 & Hcopy2 & Hids & Hframe).
    rewrite Hcopy in Hcopy2. injection Hcopy2 as -> ->. split; [done|]. split; [|done].
    intros id Hid. exists (content id). destruct (Hids id Hid) as [Hsrc Hdst].
    split; [by apply Hcontent|done].
Qed.

End Install.



(** [os.path.split] undoes the [os.path.join]s that built a destination: for
    a path of at least two names below a directory path, the head is the
    path of all names but the last, which is what [mkdir_p] is called with,
    and the tail is the last name. *)
Theorem split_of_destination d names n :
  Forall (fun n => Fs.valid_name n = true) (names ++ [n]) → names ≠ [] →
  PosixPath.split (PosixPath.join d (rel_path (names ++ [n])))
  = (PosixPath.join d (rel_path names), n)
  ∧ PosixPath.dirname (PosixPath.join d (rel_path (names ++ [n])))
    = PosixPath.join d (rel_path names)
  ∧ PosixPath.basename (PosixPath.join d (rel_path (names ++ [n]))) = n.
Proof.
  intros [Hnames Hn]%Forall_app Hne. rewrite Forall_singleton in Hn.
  pose proof (Names.split_below d names n Hnames Hne Hn) as Hsplit.
  split; [done|]. split; [unfold PosixPath.dirname; by rewrite Hsplit|].
  destruct (Names.below_snoc d names n Hnames Hne Hn) as (-> & _ & _).
  unfold PosixPath.basename.
  change (PosixPath.join d (rel_path names) +:+ "/" +:+ n)
    with (PosixPath.join d (rel_path names) +:+ String PosixPath.slash n).
  rewrite Names.cut_last_slash_app; [done|].
  by apply PathFacts.valid_name_spec in Hn as (_ & _ & _ & ?).
Qed.

Lemma split_of_destination_sample :
  PosixPath.split "/p/src/aprinter/bar.h" = ("/p/src/aprinter", "bar.h")
  ∧ PosixPath.dirname "/p/src/aprinter/bar.h" = "/p/src/aprinter"
  ∧ PosixPath.basename "/p/src/aprinter/bar.h" = "bar.h".
Proof.
  refine (split_of_destination "/p/src" ["aprinter"] "bar.h" _ _).
  - repeat constructor.
  - discriminate.
Defined.

(** ** The script from end to end *)

Module Whole.
Import PathFacts FsFacts Resolver Seeding Mirror Idem Install.

(** Seeding a well-formed project tree. *)
Lemma seeded_state fuel a b w lS seeds :
  Fs.wf (files w) →
  Fs.resolve (files w) (PosixPath.join a "src") = inr lS →
  Fs.node_at (files w) lS = Some Fs.Dir →
  fs_depth (files w) < fuel + length lS →
  (∀ y, y ∈ seeds ↔ is_seed (files w) lS y) →
  ∃ w1, collect_files fuel (initial_state a b) "" w
        = (Ok (seeded (PosixPath.join a "src") b seeds), w1)
        ∧ files w1 = files w.
Proof.
  intros Hwf Hsrc Hdir Hfuel Hseeds.
  destruct (collect_files_below (files w) (PosixPath.join a "src") lS fuel []
              (initial_state a b) w)
    as (st' & w' & Hrun & Hfs & Hs & Ha & Hproc & Hre & Hpend); try done.
  - by rewrite app_nil_r.
  - by rewrite app_nil_r.
  - exists w'. split; [|done]. change (rel_path []) with "" in Hrun. rewrite Hrun.
    f_equal. f_equal. destruct st' as [s ap pe pr re]. cbn in *. subst. unfold seeded.
    f_equal. apply set_eq. intros y. rewrite Hpend, Hseeds, seeds_below_root by done.
    set_solver.
Qed.

(** The identifiers seeding ends with. *)
Lemma seeds_of_run fuel a b w lS st' w' :
  Fs.wf (files w) →
  Fs.resolve (files w) (PosixPath.join a "src") = inr lS →
  Fs.node_at (files w) lS = Some Fs.Dir →
  fs_depth (files w) < fuel + length lS →
  collect_files fuel (initial_state a b) "" w = (Ok st', w') →
  ∀ y, y ∈ pending_files st' ↔ is_seed (files w) lS y.
Proof.
  intros Hwf Hsrc Hdir Hfuel Hrun'.
  destruct (collect_files_below (files w) (PosixPath.join a "src") lS fuel []
              (initial_state a b) w)
    as (st1 & w1 & Hrun & _ & _ & _ & _ & _ & Hpend); try done.
  - by rewrite app_nil_r.
  - by rewrite app_nil_r.
  - change (rel_path []) with "" in Hrun. rewrite Hrun' in Hrun.
    injection Hrun as <- _. intros y.
    rewrite Hpend, seeds_below_root by done. cbn. set_solver.
Qed.

(** Resolving a closed file graph. *)
Lemma resolved src apr seeds w r w' :
  (∀ y, reachable (files w) src apr seeds y →
        is_Some (content_of (files w) src apr y)) →
  process_pending_files (seeded src apr seeds) w r w' →
  ∃ st', r = Ok st' ∧ files w' = files w
         ∧ src_dir st' = src ∧ aprinter_dir st' = apr
         ∧ ∀ y, y ∈ processed_files st' ↔ reachable (files w) src apr seeds y.
Proof.
  intros Hclosed Hrun. destruct r as [st'|e|].
  - apply process_pending_files_ok in Hrun as (tr & Htr & Hempty).
    destruct (turns_inv _ _ _ _ _ _ _ _ _ eq_refl (inv_seeded _ src apr seeds) Htr)
      as ([Hs Ha _ _ Hsound Hseeds Hcl] & Hfs & _).
    exists st'. split_and!; [done..|].
    intros y. split; [intros Hy; apply Hsound; set_solver|].
    intros (x & Hx & Hrtc).
    assert (Hx' : x ∈ processed_files st') by set_solver.
    clear Hx. induction Hrtc as [x|x z y Hxz _ IH]; [done|].
    apply IH. pose proof (Hcl x z Hx' Hxz) as Hz. rewrite Hempty in Hz. set_solver.
  - apply process_pending_files_raise in Hrun as (tr & st1 & w1 & x & Htr & Hx & Hraise).
    destruct (turns_inv _ _ _ _ _ _ _ _ _ eq_refl (inv_seeded _ src apr seeds) Htr)
      as ([Hsrc Hapr _ _ Hsound _ _] & Hfs & _).
    apply loop_body_raise in Hraise as [Hnone _].
    rewrite Hsrc, Hapr, Hfs in Hnone.
    destruct (Hclosed x) as [c Hc]; [apply Hsound; set_solver|congruence].
  - by apply process_pending_files_answers in Hrun.
Qed.

Lemma library_content fs src apr y :
  file_is_from_aprinter y = true →
  is_Some (content_of fs src apr y) → ∃ c, Fs.read_file fs (PosixPath.join apr y) = inr c.
Proof.
  unfold content_of, full_path. intros -> [c Hc].
  destruct (Fs.read_file fs (PosixPath.join apr y)) as [e|c']; [done|]. by exists c'.
Qed.

Lemma main_run fuel a b w lS seeds :
  Fs.wf (files w) →
  Fs.resolve (files w) (PosixPath.join a "src") = inr lS →
  Fs.node_at (files w) lS = Some Fs.Dir →
  fs_depth (files w) < fuel + length lS →
  (∀ y, y ∈ seeds ↔ is_seed (files w) lS y) →
  (∀ y, reachable (files w) (PosixPath.join a "src") b seeds y →
        is_Some (content_of (files w) (PosixPath.join a "src") b y)) →
  (∀ y, reachable (files w) (PosixPath.join a "src") b seeds y →
        file_is_from_aprinter y = true →
        Forall (fun n => Fs.valid_name n = true) (PosixPath.components y)
        ∧ way_clear (files w) lS (PosixPath.components y)) →
  (∀ j k, reachable (files w) (PosixPath.join a "src") b seeds j →
          reachable (files w) (PosixPath.join a "src") b seeds k →
          file_is_from_aprinter j = true → file_is_from_aprinter k = true →
          lS ++ PosixPath.components j ≠ location_of (PosixPath.join b k)
          ∧ (PosixPath.components j `prefix_of` PosixPath.components k → j = k)) →
  (∃ w', main fuel a b w (Ok tt) w')
  ∧ ∀ r w', main fuel a b w r w' →
      r = Ok tt
      ∧ (∀ y, reachable (files w) (PosixPath.join a "src") b seeds y →
              file_is_from_aprinter y = true →
              ∃ c, Fs.read_file (files w) (PosixPath.join b y) = inr c
                   ∧ Fs.read_file (files w') (PosixPath.join b y) = inr c
                   ∧ Fs.entry (files w') (PosixPath.join (PosixPath.join a "src") y)
                     = inr (lS ++ PosixPath.components y, Fs.Reg c))
      ∧ (∀ l c, (∀ y, reachable (files w) (PosixPath.join a "src") b seeds y →
                      file_is_from_aprinter y = true →
                      l ≠ lS ++ PosixPath.components y) →
                files w' !! l = Some (Fs.Reg c) ↔ files w !! l = Some (Fs.Reg c)).
Proof.
  intros Hwf Hsrc Hdir Hfuel Hseeds Hclosed Hready Hapart.
  set (src := PosixPath.join a "src") in *.
  destruct (seeded_state fuel a b w lS seeds Hwf Hsrc Hdir Hfuel Hseeds)
    as (w1 & Hcollect & Hf1).
  assert (Hclosed1 : ∀ y, reachable (files w1) src b seeds y →
                          is_Some (content_of (files w1) src b y)).
  { rewrite Hf1. apply Hclosed. }
  assert (Hmirror : ∀ st2 w2,
            files w2 = files w → src_dir st2 = src → aprinter_dir st2 = b →
            (∀ y, y ∈ processed_files st2 ↔ reachable (files w) src b seeds y) →
            (∃ w', copy_aprinter_files st2 w2 (Ok tt) w')
            ∧ ∀ r w', copy_aprinter_files st2 w2 r w' →
                r = Ok tt
                ∧ (∀ y, reachable (files w) src b seeds y →
                        file_is_from_aprinter y = true →
                        ∃ c, Fs.read_file (files w) (PosixPath.join b y) = inr c
                             ∧ Fs.read_file (files w') (PosixPath.join b y) = inr c
                             ∧ Fs.entry (files w') (PosixPath.join src y)
                               = inr (lS ++ PosixPath.components y, Fs.Reg c))
                ∧ (∀ l c, (∀ y, reachable (files w) src b seeds y →
                                file_is_from_aprinter y = true →
                                l ≠ lS ++ PosixPath.components y) →
                          files w' !! l = Some (Fs.Reg c)
                          ↔ files w !! l = Some (Fs.Reg c))).
  { intros st2 w2 Hf2 Hs2 Ha2 Hproc.
    assert (Hmir : ∀ y, mirrored st2 y ↔
              reachable (files w) src b seeds y ∧ file_is_from_aprinter y = true).
    { intros y. unfold mirrored. by rewrite Hproc. }
    destruct (mirror_run st2 w2 lS) as [Hex Hall].
    - by rewrite Hf2, Hs2.
    - intros y [Hy Hlib]%Hmir. rewrite Hf2. destruct (Hready y Hy Hlib) as [Hv Hway].
      split; [done|]. split; [done|]. unfold src_path. rewrite Ha2.
      by apply (library_content _ src), Hclosed.
    - intros j k [Hj Hjl]%Hmir [Hk Hkl]%Hmir. unfold src_path. rewrite Ha2.
      by apply Hapart.
    - intros j k [Hj Hjl]%Hmir [Hk Hkl]%Hmir. by apply Hapart.
    - split; [done|]. intros r w' Hrun. destruct (Hall r w' Hrun) as (Hr & Hids & Hframe).
      split; [done|]. split.
      + intros y Hy Hlib. destruct (Hids y) as (c & H1 & H2 & H3); [by apply Hmir|].
        unfold src_path, dst_path in *. rewrite Ha2, Hs2, Hf2 in *. by exists c.
      + intros l c Hl. rewrite <-Hf2. apply Hframe. intros y [Hy Hlib]%Hmir. by apply Hl. }
  split.
  - destruct (run_exists (files w1) src b seeds (seeded src b seeds) w1 eq_refl
                (inv_seeded _ src b seeds)) as (r2 & w2 & Hrun2).
    destruct (resolved src b seeds w1 r2 w2 Hclosed1 Hrun2)
      as (st2 & -> & Hf2 & Hs2 & Ha2 & Hproc).
    destruct (Hmirror st2 w2) as [[w' Hrun3] _]; [congruence|done|done| |].
    { intros y. by rewrite Hproc, Hf1. }
    exists w'. unfold main. fold src. rewrite Hcollect. by exists (Ok st2), w2.
  - intros r w'. unfold main. fold src. rewrite Hcollect.
    intros (r2 & w2 & Hrun2 & Hrest).
    destruct (resolved src b seeds w1 r2 w2 Hclosed1 Hrun2)
      as (st2 & -> & Hf2 & Hs2 & Ha2 & Hproc).
    destruct (Hmirror st2 w2) as [_ Hall]; [congruence|done|done| |by apply Hall].
    intros y. by rewrite Hproc, Hf1.
Qed.

End Whole.



